(** * Subhalo perihelia and stacked number-density profiles

    A shallow embedding of [los/main/plotting/peri/n_plot.py]: the halo
    trajectories cut out of the merger-tree table, the displacement of a
    subhalo relative to its host, the perihelion search, and the per-host
    masked histograms that are stacked across hosts.

    Conventions of the embedding.
    - numpy's float64 is read as a real number ([R]): rounding, NaN and the
      infinities are outside the model, and a division by zero has the value
      the Standard Library gives it.
    - A one-dimensional numpy array is a [list]; a basic slice of a column
      of the tree table is a view: its bounds are kept, and reads and writes
      go to the column's buffer.
    - A Python exception is a [Raise] of the [result] monad.
    - Objects of class [Halo] live in the dictionary [hs]; a reference to a
      halo is its key.
    - The model ends where the bin centres are computed: the percentiles of
      the stacks and the plots are not part of it. *)

From Stdlib Require Import Reals Lra Lia ZArith.
From stdpp Require Import base option list gmap.

(** ** Python exceptions *)

Inductive exn : Set :=
  | IndexError
  | ValueError
  | TypeError
  | AttributeError
  | KeyError
  | DanglingReference. (* a key of [hs] used as a reference, held by no object:
                          no store the program builds has one *)

Inductive result (A : Type) : Type :=
  | Ok (a : A)
  | Raise (e : exn).
Arguments Ok {A} a.
Arguments Raise {A} e.

#[global] Instance result_ret : MRet result := λ A a, Ok a.
#[global] Instance result_bind : MBind result := λ A B f m,
  match m with
  | Ok a => f a
  | Raise e => Raise e
  end.
#[global] Instance result_fmap : FMap result := λ A B f m,
  match m with
  | Ok a => Ok (f a)
  | Raise e => Raise e
  end.

Definition of_option {A} (e : exn) (o : option A) : result A :=
  match o with
  | Some a => Ok a
  | None => Raise e
  end.

(** [for i in rng: s = body(i, s)], stopping at the first exception. *)
Fixpoint for_each {I T} (body : I → T → result T) (rng : list I) (s : T)
  : result T :=
  match rng with
  | [] => Ok s
  | i :: rng' => s' ← body i s; for_each body rng' s'
  end.

(** ** Indexing and slicing *)

(** The position an index [k] denotes in a sequence of length [n]: Python
    counts a negative index from the end, and [-0] is [0]. *)
Definition norm_index (n : nat) (k : Z) : result nat :=
  if decide (0 ≤ k < Z.of_nat n)%Z then Ok (Z.to_nat k)
  else if decide (- Z.of_nat n ≤ k < 0)%Z then Ok (Z.to_nat (Z.of_nat n + k))
  else Raise IndexError.

(** [a[k]] *)
Definition getitem {A} (a : list A) (k : Z) : result A :=
  i ← norm_index (length a) k; of_option IndexError (a !! i).

(** [a[start:stop]] for non-negative bounds. *)
Definition slice {A} (a : list A) (start stop : nat) : list A :=
  take (stop - start) (drop start a).

(** [a[k:]]: a negative [k] counts from the end and is clipped at the start
    of the sequence, so that [a[-0:]] is all of [a]. *)
Definition slice_from {A} (a : list A) (k : Z) : list A :=
  if decide (k < 0)%Z
  then drop (Z.to_nat (Z.max 0 (Z.of_nat (length a) + k))) a
  else drop (Z.to_nat k) a.

(** [a[:-1]] and [a[1:]] *)
Definition but_last {A} (a : list A) : list A := take (length a - 1) a.
Definition but_first {A} (a : list A) : list A := drop 1 a.

(** A view [buf[start:stop]] of a buffer is kept as its bounds. *)
Record View : Set := mkView { v_start : nat; v_stop : nat }.

Definition view_read {A} (buf : list A) (v : View) : list A :=
  slice buf (v_start v) (v_stop v).

(** [v[k]] read through to the buffer. *)
Definition view_getitem {A} (buf : list A) (v : View) (k : Z) : result A :=
  getitem (view_read buf v) k.

(** [v[k] = x] written through to the buffer. *)
Definition view_setitem {A} (buf : list A) (v : View) (k : Z) (x : A)
  : result (list A) :=
  j ← norm_index (length (view_read buf v)) k;
  Ok (<[v_start v + j := x]> buf).

(** ** Elementwise numpy operations *)

(** A binary operation on two arrays: equal lengths pair up, an array of
    length 1 is broadcast, anything else is a shape mismatch. *)
Definition broadcast {A B C} (f : A → B → C) (a : list A) (b : list B)
  : result (list C) :=
  if decide (length a = length b) then Ok (zip_with f a b)
  else match a, b with
       | [x], _ => Ok (f x <$> b)
       | _, [y] => Ok ((λ x, f x y) <$> a)
       | _, _ => Raise ValueError
       end.

#[global] Instance Rlt_decision : RelDecision Rlt := Rlt_dec.
#[global] Instance Rgt_decision : RelDecision Rgt := Rgt_dec.

Section Numpy.
Local Open Scope R_scope.

Definition np_add (a b : list R) : result (list R) := broadcast Rplus a b.
Definition np_sub (a b : list R) : result (list R) := broadcast Rminus a b.
Definition np_mul (a b : list R) : result (list R) := broadcast Rmult a b.
Definition np_div (a b : list R) : result (list R) := broadcast Rdiv a b.
Definition np_square (a : list R) : list R := (λ x, x ^ 2) <$> a.
Definition np_sqrt (a : list R) : list R := sqrt <$> a.
Definition np_abs (a : list R) : list R := Rabs <$> a.
Definition np_arccos (a : list R) : list R := acos <$> a.
Definition np_scale (a : list R) (c : R) : list R := (λ x, x * c) <$> a.
Definition np_div_scalar (a : list R) (c : R) : list R := (λ x, x / c) <$> a.

(** The angle of the point [(x, y)], in (-π, π]. *)
Definition arctan2 (y x : R) : R :=
  if decide (0 < x) then atan (y / x)
  else if decide (x < 0) then
    (if decide (y < 0) then atan (y / x) - PI else atan (y / x) + PI)
  else if decide (0 < y) then PI / 2
  else if decide (y < 0) then - PI / 2
  else 0.

Definition np_arctan2 (y x : list R) : result (list R) :=
  broadcast arctan2 y x.

(** [np.argmin]: the first position of the least element. *)
Fixpoint argmin_from (best : R) (bi i : nat) (a : list R) : nat :=
  match a with
  | [] => bi
  | x :: a' =>
      if decide (x < best) then argmin_from x i (S i) a'
      else argmin_from best bi (S i) a'
  end.

Definition argmin (a : list R) : result nat :=
  match a with
  | [] => Raise ValueError
  | x :: a' => Ok (argmin_from x 0 1 a')
  end.

(** [np.sum] of a boolean array. *)
Definition np_sum (mask : list bool) : nat := length (filter (λ b, b = true) mask).

(** [a[mask]] *)
Definition select {A} (a : list A) (mask : list bool) : result (list A) :=
  if decide (length a = length mask)
  then Ok ((fst <$> filter (λ p, p.2 = true) (zip a mask)))
  else Raise IndexError.
End Numpy.

(** ** Configuration constants *)

Definition L : R := 250.

Definition r_max_scale : R := 1.
Definition r_sp_scale : R := 1.
Definition r90_scale : R := 1.
Definition r200m_scale : R := 1.
Definition r200c_scale : R := 1.

Definition SUBHALO_LIM : nat := 40.
Definition PLOT_INDIV : bool := false.

(** ** Halos and the store *)

(** The attributes [displace] sets on a subhalo. [host_rs] is the host's
    [rs] array itself: a view of the same buffer. *)
Record Displaced : Type := mkDisplaced {
  ds : list R;
  phis : list R;
  ths : list R;
  host_rs : View;
  vxs : list R;
  vys : list R;
  vzs : list R;
  vs : list R;
  vrs : list R
}.

(** The attributes the membership loop sets on a host. *)
Record HostInfo : Type := mkHostInfo {
  m_sp : R;
  r_sp : R;
  r_min : R;
  r_max : R;
  r200m : R;
  gamma : R;
  m200c : R;
  r200c : R;
  m_id : option Z
}.

(** An object of class [Halo]. Its [scales], [xs], [ys], [zs], [rs] and [ms]
    are the slices [start:end] of the tree's columns, so one pair of bounds
    stands for the six views; [ts] is an array of its own. *)
Record Halo : Type := mkHalo {
  h_id : Z;
  h_view : View;
  ts : list R;
  subs : list Z;
  displaced : option Displaced;
  host_info : option HostInfo
}.

(** The columns of the merger-tree table and the dictionary of halos. *)
Record Store : Type := mkStore {
  scales : list R;
  xs : list R;
  ys : list R;
  zs : list R;
  rs : list R;
  ms : list R;
  hs : gmap Z Halo
}.

Definition deref (St : Store) (r : Z) : result Halo :=
  of_option DanglingReference (hs St !! r).

Definition halo_scales (St : Store) (h : Halo) : list R := view_read (scales St) (h_view h).
Definition halo_xs (St : Store) (h : Halo) : list R := view_read (xs St) (h_view h).
Definition halo_ys (St : Store) (h : Halo) : list R := view_read (ys St) (h_view h).
Definition halo_zs (St : Store) (h : Halo) : list R := view_read (zs St) (h_view h).
Definition halo_rs (St : Store) (h : Halo) : list R := view_read (rs St) (h_view h).
Definition halo_ms (St : Store) (h : Halo) : list R := view_read (ms St) (h_view h).

(** The host's radii as a displaced subhalo sees them, through its alias. *)
Definition halo_host_rs (St : Store) (d : Displaced) : list R :=
  view_read (rs St) (host_rs d).

Definition set_positions (St : Store) (bx by_ bz : list R) : Store :=
  {| scales := scales St; xs := bx; ys := by_; zs := bz; rs := rs St;
     ms := ms St; hs := hs St |}.

Definition set_halo (St : Store) (r : Z) (h : Halo) : Store :=
  {| scales := scales St; xs := xs St; ys := ys St; zs := zs St; rs := rs St;
     ms := ms St; hs := <[r := h]> (hs St) |}.

Definition set_displaced (h : Halo) (d : Displaced) : Halo :=
  {| h_id := h_id h; h_view := h_view h; ts := ts h; subs := subs h;
     displaced := Some d; host_info := host_info h |}.

Definition set_host_info (h : Halo) (i : HostInfo) : Halo :=
  {| h_id := h_id h; h_view := h_view h; ts := ts h; subs := subs h;
     displaced := displaced h; host_info := Some i |}.

(** [Halo.add_sub] *)
Definition add_sub (h : Halo) (sub : Z) : Halo :=
  {| h_id := h_id h; h_view := h_view h; ts := ts h; subs := subs h ++ [sub];
     displaced := displaced h; host_info := host_info h |}.

Section Halo.
Local Open Scope R_scope.

(** [deriv.vector_deriv] and [cosmo.age]: the numerical derivative and the
    cosmology are not part of this file. *)
Variable vector_deriv : list R → list R → list R.
Variable age : R → R.

(** [Halo.__init__] *)
Definition Halo_init (tree_ids : list Z) (St : Store) (start end_ : nat)
  : result Halo :=
  i ← getitem tree_ids (Z.of_nat end_ - 1);
  let v := mkView start end_ in
  Ok {| h_id := i; h_view := v;
        ts := (λ a, age (1 / a - 1)) <$> view_read (scales St) v;
        subs := []; displaced := None; host_info := None |}.

(** One coordinate of one round of the loop of [displace]:
    [self.xs[k] -= host.xs[k]], then the two conditional shifts by [L]. *)
Definition displace_coord (buf : list R) (self host : View) (k : Z)
  : result (list R) :=
  a ← view_getitem buf self k;
  b ← view_getitem buf host k;
  buf ← view_setitem buf self k (a - b);
  a ← view_getitem buf self k;
  buf ← (if decide (a > L / 2) then view_setitem buf self k (a - L)
         else Ok buf);
  a ← view_getitem buf self k;
  if decide (a < - L / 2) then view_setitem buf self k (a + L)
  else Ok buf.

(** Round [i] of the loop, on the buffers of [xs], [ys] and [zs]. *)
Definition displace_body (self host : View) (i : nat)
    (bufs : list R * list R * list R) : result (list R * list R * list R) :=
  let '(bx, by_, bz) := bufs in
  bx ← displace_coord bx self host (- Z.of_nat i);
  by_ ← displace_coord by_ self host (- Z.of_nat i);
  bz ← displace_coord bz self host (- Z.of_nat i);
  Ok (bx, by_, bz).

(** [deriv.vector_deriv(self.ts, a) * self.scales * 31.54] *)
Definition velocity (t sc a : list R) : result (list R) :=
  v ← np_mul (vector_deriv t a) sc;
  Ok (np_scale v 31.54).

(** The loop of [displace]: the in-place shift of the subhalo's
    positions, for [i] in [xrange(min(len(self.xs), len(host.xs)))]. *)
Definition displace_positions (St : Store) (self host : View)
  : result Store :=
  let m := Nat.min (length (view_read (xs St) self))
                   (length (view_read (xs St) host)) in
  '(bx, by_, bz) ← for_each (displace_body self host) (seq 0 m)
                     (xs St, ys St, zs St);
  Ok (set_positions St bx by_ bz).

(** The attributes [displace] computes after its loop. *)
Definition displace_derived (St : Store) (hself : Halo) (host : View)
  : result Displaced :=
  let sx := halo_xs St hself in
  let sy := halo_ys St hself in
  let sz := halo_zs St hself in
  let sc := halo_scales St hself in
  xy ← np_add (np_square sx) (np_square sy);
  xyz ← np_add xy (np_square sz);
  let ds_ := np_sqrt xyz in
  q ← np_div sz ds_;
  let phis_ := np_arccos q in
  ths_ ← np_arctan2 sy sx;
  vxs_ ← velocity (ts hself) sc sx;
  vys_ ← velocity (ts hself) sc sy;
  vzs_ ← velocity (ts hself) sc sz;
  vxy ← np_add (np_square vxs_) (np_square vys_);
  vxyz ← np_add vxy (np_square sz);
  let vs_ := np_sqrt vxyz in
  vd ← velocity (ts hself) sc ds_;
  let vrs_ := np_abs vd in
  Ok {| ds := ds_; phis := phis_; ths := ths_; host_rs := host;
        vxs := vxs_; vys := vys_; vzs := vzs_; vs := vs_; vrs := vrs_ |}.

(** [Halo.displace]: [self] and [host] are references into [hs]. *)
Definition displace (St : Store) (self host : Z) : result Store :=
  hself ← deref St self;
  hhost ← deref St host;
  St1 ← displace_positions St (h_view hself) (h_view hhost);
  d ← displace_derived St1 hself (h_view hhost);
  Ok (set_halo St1 self (set_displaced hself d)).

(** [Halo.perihelion] *)
Definition perihelion (St : Store) (self : Z) : result (R * R * R * R * R) :=
  hself ← deref St self;
  d ← of_option AttributeError (displaced hself);
  let hrs := halo_host_rs St d in
  let l := Nat.min (length (ds d)) (length hrs) in
  i ← argmin (slice_from (ds d) (- Z.of_nat l));
  let hi := (Z.of_nat i - Z.of_nat l)%Z in
  dp ← getitem (ds d) hi;
  dp' ← getitem (ds d) hi;
  r ← getitem hrs hi;
  phi ← getitem (phis d) hi;
  th ← getitem (ths d) hi;
  t ← getitem (ts hself) hi;
  Ok (dp, dp' / r, phi, th, t).
End Halo.

(** ** Building the halos and the membership *)

(** A row of the merger-tree table. *)
Record TreeRow : Type := mkTreeRow {
  row_id : Z;
  row_snap : Z;
  row_scale : R;
  row_x : R;
  row_y : R;
  row_z : R;
  row_r : R;
  row_m : R
}.

(** The columns of the tree: [tree_ids] and the six arrays that the halos
    slice. No halo exists yet. *)
Definition load_tree (rows : list TreeRow) : list Z * Store :=
  (row_id <$> rows,
   {| scales := row_scale <$> rows; xs := row_x <$> rows;
      ys := row_y <$> rows; zs := row_z <$> rows; rs := row_r <$> rows;
      ms := row_m <$> rows; hs := ∅ |}).


(** A row of the radius table, as [rad_info] keeps it. *)
Record RadRow : Type := mkRadRow {
  rad_m_sp : R;
  rad_r_sp : R;
  rad_r_min : R;
  rad_r_max : R;
  rad_r200m : R;
  rad_m200c : R;
  rad_gamma : R
}.

(** [rad_info[rad_ids[i]] = (...)] for every row of the radius table. *)
Definition make_rad_info (rows : list (Z * RadRow)) : gmap Z RadRow :=
  foldl (λ m row, <[row.1 := row.2]> m) ∅ rows.

Section Setup.
Local Open Scope R_scope.

(** [cosmo.age] and [cosmo.rho_c(0)] *)
Variable age : R → R.
Variable rho_c0 : R.

(** Round [i] of the loop that cuts the tree at its sentinel rows. *)
Definition make_halos_body (tree_ids : list Z) (i : nat) (st : nat * Store)
  : result (nat * Store) :=
  let '(start, St) := st in
  tid ← getitem tree_ids (Z.of_nat i);
  if decide (tid = (-1)%Z) then
    h ← Halo_init age tree_ids St start i;
    Ok (S i, set_halo St (h_id h) h)
  else Ok (start, St).

(** The loop and the halo after the last sentinel. *)
Definition make_halos (tree_ids : list Z) (St : Store) : result Store :=
  '(start, St) ← for_each (make_halos_body tree_ids)
                  (seq 0 (length tree_ids)) (0%nat, St);
  h ← Halo_init age tree_ids St start (length tree_ids);
  Ok (set_halo St (h_id h) h).

(** The derived radius of a host. [Rpower] is the power of a positive
    base: the definition reads the code for a positive mass and a positive
    critical density. *)
Definition r200c_of (m200c_ : R) : R :=
  Rpower (m200c_ / ((rho_c0 * 200) * 1e9 * 4 * PI / 3)) 0.333.

(** [m_ids] is [None] when the membership is read, so every [m_id] is. *)
Definition m_ids : option (list Z) := None.

(** One row [(s_ids[i], h_ids[i])] of the membership table. *)
Definition membership_body (rad_info : gmap Z RadRow) (row : Z * Z)
    (st : list Z * Store) : result (list Z * Store) :=
  let '(hosts, St) := st in
  let '(id, h_id_) := row in
  if decide (id = h_id_) then
    h ← of_option KeyError (hs St !! id);
    let hosts := hosts ++ [id] in
    r ← of_option KeyError (rad_info !! id);
    mid ← match m_ids with
          | None => Ok None
          | Some l => Some <$> getitem l (Z.of_nat (length hosts) - 1)
          end;
    Ok (hosts,
        set_halo St id
          (set_host_info h
             {| m_sp := rad_m_sp r; r_sp := rad_r_sp r;
                r_min := rad_r_min r; r_max := rad_r_max r;
                r200m := rad_r200m r; gamma := rad_gamma r;
                m200c := rad_m200c r; r200c := r200c_of (rad_m200c r);
                m_id := mid |}))
  else
    h ← of_option KeyError (hs St !! h_id_);
    _ ← of_option KeyError (hs St !! id);
    Ok (hosts, set_halo St h_id_ (add_sub h id)).

Definition membership (rad_info : gmap Z RadRow) (rows : list (Z * Z))
    (St : Store) : result (list Z * Store) :=
  for_each (membership_body rad_info) rows ([], St).
End Setup.

(** ** The aggregation over hosts *)

#[global] Instance Rle_decision : RelDecision Rle := Rle_dec.

Section Histogram.
Local Open Scope R_scope.

(** [np.linspace(lo, hi, num)] *)
Definition linspace (lo hi : R) (num : nat) : list R :=
  (λ i, lo + INR i * ((hi - lo) / INR (num - 1))) <$> seq 0 num.

(** Whether [v] falls into bin [i]: a bin holds its left edge, and the last
    bin its right edge as well. *)
Definition in_bin (e : list R) (bins i : nat) (v : R) : bool :=
  match e !! i, e !! S i with
  | Some lo, Some hi =>
      bool_decide (lo <= v)
      && (bool_decide (v < hi)
          || (bool_decide (S i = bins) && bool_decide (v <= hi)))
  | _, _ => false
  end.

Definition bin_count (e : list R) (bins i : nat) (a : list R) : nat :=
  length (filter (λ v, in_bin e bins i v = true) a).

(** [np.histogram(a, bins=bins, range=(lo, hi))]: the counts and the
    edges. *)
Definition histogram (a : list R) (bins : nat) (lo hi : R)
  : list nat * list R :=
  let e := linspace lo hi (S bins) in
  ((λ i, bin_count e bins i a) <$> seq 0 bins, e).
End Histogram.

(** The accumulators of the loop over hosts. *)
Record Stacks : Type := mkStacks {
  b_r_sp : list (list R);
  b_r_max : list (list R);
  b_r200m : list (list R);
  b_r200c : list (list R);
  edges : option (list R);
  sub_counts : list nat
}.

Definition no_stacks : Stacks :=
  {| b_r_sp := []; b_r_max := []; b_r200m := []; b_r200c := [];
     edges := None; sub_counts := [] |}.

(** What the second loop over a host's subhalos appends to. *)
Record Gathered : Type := mkGathered {
  g_ds : list R;
  g_dps : list R;
  g_xps : list R;
  g_phis : list R;
  g_ths : list R;
  g_ts : list R
}.

Section Aggregator.
Local Open Scope R_scope.

Variable vector_deriv : list R → list R → list R.

Definition vol (r : R) : R := 4 * PI / 3 * r ^ 3.

(** [vals / (vol(edges[1:]) - vol(edges[:-1])) / n] *)
Definition profile (vals : list nat) (e : list R) (n : nat)
  : result (list R) :=
  shell ← np_sub (vol <$> but_first e) (vol <$> but_last e);
  p ← np_div (INR <$> vals) shell;
  Ok (np_div_scalar p (INR n)).

(** [eps_eq] *)
Definition eps_eq (x y : list R) : result (list bool) :=
  let eps := 0.01 in
  d ← np_sub x y;
  Ok ((λ v, bool_decide (v < eps)) <$> np_abs d).

(** [(~eps_eq(xps, xs)) & (xps < 1) & (ds > 0)] *)
Definition make_mask (xps xs_ ds_ : list R) : result (list bool) :=
  e ← eps_eq xps xs_;
  m ← broadcast andb (negb <$> e) ((λ x, bool_decide (x < 1)) <$> xps);
  broadcast andb m ((λ d, bool_decide (d > 0)) <$> ds_).

(** One round of the loop that collects the subhalos of a host. *)
Definition gather_body (St : Store) (sub : Z) (g : Gathered)
  : result Gathered :=
  '(dp, xp, _, _, t) ← perihelion St sub;
  hsub ← deref St sub;
  d ← of_option AttributeError (displaced hsub);
  d_now ← getitem (ds d) (-1);
  phi_now ← getitem (phis d) (-1);
  th_now ← getitem (ths d) (-1);
  Ok {| g_ds := g_ds g ++ [d_now]; g_dps := g_dps g ++ [dp];
        g_xps := g_xps g ++ [xp]; g_phis := g_phis g ++ [phi_now];
        g_ths := g_ths g ++ [th_now]; g_ts := g_ts g ++ [t] |}.

Definition no_gathered : Gathered :=
  {| g_ds := []; g_dps := []; g_xps := []; g_phis := []; g_ths := [];
     g_ts := [] |}.

(** The density profile of one histogram:
    [(ds / radius * scale)[mask]] binned over [(r_lo, r_hi)]. *)
Definition stack_profile (ds_ : list R) (mask : list bool) (radius scale : R)
    (bins : nat) (r_lo r_hi : R) (n : nat) : result (list R * list R) :=
  a ← select (np_scale (np_div_scalar ds_ radius) scale) mask;
  let '(vals, e) := histogram a bins r_lo r_hi in
  p ← profile vals e n;
  Ok (p, e).

(** From [n = np.sum(mask)] to the end of a round of the loop over hosts.
    The radii of the host are read only when its count exceeds the
    threshold. *)
Definition stack_host (host : Halo) (ds_ : list R) (mask : list bool)
    (A : Stacks) : result Stacks :=
  let n := np_sum mask in
  let counts := sub_counts A ++ [n] in
  let r_lo := 0.1 in
  let r_hi := 2 in
  if decide (SUBHALO_LIM < n)%nat then
    let bins := 25%nat in
    info ← of_option AttributeError (host_info host);
    '(p_sp, e) ← stack_profile ds_ mask (r_sp info) r_sp_scale bins r_lo r_hi n;
    '(p_max, _) ← stack_profile ds_ mask (r_max info) r_max_scale bins r_lo r_hi n;
    '(p_200m, _) ← stack_profile ds_ mask (r200m info) r200m_scale bins r_lo r_hi n;
    '(p_200c, _) ← stack_profile ds_ mask (r200c info) r200c_scale bins r_lo r_hi n;
    Ok {| b_r_sp := b_r_sp A ++ [p_sp]; b_r_max := b_r_max A ++ [p_max];
          b_r200m := b_r200m A ++ [p_200m]; b_r200c := b_r200c A ++ [p_200c];
          edges := Some e; sub_counts := counts |}
  else
    Ok {| b_r_sp := b_r_sp A; b_r_max := b_r_max A; b_r200m := b_r200m A;
          b_r200c := b_r200c A; edges := edges A; sub_counts := counts |}.

(** One round of the loop over hosts. The name [xs] that the round rebinds
    is a name only: the views of the halos keep the buffer of the tree. *)
Definition host_body (host : Z) (st : Store * Stacks)
  : result (Store * Stacks) :=
  let '(St, A) := st in
  hhost ← deref St host;
  St ← for_each (λ sub St, displace vector_deriv St sub host) (subs hhost) St;
  hhost ← deref St host;
  g ← for_each (gather_body St) (subs hhost) no_gathered;
  r_now ← getitem (halo_rs St hhost) (-1);
  let xs_ := np_div_scalar (g_ds g) r_now in
  mask ← make_mask (g_xps g) xs_ (g_ds g);
  A ← stack_host hhost (g_ds g) mask A;
  Ok (St, A).

(** [(edges[:-1] + edges[1:]) / 2] *)
Definition bin_centers (e : option (list R)) : result (list R) :=
  e ← of_option TypeError e;
  s ← np_add (but_last e) (but_first e);
  Ok (np_div_scalar s 2).

(** The loop over hosts and the bin centres; the percentiles of the four
    stacks are taken next and handed to the plots. *)
Definition aggregate (hosts : list Z) (St : Store)
  : result (list R * Stacks * Store) :=
  '(St, A) ← for_each host_body hosts (St, no_stacks);
  centers ← bin_centers (edges A);
  Ok (centers, A, St).
End Aggregator.

(** The script, from the loaded tables to the bin centres and the stacks. *)
Definition main (vector_deriv : list R → list R → list R) (age : R → R)
    (rho_c0 : R) (tree : list TreeRow) (sub_rows : list (Z * Z))
    (rad : list (Z * RadRow)) : result (list R * Stacks * Store) :=
  let '(tree_ids, St) := load_tree tree in
  St ← make_halos age tree_ids St;
  '(hosts, St) ← membership rho_c0 (make_rad_info rad) sub_rows St;
  aggregate vector_deriv hosts St.

(** Modelled from the spec: [deriv.vector_deriv], the finite-difference
    derivative of the samples [x] with respect to [t], of the length of [x]:
    one-sided at the two ends, centred in between. The module [deriv] is not
    among the sources. *)
Definition vector_deriv_spec (t x : list R) : list R :=
  (λ i, let lo := Nat.pred i in
        let hi := Nat.min (S i) (length x - 1) in
        (nth hi x 0 - nth lo x 0) / (nth hi t 0 - nth lo t 0))%R
  <$> seq 0 (length x).

(** ** Vocabulary of the statements *)

(** The two conditional shifts of the loop of [displace], applied to one
    coordinate difference. *)
Definition wrap (d : R) : R :=
  let d1 := if decide (d > L / 2)%R then (d - L)%R else d in
  if decide (d1 < - L / 2)%R then (d1 + L)%R else d1.

(** The position that the index [-i] denotes in an array of length [n]. *)
Definition loop_index (n i : nat) : nat := if decide (i = 0) then 0 else n - i.

(** The positions of a subhalo's array, of length [n], that the first [k]
    rounds of the loop write, and the position of the host's array, of length
    [nh], that is read for position [j]. *)
Definition touched (n k j : nat) : Prop := 0 < k ∧ (j = 0 ∨ n - k < j).

#[global] Instance touched_dec n k j : Decision (touched n k j).
Proof. unfold touched. apply _. Defined.

Definition partner (n nh j : nat) : nat :=
  if decide (j = 0) then 0 else nh - (n - j).

(** A subhalo's coordinate array [s] after [k] rounds against the host's
    array [h], and after the whole loop. *)
Definition displaced_prefix (k : nat) (s h : list R) : list R :=
  imap (λ j x, if decide (touched (length s) k j)
               then wrap (x - default 0%R (h !! partner (length s) (length h) j))
               else x) s.

Definition displaced_array (s h : list R) : list R :=
  displaced_prefix (Nat.min (length s) (length h)) s h.

(** The displacement in the words of the specification: the [k]-th most
    recent sample of the subhalo against the [k]-th most recent sample of the
    host, for [k] from 1 to the length of the shorter history; earlier
    samples stay. *)
Definition trailing_aligned (s h : list R) : list R :=
  imap (λ j x, if decide (length s - Nat.min (length s) (length h) ≤ j)
               then wrap (x - default 0%R (h !! (length h - (length s - j))))
               else x) s.

(** The buffer [buf] with the array [new] written over the view [v]. *)
Definition write_view (buf : list R) (v : View) (new : list R) : list R :=
  take (v_start v) buf ++ new ++ drop (v_start v + length new) buf.

(** Two views of one buffer that share no position. *)
Definition disjoint_views {A} (buf : list A) (v w : View) : Prop :=
  v_start v + length (view_read buf v) ≤ v_start w
  ∨ v_start w + length (view_read buf w) ≤ v_start v.

(** The columns come from one table: they have one length. *)
Definition wf_columns (St : Store) : Prop :=
  length (ys St) = length (xs St) ∧ length (zs St) = length (xs St)
  ∧ length (scales St) = length (xs St) ∧ length (rs St) = length (xs St)
  ∧ length (ms St) = length (xs St).

Definition disjoint_halos (St : Store) (v w : View) : Prop :=
  disjoint_views (xs St) v w.

(** The loop of [displace] on one buffer. *)
Definition displace_loop (buf : list R) (self host : View) (k : nat)
  : result (list R) :=
  for_each (λ i b, displace_coord b self host (- Z.of_nat i)) (seq 0 k) buf.

(** What position [x] of a buffer holds after [k] rounds of the loop. *)
Definition loop_value (buf : list R) (self host : View) (k x : nat)
  : option R :=
  let n := length (view_read buf self) in
  let nh := length (view_read buf host) in
  if decide (v_start self ≤ x < v_start self + n
             ∧ touched n k (x - v_start self))
  then Some (wrap (default 0%R (buf !! x)
                   - default 0%R (buf !! (v_start host
                                          + partner n nh (x - v_start self)))))
  else buf !! x.

(** The store after the loop of [displace]. *)
Definition positions_result (St : Store) (self host : View) : Store :=
  set_positions St
    (write_view (xs St) self
       (displaced_array (view_read (xs St) self) (view_read (xs St) host)))
    (write_view (ys St) self
       (displaced_array (view_read (ys St) self) (view_read (ys St) host)))
    (write_view (zs St) self
       (displaced_array (view_read (zs St) self) (view_read (zs St) host))).


(** A raw coordinate lies in the box; a wrapped difference within half a box
    of zero. *)
Definition in_box (c : R) : Prop := (0 <= c < L)%R.
Definition in_half_box (c : R) : Prop := (- L / 2 <= c <= L / 2)%R.

(** The positions of a buffer that the views of a halo cover. *)
Definition covers (St : Store) (h : Halo) (x : nat) : Prop :=
  v_start (h_view h) ≤ x < v_start (h_view h) + length (halo_xs St h).

(** The lengths that [displace] gives the arrays [perihelion] reads. *)
Definition displaced_consistent (hself : Halo) (d : Displaced) : Prop :=
  length (phis d) = length (ds d) ∧ length (ths d) = length (ds d)
  ∧ length (ts hself) = length (ds d).

(** The values that one histogram of a host bins:
    [(ds / radius * scale)[mask]]. *)
Definition binned (ds_ : list R) (mask : list bool) (radius scale : R)
  : result (list R) :=
  select (np_scale (np_div_scalar ds_ radius) scale) mask.

(** Edge [i] of the 25 equal bins of the range (0.1, 2), and the volume of
    the shell between two radii. *)
Definition bin_edge (i : nat) : R := (0.1 + INR i * ((2 - 0.1) / 25))%R.

Definition shell_volume (r_in r_out : R) : R :=
  (4 * PI / 3 * (r_out ^ 3 - r_in ^ 3))%R.

(** [p] is the number-density profile of the values [a] for a host with [n]
    masked subhalos: in each of the 25 bins, the count of the histogram over
    the volume of the bin's shell over [n]. *)
Definition density_profile (a : list R) (n : nat) (p : list R) : Prop :=
  length p = 25
  ∧ ∀ i, i < 25 →
      ∃ c, (histogram a 25 0.1 2).1 !! i = Some c
           ∧ (histogram a 25 0.1 2).2 !! i = Some (bin_edge i)
           ∧ (histogram a 25 0.1 2).2 !! S i = Some (bin_edge (S i))
           ∧ p !! i
             = Some (INR c / shell_volume (bin_edge i) (bin_edge (S i))
                     / INR n)%R.

(** After [rounds] rounds of the loop over hosts there is one count per
    round, and the bin edges are set exactly when some count has exceeded
    the threshold. *)
Definition edges_inv (rounds : nat) (A : Stacks) : Prop :=
  length (sub_counts A) = rounds
  ∧ match edges A with
    | None => Forall (λ n, n ≤ 40) (sub_counts A)
    | Some e => e = linspace 0.1 2 26 ∧ Exists (λ n, 40 < n) (sub_counts A)
    end.

(** The mass of a host over the mass of a sphere of unit radius at 200 times
    the critical density. *)
Definition overdensity_ratio (rho_c0 m200c_ : R) : R :=
  (m200c_ / (200 * rho_c0 * 1e9 * (4 * PI / 3)))%R.

(** Each of the four stacks holds one profile per count above the
    threshold. *)
Definition stacks_inv (A : Stacks) : Prop :=
  let q := length (filter (λ n, 40 < n) (sub_counts A)) in
  length (b_r_sp A) = q ∧ length (b_r_max A) = q
  ∧ length (b_r200m A) = q ∧ length (b_r200c A) = q.

(** Two slices of the tree that do not overlap. *)
Definition views_apart (v w : View) : Prop :=
  v_stop v ≤ v_start w ∨ v_stop w ≤ v_start v.

(** What every halo of the store satisfies once the tree is cut: its
    slice is well formed, it has one age per snapshot, it is not among its
    own subhalos, its subhalos are objects of [hs], and its slice overlaps
    the slice of no halo under another key. *)
Definition halo_ok (St : Store) (k : Z) (h : Halo) : Prop :=
  v_start (h_view h) ≤ v_stop (h_view h)
  ∧ length (ts h) = length (halo_scales St h)
  ∧ (k ∉ subs h)
  ∧ (∀ s, s ∈ subs h → is_Some (hs St !! s))
  ∧ ∀ k' h', k ≠ k' → hs St !! k' = Some h' →
             views_apart (h_view h) (h_view h').

Definition store_ok (St : Store) : Prop :=
  wf_columns St ∧ ∀ k h, hs St !! k = Some h → halo_ok St k h.

(** The state of the loop that cuts the tree of the store [St0], before
    round [i]. *)
Definition cut_inv (St0 : Store) (i : nat) (st : nat * Store) : Prop :=
  let '(start, St) := st in
  start ≤ i
  ∧ scales St = scales St0 ∧ xs St = xs St0 ∧ ys St = ys St0
  ∧ zs St = zs St0 ∧ rs St = rs St0 ∧ ms St = ms St0
  ∧ ∀ k h, hs St !! k = Some h →
      v_stop (h_view h) ≤ start ∧ subs h = [] ∧ halo_ok St k h.

(** The speed that [displace] stores, and the arrays it derives from arrays
    of one length. *)
Definition speed (vx vy z : R) : R := sqrt (vx ^ 2 + vy ^ 2 + z ^ 2).

Definition velocity_of (vd : list R → list R → list R) (t sc a : list R)
  : list R :=
  np_scale (zip_with Rmult (vd t a) sc) 31.54.

Definition derived_arrays (vd : list R → list R → list R)
    (t sc sx sy sz : list R) (hv : View) : Displaced :=
  let ds_ := np_sqrt (zip_with Rplus
                        (zip_with Rplus (np_square sx) (np_square sy))
                        (np_square sz)) in
  let vxs_ := velocity_of vd t sc sx in
  let vys_ := velocity_of vd t sc sy in
  {| ds := ds_;
     phis := np_arccos (zip_with Rdiv sz ds_);
     ths := zip_with arctan2 sy sx;
     host_rs := hv;
     vxs := vxs_; vys := vys_; vzs := velocity_of vd t sc sz;
     vs := np_sqrt (zip_with Rplus
                      (zip_with Rplus (np_square vxs_) (np_square vys_))
                      (np_square sz));
     vrs := np_abs (velocity_of vd t sc ds_) |}.

(** ** Vocabulary of the statements about the tables *)

(** The slice [v] is a run of rows of the tree between two sentinel rows,
    or between a sentinel row and an end of the table. *)
Definition segment (tree_ids : list Z) (v : View) : Prop :=
  v_start v ≤ v_stop v ≤ length tree_ids
  ∧ (v_start v = 0 ∨ tree_ids !! (v_start v - 1) = Some (-1)%Z)
  ∧ (v_stop v = length tree_ids ∨ tree_ids !! v_stop v = Some (-1)%Z)
  ∧ ∀ j, v_start v ≤ j < v_stop v → tree_ids !! j ≠ Some (-1)%Z.

(** The object that the cutting loop keeps under the key [k]: its slice is
    a segment of the tree, its id is what [tree_ids[end - 1]] reads, and it
    has no subhalo and no attribute of a host or of a displaced subhalo. *)
Definition fresh_halo (age : R → R) (tree_ids : list Z) (St0 : Store)
    (k : Z) (h : Halo) : Prop :=
  h_id h = k
  ∧ segment tree_ids (h_view h)
  ∧ getitem tree_ids (Z.of_nat (v_stop (h_view h)) - 1) = Ok k
  ∧ ts h = (λ a, age (1 / a - 1)%R) <$> halo_scales St0 h
  ∧ subs h = [] ∧ displaced h = None ∧ host_info h = None.

(** The columns of the tree are those of the store [St0]. *)
Definition same_columns (St St0 : Store) : Prop :=
  scales St = scales St0 ∧ xs St = xs St0 ∧ ys St = ys St0
  ∧ zs St = zs St0 ∧ rs St = rs St0 ∧ ms St = ms St0.

(** The state of the cutting loop, started in the store [St0], before round
    [i]: the rows from [start] on hold no sentinel, and every object is one
    the loop has made or one of [St0]. *)
Definition cut_segments (age : R → R) (tree_ids : list Z) (St0 : Store)
    (i : nat) (st : nat * Store) : Prop :=
  let '(start, St) := st in
  start ≤ i ∧ same_columns St St0
  ∧ (start = 0 ∨ tree_ids !! (start - 1) = Some (-1)%Z)
  ∧ (∀ j, start ≤ j < i → tree_ids !! j ≠ Some (-1)%Z)
  ∧ ∀ k h, hs St !! k = Some h →
      fresh_halo age tree_ids St0 k h ∨ hs St0 !! k = Some h.

(** No run of rows between two sentinels is empty: the tree neither starts
    nor ends with a sentinel row, and no two sentinel rows are adjacent. *)
Definition no_empty_run (tree_ids : list Z) : Prop :=
  ∀ v, segment tree_ids v → v_start v < v_stop v.

(** The hosts that the membership table lists, and the subhalos it gives the
    halo [k], in the order of its rows. *)
Definition host_rows (rows : list (Z * Z)) : list Z :=
  fst <$> filter (λ row, row.1 = row.2) rows.

Definition subs_of (rows : list (Z * Z)) (k : Z) : list Z :=
  fst <$> filter (λ row, row.1 ≠ row.2 ∧ row.2 = k) rows.

(** The attributes of a host whose row of the radius table is [r]. *)
Definition info_of (rho_c0 : R) (r : RadRow) : HostInfo :=
  {| m_sp := rad_m_sp r; r_sp := rad_r_sp r; r_min := rad_r_min r;
     r_max := rad_r_max r; r200m := rad_r200m r; gamma := rad_gamma r;
     m200c := rad_m200c r; r200c := r200c_of rho_c0 (rad_m200c r);
     m_id := None |}.

(** The halo [h] under the key [k] once the rows of the membership table are
    read. *)
Definition member (rho_c0 : R) (rad_info : gmap Z RadRow)
    (rows : list (Z * Z)) (k : Z) (h : Halo) : Halo :=
  {| h_id := h_id h; h_view := h_view h; ts := ts h;
     subs := subs h ++ subs_of rows k; displaced := displaced h;
     host_info := if decide (k ∈ host_rows rows)
                  then info_of rho_c0 <$> rad_info !! k
                  else host_info h |}.

(** The keys that a row of the membership table looks up exist. *)
Definition row_known (St : Store) (rad_info : gmap Z RadRow) (row : Z * Z)
  : Prop :=
  is_Some (hs St !! row.1) ∧ is_Some (hs St !! row.2)
  ∧ (row.1 = row.2 → is_Some (rad_info !! row.1)).

(** ** Vocabulary of the statements about the loop over hosts *)

(** Every object has at least one snapshot. *)
Definition histories_nonempty (St : Store) : Prop :=
  ∀ k h, hs St !! k = Some h → halo_xs St h ≠ [].

(** Every listed host is an object that holds the attributes of a host. *)
Definition hosts_ready (St : Store) (hosts : list Z) : Prop :=
  ∀ k, k ∈ hosts → ∃ h, hs St !! k = Some h ∧ is_Some (host_info h).

(** The object [sub] is displaced against the host whose slice is [hv]: it
    aliases the radii of that host, and the arrays that [perihelion] reads
    have the length of its history. *)
Definition displaced_against (St : Store) (hv : View) (sub : Z) : Prop :=
  ∃ hsub d, hs St !! sub = Some hsub ∧ displaced hsub = Some d
            ∧ host_rs d = hv ∧ displaced_consistent hsub d
            ∧ length (ds d) = length (halo_xs St hsub).

(** Two states of one object that differ at most in the attributes of a
    displaced subhalo, and two stores with the same objects in this sense
    and columns of the same length. *)
Definition same_shape (h h' : Halo) : Prop :=
  h_id h' = h_id h ∧ h_view h' = h_view h ∧ ts h' = ts h
  ∧ subs h' = subs h ∧ host_info h' = host_info h.

Definition same_objects (St St' : Store) : Prop :=
  ∀ k, option_Forall2 same_shape (hs St !! k) (hs St' !! k).

Definition evolves (St St' : Store) : Prop :=
  length (xs St') = length (xs St) ∧ same_objects St St'.

(** The store [St'] differs from [St] at most in the positions [xs], [ys]
    and [zs] and in the attributes of displaced subhalos. *)
Definition only_positions (St St' : Store) : Prop :=
  scales St' = scales St ∧ rs St' = rs St ∧ ms St' = ms St
  ∧ same_objects St St'.

(** What the rounds of the loop over hosts keep. *)
Definition hosts_inv (hosts : list Z) (St : Store) : Prop :=
  store_ok St ∧ histories_nonempty St ∧ hosts_ready St hosts.

(** The sum of an array of reals, and the integral of a profile over the 25
    shells of the range (0.1, 2): each value times the volume of its
    shell. *)
Definition sum_R (l : list R) : R := foldr Rplus 0%R l.

Definition shell_integral (p : list R) : R :=
  sum_R (imap (λ i y, y * shell_volume (bin_edge i) (bin_edge (S i)))%R p).

(** The object [sub] is displaced and aliases the radii of the host whose
    slice is [hv]. *)
Definition reads_radii_of (St : Store) (hv : View) (sub : Z) : Prop :=
  ∃ hsub d, hs St !! sub = Some hsub ∧ displaced hsub = Some d
            ∧ host_rs d = hv.

(** ** A small catalogue

    One host (id 1, three snapshots) and one subhalo (id 2, two snapshots),
    separated in the tree by a sentinel row. *)

Module Sample.
Local Open Scope R_scope.

Definition ids : list Z := [1; 1; 1; -1; 2; 2]%Z.

Definition age (z : R) : R := 14 / (1 + z).
Definition rho_c0 : R := 277.5.

(** The rows of the tree: the host, a sentinel, the subhalo. *)
Definition tree : list TreeRow :=
  [mkTreeRow 1 98 0.5 1 4 5 0.5 100;
   mkTreeRow 1 99 0.8 2 4 5 0.8 200;
   mkTreeRow 1 100 1 3 4 5 1 300;
   mkTreeRow (-1) (-1) (-1) (-1) (-1) (-1) (-1) (-1);
   mkTreeRow 2 99 0.8 10 4 6 0.1 1;
   mkTreeRow 2 100 1 20 4 6 0.1 1].

Definition table : Store :=
  {| scales := [0.5; 0.8; 1; -1; 0.8; 1];
     xs := [1; 2; 3; -1; 10; 20];
     ys := [4; 4; 4; -1; 4; 4];
     zs := [5; 5; 5; -1; 6; 6];
     rs := [0.5; 0.8; 1; -1; 0.1; 0.1];
     ms := [100; 200; 300; -1; 1; 1];
     hs := ∅ |}.

Definition host : Halo :=
  {| h_id := 1; h_view := mkView 0 3;
     ts := (λ a, age (1 / a - 1)) <$> [0.5; 0.8; 1];
     subs := []; displaced := None; host_info := None |}.

Definition sub : Halo :=
  {| h_id := 2; h_view := mkView 4 6;
     ts := (λ a, age (1 / a - 1)) <$> [0.8; 1];
     subs := []; displaced := None; host_info := None |}.

Definition halos : Store := set_halo (set_halo table 1 host) 2 sub.

Definition rad : list (Z * RadRow) :=
  [(1%Z, {| rad_m_sp := 400; rad_r_sp := 1.2; rad_r_min := 1.1;
            rad_r_max := 1.3; rad_r200m := 1; rad_m200c := 1e15;
            rad_gamma := 2 |})].

Definition info : HostInfo :=
  {| m_sp := 400; r_sp := 1.2; r_min := 1.1; r_max := 1.3; r200m := 1;
     gamma := 2; m200c := 1e15; r200c := r200c_of rho_c0 1e15;
     m_id := None |}.

Definition host' : Halo := add_sub (set_host_info host info) 2.

(** The store when the loop over hosts starts. *)
Definition store : Store :=
  set_halo (set_halo halos 1 (set_host_info host info)) 1 host'.

Definition t0 : R := age (1 / 0.8 - 1).
Definition t1 : R := age (1 / 1 - 1).

(** The two distances of the displaced subhalo. *)
Definition d0 : R := sqrt (9 ^ 2 + 0 ^ 2 + 1 ^ 2).
Definition d1 : R := sqrt (17 ^ 2 + 0 ^ 2 + 1 ^ 2).

(** What [displace] sets on the subhalo. *)
Definition d : Displaced :=
  let d0 := sqrt (9 ^ 2 + 0 ^ 2 + 1 ^ 2) in
  let d1 := sqrt (17 ^ 2 + 0 ^ 2 + 1 ^ 2) in
  let dt := t1 - t0 in
  let vx0 := (17 - 9) / dt * 0.8 * 31.54 in
  let vx1 := (17 - 9) / dt * 1 * 31.54 in
  let vy0 := (0 - 0) / dt * 0.8 * 31.54 in
  let vy1 := (0 - 0) / dt * 1 * 31.54 in
  let vz0 := (1 - 1) / dt * 0.8 * 31.54 in
  let vz1 := (1 - 1) / dt * 1 * 31.54 in
  {| ds := [d0; d1];
     phis := [acos (1 / d0); acos (1 / d1)];
     ths := [arctan2 0 9; arctan2 0 17];
     host_rs := mkView 0 3;
     vxs := [vx0; vx1]; vys := [vy0; vy1]; vzs := [vz0; vz1];
     vs := [sqrt (vx0 ^ 2 + vy0 ^ 2 + 1 ^ 2);
            sqrt (vx1 ^ 2 + vy1 ^ 2 + 1 ^ 2)];
     vrs := [Rabs ((d1 - d0) / dt * 0.8 * 31.54);
             Rabs ((d1 - d0) / dt * 1 * 31.54)] |}.

(** The store after the subhalo is displaced against the host. *)
Definition displaced_store : Store :=
  set_halo
    (set_positions store
       [1; 2; 3; -1; 9; 17] [4; 4; 4; -1; 0; 0] [5; 5; 5; -1; 1; 1])
    2 (set_displaced sub d).

(** The accumulators after the round of the one host. *)
Definition counted : Stacks :=
  {| b_r_sp := []; b_r_max := []; b_r200m := []; b_r200c := [];
     edges := None; sub_counts := [0%nat] |}.
End Sample.

(** ** A second catalogue

    Two halos with histories of one length: a host (id 1) and a subhalo
    (id 2) of two snapshots each, separated by a sentinel row. *)

Module SamplePair.
Local Open Scope R_scope.

Definition host : Halo :=
  {| h_id := 1; h_view := mkView 0 2;
     ts := (λ a, Sample.age (1 / a - 1)) <$> [0.8; 1];
     subs := [2%Z]; displaced := None; host_info := None |}.

Definition sub : Halo :=
  {| h_id := 2; h_view := mkView 3 5;
     ts := (λ a, Sample.age (1 / a - 1)) <$> [0.8; 1];
     subs := []; displaced := None; host_info := None |}.

Definition store : Store :=
  {| scales := [0.8; 1; -1; 0.8; 1];
     xs := [1; 2; -1; 10; 20];
     ys := [4; 4; -1; 4; 4];
     zs := [5; 5; -1; 6; 6];
     rs := [0.8; 1; -1; 0.1; 0.1];
     ms := [200; 300; -1; 1; 1];
     hs := <[2%Z := sub]> (<[1%Z := host]> ∅) |}.
End SamplePair.

(** * Properties *)

(** ** The monad and the loops *)

Lemma bind_Ok {A B} (m : result A) (f : A → result B) b :
  m ≫= f = Ok b ↔ ∃ a, m = Ok a ∧ f a = Ok b.
Proof.
  destruct m as [a|e]; simpl; split.
  - intros H. by exists a.
  - by intros (a' & [= ->] & H).
  - done.
  - by intros (a' & [=] & _).
Qed.

Lemma of_option_Ok {A} e (o : option A) a : of_option e o = Ok a ↔ o = Some a.
Proof. destruct o; simpl; split; congruence. Qed.

Lemma for_each_app {I T} (body : I → T → result T) l1 l2 s :
  for_each body (l1 ++ l2) s = s' ← for_each body l1 s; for_each body l2 s'.
Proof.
  revert s. induction l1 as [|i l1 IH]; intros s; simpl; [done|].
  destruct (body i s) as [s1|e]; simpl; [apply IH|done].
Qed.

(** Inversion of a successful chain of binds. *)
Ltac inv_bind H :=
  repeat match type of H with
         | _ ≫= _ = Ok _ =>
             let a := fresh "a" in
             let Ha := fresh "Ha" in
             apply bind_Ok in H as (a & Ha & H)
         end.

(** ** Indices, slices and views *)

Lemma norm_index_neg n i :
  i < n →
  norm_index n (- Z.of_nat i) = Ok (loop_index n i).
Proof.
  intros Hi. unfold norm_index, loop_index.
  destruct (decide (i = 0)) as [->|Hne].
  - rewrite decide_True by lia. done.
  - rewrite decide_False by lia. rewrite decide_True by lia. f_equal. lia.
Qed.

Lemma loop_index_lt n i : i < n → loop_index n i < n.
Proof. unfold loop_index. case_decide; lia. Qed.

Lemma length_slice {A} (a : list A) s e :
  length (slice a s e) = Nat.min (e - s) (length a - s).
Proof. unfold slice. by rewrite length_take, length_drop. Qed.

Lemma lookup_slice {A} (a : list A) s e j :
  j < e - s → slice a s e !! j = a !! (s + j).
Proof. intros Hj. unfold slice. by rewrite lookup_take_lt, lookup_drop. Qed.

Lemma length_view_read {A} (buf : list A) v :
  length (view_read buf v)
  = Nat.min (v_stop v - v_start v) (length buf - v_start v).
Proof. apply length_slice. Qed.

Lemma lookup_view_read {A} (buf : list A) v j :
  j < length (view_read buf v) → view_read buf v !! j = buf !! (v_start v + j).
Proof. rewrite length_view_read. intros Hj. apply lookup_slice. lia. Qed.

Lemma length_view_read_same {A B} (buf : list A) (buf' : list B) v :
  length buf' = length buf →
  length (view_read buf' v) = length (view_read buf v).
Proof. intros H. by rewrite !length_view_read, H. Qed.

Lemma length_view_read_insert {A} (buf : list A) v p x :
  length (view_read (<[p:=x]> buf) v) = length (view_read buf v).
Proof. apply length_view_read_same, length_insert. Qed.

Lemma view_getitem_neg {A} (buf : list A) v i a :
  i < length (view_read buf v) →
  buf !! (v_start v + loop_index (length (view_read buf v)) i) = Some a →
  view_getitem buf v (- Z.of_nat i) = Ok a.
Proof.
  intros Hi Ha. unfold view_getitem, getitem.
  rewrite norm_index_neg by done. simpl.
  rewrite lookup_view_read, Ha; [done|]. by apply loop_index_lt.
Qed.

Lemma view_setitem_neg {A} (buf : list A) v i x :
  i < length (view_read buf v) →
  view_setitem buf v (- Z.of_nat i) x
  = Ok (<[v_start v + loop_index (length (view_read buf v)) i := x]> buf).
Proof.
  intros Hi. unfold view_setitem. by rewrite norm_index_neg.
Qed.

Lemma disjoint_views_same_length {A B} (b1 : list A) (b2 : list B) v w :
  length b2 = length b1 → disjoint_views b1 v w → disjoint_views b2 v w.
Proof.
  unfold disjoint_views. intros H.
  by rewrite !(length_view_read_same b1 b2) by done.
Qed.

Lemma disjoint_views_sym {A} (buf : list A) v w :
  disjoint_views buf v w → disjoint_views buf w v.
Proof. unfold disjoint_views. tauto. Qed.

(** ** The loop of [displace] *)

Lemma wrap_small d : (- L / 2 <= d <= L / 2)%R → wrap d = d.
Proof. intros [Hlo Hhi]. unfold wrap. simpl. repeat case_decide; lra. Qed.

Lemma wrap_bounds d : (- L < d < L)%R → (- L / 2 <= wrap d <= L / 2)%R.
Proof.
  intros [Hlo Hhi]. unfold wrap. simpl. unfold L in *.
  repeat case_decide; lra.
Qed.

(** One round on one buffer writes the wrapped difference at the position
    of the index [-i]. *)
Lemma displace_coord_spec buf self host i a b :
  i < length (view_read buf self) →
  i < length (view_read buf host) →
  buf !! (v_start self + loop_index (length (view_read buf self)) i) = Some a →
  buf !! (v_start host + loop_index (length (view_read buf host)) i) = Some b →
  displace_coord buf self host (- Z.of_nat i)
  = Ok (<[v_start self + loop_index (length (view_read buf self)) i
          := wrap (a - b)]> buf).
Proof.
  intros Hi Hj Ha Hb. unfold displace_coord.
  assert (Hp : v_start self + loop_index (length (view_read buf self)) i
               < length buf) by (by eapply lookup_lt_Some).
  assert (Hread : ∀ x y,
    view_getitem
      (<[v_start self + loop_index (length (view_read buf self)) i := x]> buf)
      self (- Z.of_nat i) = Ok x
    ∧ view_setitem
      (<[v_start self + loop_index (length (view_read buf self)) i := x]> buf)
      self (- Z.of_nat i) y
      = Ok (<[v_start self + loop_index (length (view_read buf self)) i := y]>
              buf)).
  { intros x y. split.
    - apply view_getitem_neg; rewrite length_view_read_insert; [done|].
      by apply list_lookup_insert_eq.
    - rewrite view_setitem_neg by (by rewrite length_view_read_insert).
      by rewrite length_view_read_insert, list_insert_insert_eq. }
  rewrite (view_getitem_neg buf self i a Hi Ha). simpl.
  rewrite (view_getitem_neg buf host i b Hj Hb). simpl.
  rewrite (view_setitem_neg buf self i _ Hi). simpl.
  rewrite (proj1 (Hread _ 0%R)). simpl. unfold wrap. simpl.
  destruct (decide (a - b > L / 2)%R) as [Hhi|Hhi]; simpl.
  - rewrite (proj2 (Hread _ _)). simpl.
    rewrite (proj1 (Hread _ 0%R)). simpl.
    case_decide; [apply Hread|done].
  - rewrite (proj1 (Hread _ 0%R)). simpl.
    case_decide; [apply Hread|done].
Qed.

(** The loop never raises on disjoint views, keeps the length of the buffer,
    and each position holds what [loop_value] says: every round reads values
    that no earlier round has written. *)
Lemma displace_loop_spec buf self host k :
  disjoint_views buf self host →
  k ≤ Nat.min (length (view_read buf self)) (length (view_read buf host)) →
  ∃ buf', displace_loop buf self host k = Ok buf'
          ∧ length buf' = length buf
          ∧ ∀ x, buf' !! x = loop_value buf self host k x.
Proof.
  intros Hdis. induction k as [|k IH]; intros Hk.
  - exists buf. split; [done|]. split; [done|]. intros x.
    unfold loop_value, touched. rewrite decide_False by lia. done.
  - destruct IH as (bk & Hloop & Hlen & Hval); [lia|].
    unfold displace_loop in *. rewrite seq_S, for_each_app, Hloop. simpl.
    set (n := length (view_read buf self)) in *.
    set (nh := length (view_read buf host)) in *.
    assert (Hn : length (view_read bk self) = n)
      by (by apply length_view_read_same).
    assert (Hnh : length (view_read bk host) = nh)
      by (by apply length_view_read_same).
    pose proof (length_view_read buf self) as Hns. fold n in Hns.
    pose proof (length_view_read buf host) as Hnhs. fold nh in Hnhs.
    assert (Hli : loop_index n k < n) by (apply loop_index_lt; lia).
    assert (Hlj : loop_index nh k < nh) by (apply loop_index_lt; lia).
    destruct (lookup_lt_is_Some_2 buf (v_start self + loop_index n k))
      as [a Ha]; [lia|].
    destruct (lookup_lt_is_Some_2 buf (v_start host + loop_index nh k))
      as [b Hb]; [lia|].
    assert (Hak : bk !! (v_start self + loop_index n k) = Some a).
    { rewrite Hval. unfold loop_value. fold n nh.
      rewrite decide_False; [done|].
      unfold touched, loop_index. case_decide; lia. }
    assert (Hbk : bk !! (v_start host + loop_index nh k) = Some b).
    { rewrite Hval. unfold loop_value. fold n nh.
      rewrite decide_False; [done|].
      unfold disjoint_views in Hdis. fold n nh in Hdis. lia. }
    rewrite (displace_coord_spec bk self host k a b);
      rewrite ?Hn, ?Hnh; [|lia|lia|done|done].
    eexists. split; [done|]. split; [by rewrite length_insert|].
    intros x.
    destruct (decide (x = v_start self + loop_index n k)) as [->|Hx].
    + rewrite list_lookup_insert_eq by lia.
      unfold loop_value. fold n nh.
      rewrite decide_True.
      2:{ split; [lia|]. unfold touched, loop_index. case_decide; lia. }
      rewrite Ha. simpl. do 3 f_equal.
      replace (v_start self + loop_index n k - v_start self)
        with (loop_index n k) by lia.
      replace (partner n nh (loop_index n k)) with (loop_index nh k).
      * by rewrite Hb.
      * unfold partner, loop_index. repeat case_decide; lia.
    + rewrite list_lookup_insert_ne by done. rewrite Hval.
      unfold loop_value. fold n nh.
      destruct (decide (v_start self ≤ x < v_start self + n
                        ∧ touched n k (x - v_start self))) as [[? Ht]|Hnt].
      * rewrite decide_True; [done|]. split; [done|].
        unfold touched in *. lia.
      * rewrite decide_False; [done|]. intros [? Ht]. apply Hnt.
        split; [done|]. unfold touched, loop_index in *.
        case_decide; lia.
Qed.

Lemma length_displaced_prefix k s h : length (displaced_prefix k s h) = length s.
Proof. unfold displaced_prefix. by rewrite length_imap. Qed.

Lemma length_displaced_array s h : length (displaced_array s h) = length s.
Proof. apply length_displaced_prefix. Qed.

Lemma lookup_write_view buf v new x :
  length new = length (view_read buf v) →
  write_view buf v new !! x =
    if decide (v_start v ≤ x < v_start v + length new)
    then new !! (x - v_start v) else buf !! x.
Proof.
  intros Hlen. unfold write_view.
  pose proof (length_view_read buf v) as Hn. rewrite <-Hlen in Hn.
  destruct (decide (length buf ≤ v_start v)) as [Hout|Hin].
  - assert (length new = 0) as Hz by lia.
    destruct new; [|done]. simpl.
    rewrite decide_False by lia.
    rewrite take_ge by lia. rewrite drop_ge by lia. by rewrite app_nil_r.
  - assert (Htk : length (take (v_start v) buf) = v_start v)
      by (rewrite length_take; lia).
    case_decide as Hx.
    + rewrite lookup_app_r by lia. rewrite Htk.
      rewrite lookup_app_l by lia. done.
    + destruct (decide (x < v_start v)).
      * rewrite lookup_app_l by lia. by rewrite lookup_take_lt.
      * rewrite lookup_app_r by lia. rewrite Htk.
        rewrite lookup_app_r by lia. rewrite lookup_drop. f_equal. lia.
Qed.

Lemma length_write_view buf v new :
  length new = length (view_read buf v) →
  length (write_view buf v new) = length buf.
Proof.
  intros Hlen. unfold write_view.
  pose proof (length_view_read buf v) as Hn. rewrite <-Hlen in Hn.
  rewrite !length_app, length_take, length_drop. lia.
Qed.

Lemma view_read_write_view buf v new :
  length new = length (view_read buf v) →
  view_read (write_view buf v new) v = new.
Proof.
  intros Hlen. apply list_eq. intros j.
  assert (Hl : length (view_read (write_view buf v new) v) = length new).
  { rewrite Hlen. apply length_view_read_same. by apply length_write_view. }
  destruct (decide (j < length new)) as [Hj|Hj].
  - rewrite lookup_view_read by lia.
    rewrite lookup_write_view by done.
    rewrite decide_True by lia. f_equal. lia.
  - rewrite !lookup_ge_None_2; [done|lia|lia].
Qed.

Lemma view_read_write_view_disjoint buf v w new :
  length new = length (view_read buf v) →
  disjoint_views buf v w →
  view_read (write_view buf v new) w = view_read buf w.
Proof.
  intros Hlen Hdis. apply list_eq. intros j.
  assert (Hl : length (view_read (write_view buf v new) w)
               = length (view_read buf w)).
  { apply length_view_read_same. by apply length_write_view. }
  destruct (decide (j < length (view_read buf w))) as [Hj|Hj].
  - rewrite !lookup_view_read by lia.
    rewrite lookup_write_view by done.
    rewrite decide_False; [done|].
    unfold disjoint_views in Hdis. lia.
  - rewrite !lookup_ge_None_2; [done|lia|lia].
Qed.

(** The whole loop on one buffer, in closed form. *)
Lemma displace_loop_closed buf self host :
  disjoint_views buf self host →
  displace_loop buf self host
    (Nat.min (length (view_read buf self)) (length (view_read buf host)))
  = Ok (write_view buf self
          (displaced_array (view_read buf self) (view_read buf host))).
Proof.
  intros Hdis.
  destruct (displace_loop_spec buf self host _ Hdis (Nat.le_refl _))
    as (buf' & -> & Hlen & Hval).
  f_equal. apply list_eq. intros x. rewrite Hval.
  rewrite lookup_write_view by apply length_displaced_array.
  rewrite length_displaced_array. unfold loop_value.
  set (n := length (view_read buf self)).
  set (nh := length (view_read buf host)).
  destruct (decide (v_start self ≤ x < v_start self + n)) as [Hx|Hx].
  - unfold displaced_array, displaced_prefix. rewrite list_lookup_imap.
    rewrite (lookup_view_read buf self) by (fold n; lia).
    replace (v_start self + (x - v_start self)) with x by lia.
    fold n nh.
    destruct (lookup_lt_is_Some_2 buf x) as [a Ha].
    { pose proof (length_view_read buf self) as Hn. unfold n in Hx. lia. }
    rewrite Ha. simpl.
    destruct (decide (touched n (Nat.min n nh) (x - v_start self))) as [Ht|Ht].
    + rewrite decide_True by done. do 3 f_equal.
      rewrite lookup_view_read; [done|]. fold nh.
      unfold touched, partner in *. case_decide; lia.
    + rewrite decide_False by tauto. done.
  - rewrite decide_False by tauto. done.
Qed.

Lemma for_each_displace_body self host idx bx by_ bz bx' by' bz' :
  for_each (λ i b, displace_coord b self host (- Z.of_nat i)) idx bx = Ok bx' →
  for_each (λ i b, displace_coord b self host (- Z.of_nat i)) idx by_ = Ok by' →
  for_each (λ i b, displace_coord b self host (- Z.of_nat i)) idx bz = Ok bz' →
  for_each (displace_body self host) idx (bx, by_, bz) = Ok (bx', by', bz').
Proof.
  revert bx by_ bz.
  induction idx as [|i idx IH]; intros bx by_ bz; simpl.
  - by intros [= ->] [= ->] [= ->].
  - intros (x1 & Hx & Hxs)%bind_Ok (y1 & Hy & Hys)%bind_Ok
      (z1 & Hz & Hzs)%bind_Ok.
    rewrite Hx. simpl. rewrite Hy. simpl. rewrite Hz. simpl. by apply IH.
Qed.

(** The loop of [displace] on the three buffers of a well-formed store. *)
Lemma displace_positions_spec St self host :
  wf_columns St → disjoint_halos St self host →
  displace_positions St self host = Ok (positions_result St self host).
Proof.
  intros (Hy & Hz & _) Hdis. unfold displace_positions.
  pose proof (displace_loop_closed (xs St) self host Hdis) as Hx.
  pose proof (displace_loop_closed (ys St) self host
                (disjoint_views_same_length _ _ _ _ Hy Hdis)) as Hy'.
  pose proof (displace_loop_closed (zs St) self host
                (disjoint_views_same_length _ _ _ _ Hz Hdis)) as Hz'.
  rewrite !(length_view_read_same (xs St) (ys St)) in Hy' by done.
  rewrite !(length_view_read_same (xs St) (zs St)) in Hz' by done.
  unfold displace_loop in *.
  by rewrite (for_each_displace_body _ _ _ _ _ _ _ _ _ Hx Hy' Hz').
Qed.

(** ** [Halo.displace] *)

Lemma getitem_neg {A} (a : list A) i x :
  i < length a → a !! loop_index (length a) i = Some x →
  getitem a (- Z.of_nat i) = Ok x.
Proof.
  intros Hi Hx. unfold getitem. rewrite norm_index_neg by done. simpl.
  by rewrite Hx.
Qed.

Lemma getitem_elem_of {A} (a : list A) k x : getitem a k = Ok x → x ∈ a.
Proof.
  unfold getitem. intros (i & _ & H%of_option_Ok)%bind_Ok.
  by eapply list_elem_of_lookup_2.
Qed.

(** Round [i] of the loop leaves, at the index [-i], the wrapped difference
    of the two samples that the index [-i] denotes. *)
Lemma displaced_array_getitem s h i :
  i < Nat.min (length s) (length h) →
  ∃ a b, getitem s (- Z.of_nat i) = Ok a ∧ getitem h (- Z.of_nat i) = Ok b
         ∧ getitem (displaced_array s h) (- Z.of_nat i) = Ok (wrap (a - b)).
Proof.
  intros Hi.
  assert (Hls : loop_index (length s) i < length s)
    by (apply loop_index_lt; lia).
  assert (Hlh : loop_index (length h) i < length h)
    by (apply loop_index_lt; lia).
  destruct (lookup_lt_is_Some_2 s _ Hls) as [a Ha].
  destruct (lookup_lt_is_Some_2 h _ Hlh) as [b Hb].
  exists a, b. split; [apply getitem_neg; [lia|done]|].
  split; [apply getitem_neg; [lia|done]|].
  apply getitem_neg; rewrite length_displaced_array; [lia|].
  unfold displaced_array, displaced_prefix. rewrite list_lookup_imap, Ha.
  simpl. rewrite decide_True.
  - replace (partner (length s) (length h) (loop_index (length s) i))
      with (loop_index (length h) i).
    + by rewrite Hb.
    + unfold partner, loop_index. repeat case_decide; lia.
  - unfold touched, loop_index. case_decide; lia.
Qed.

Lemma wrap_difference_in_half_box a b :
  in_box a → in_box b → in_half_box (wrap (a - b)).
Proof. unfold in_box. intros Ha Hb. apply wrap_bounds. lra. Qed.

Lemma length_halo_views St h :
  wf_columns St →
  length (halo_ys St h) = length (halo_xs St h)
  ∧ length (halo_zs St h) = length (halo_xs St h)
  ∧ length (halo_scales St h) = length (halo_xs St h)
  ∧ length (halo_rs St h) = length (halo_xs St h)
  ∧ length (halo_ms St h) = length (halo_xs St h).
Proof.
  intros (? & ? & ? & ? & ?).
  unfold halo_xs, halo_ys, halo_zs, halo_scales, halo_rs, halo_ms.
  repeat split; by apply length_view_read_same.
Qed.

(** The subhalo's own views after the loop. *)
Lemma halo_positions_result St hself hhost :
  let St1 := positions_result St (h_view hself) (h_view hhost) in
  halo_xs St1 hself = displaced_array (halo_xs St hself) (halo_xs St hhost)
  ∧ halo_ys St1 hself = displaced_array (halo_ys St hself) (halo_ys St hhost)
  ∧ halo_zs St1 hself = displaced_array (halo_zs St hself) (halo_zs St hhost)
  ∧ halo_scales St1 hself = halo_scales St hself.
Proof.
  simpl. unfold halo_xs, halo_ys, halo_zs. simpl.
  rewrite !view_read_write_view by apply length_displaced_array. done.
Qed.

(** The views of a halo that shares no position with the subhalo. *)
Lemma halo_views_positions_result St self host h :
  wf_columns St → disjoint_halos St self (h_view h) →
  halo_scales (positions_result St self host) h = halo_scales St h
  ∧ halo_xs (positions_result St self host) h = halo_xs St h
  ∧ halo_ys (positions_result St self host) h = halo_ys St h
  ∧ halo_zs (positions_result St self host) h = halo_zs St h
  ∧ halo_rs (positions_result St self host) h = halo_rs St h
  ∧ halo_ms (positions_result St self host) h = halo_ms St h.
Proof.
  intros (Hy & Hz & _) Hdis.
  unfold halo_scales, halo_xs, halo_ys, halo_zs, halo_rs, halo_ms. simpl.
  repeat split.
  - apply view_read_write_view_disjoint; [apply length_displaced_array|done].
  - apply view_read_write_view_disjoint; [apply length_displaced_array|].
    by eapply disjoint_views_same_length.
  - apply view_read_write_view_disjoint; [apply length_displaced_array|].
    by eapply disjoint_views_same_length.
Qed.

(** A successful [displace] is its loop followed by the derived arrays. *)
Lemma displace_inv vd St self host hself hhost St' :
  hs St !! self = Some hself → hs St !! host = Some hhost →
  wf_columns St → disjoint_halos St (h_view hself) (h_view hhost) →
  displace vd St self host = Ok St' →
  ∃ d, displace_derived vd
         (positions_result St (h_view hself) (h_view hhost)) hself
         (h_view hhost) = Ok d
       ∧ St' = set_halo (positions_result St (h_view hself) (h_view hhost))
                 self (set_displaced hself d).
Proof.
  intros Hs Hh Hwf Hdis. unfold displace, deref. rewrite Hs, Hh. simpl.
  rewrite displace_positions_spec by done. simpl.
  intros (d & Hd & [= <-])%bind_Ok. by exists d.
Qed.

Lemma displace_derived_host_rs vd St hself hv d :
  displace_derived vd St hself hv = Ok d → host_rs d = hv.
Proof.
  unfold displace_derived. intros H. inv_bind H. by injection H as <-.
Qed.

(** *** The catalogue, evaluated *)

Module SampleFacts.
Import Sample.
Local Open Scope R_scope.

Lemma make_halos_eval : make_halos age ids table = Ok halos.
Proof. reflexivity. Qed.

Lemma membership_eval :
  membership rho_c0 (make_rad_info rad) [(1, 1); (2, 1)]%Z halos
  = Ok ([1%Z], store).
Proof. reflexivity. Qed.

Lemma table_wf : wf_columns table.
Proof. by repeat split. Qed.

Lemma store_wf : wf_columns store.
Proof. by repeat split. Qed.

Lemma views_disjoint : disjoint_halos store (h_view sub) (h_view host').
Proof. right. simpl. lia. Qed.

Lemma lookup_sub : hs store !! 2%Z = Some sub.
Proof. reflexivity. Qed.

Lemma lookup_host : hs store !! 1%Z = Some host'.
Proof. reflexivity. Qed.

Lemma positions_eval :
  positions_result store (mkView 4 6) (mkView 0 3)
  = set_positions store
      [1; 2; 3; -1; 9; 17] [4; 4; 4; -1; 0; 0] [5; 5; 5; -1; 1; 1].
Proof.
  transitivity
    (set_positions store
       [1; 2; 3; -1; wrap (10 - 1); wrap (20 - 3)]
       [4; 4; 4; -1; wrap (4 - 4); wrap (4 - 4)]
       [5; 5; 5; -1; wrap (6 - 5); wrap (6 - 5)]); [reflexivity|].
  rewrite !wrap_small by (unfold L; lra).
  replace (10 - 1) with 9 by lra. replace (20 - 3) with 17 by lra.
  replace (4 - 4) with 0 by lra. replace (6 - 5) with 1 by lra.
  reflexivity.
Qed.

Lemma displace_eval :
  displace vector_deriv_spec store 2 1 = Ok displaced_store.
Proof.
  unfold displace, deref. rewrite lookup_sub, lookup_host.
  cbn [of_option mbind result_bind].
  rewrite displace_positions_spec by (apply store_wf || apply views_disjoint).
  cbn [mbind result_bind].
  change (h_view sub) with (mkView 4 6).
  change (h_view host') with (mkView 0 3).
  rewrite positions_eval. reflexivity.
Qed.

Lemma raw_in_box :
  Forall in_box (halo_xs store sub ++ halo_ys store sub ++ halo_zs store sub)
  ∧ Forall in_box
      (halo_xs store host' ++ halo_ys store host' ++ halo_zs store host').
Proof. split; repeat constructor; unfold L; lra. Qed.

Lemma trailing_aligned_eval : trailing_aligned [10; 20] [1; 2; 3] = [8; 17].
Proof.
  transitivity [wrap (10 - 2); wrap (20 - 3)]; [reflexivity|].
  rewrite !wrap_small by (unfold L; lra).
  f_equal; [lra|f_equal; lra].
Qed.
End SampleFacts.

(** *** The pairing of the samples *)

(** X9: a successful [displace] leaves in the subhalo's three coordinate
    arrays what [displaced_array] computes from the arrays of the subhalo and
    of the host: position 0 holds the wrapped difference of the two first
    samples, the last [m - 1] positions the wrapped differences of the
    samples at the same distance from the end, and every other position its
    old value ([m] the length of the shorter history). *)
Theorem displace_rounds vd St self host hself hhost St' :
  hs St !! self = Some hself → hs St !! host = Some hhost →
  wf_columns St → disjoint_halos St (h_view hself) (h_view hhost) →
  displace vd St self host = Ok St' →
  halo_xs St' hself = displaced_array (halo_xs St hself) (halo_xs St hhost)
  ∧ halo_ys St' hself = displaced_array (halo_ys St hself) (halo_ys St hhost)
  ∧ halo_zs St' hself = displaced_array (halo_zs St hself) (halo_zs St hhost)
  ∧ ∀ s h j x, s !! j = Some x →
      displaced_array s h !! j
      = Some (if decide (0 < Nat.min (length s) (length h)
                         ∧ (j = 0
                            ∨ length s - Nat.min (length s) (length h) < j))
              then wrap (x - default 0%R
                               (h !! if decide (j = 0) then 0
                                     else length h - (length s - j)))
              else x).
Proof.
  intros Hs Hh Hwf Hdis Hrun.
  destruct (displace_inv _ _ _ _ _ _ _ Hs Hh Hwf Hdis Hrun) as (d & _ & ->).
  destruct (halo_positions_result St hself hhost) as (Hx & Hy & Hz & _).
  do 3 (split; [done|]).
  intros s h j x Hj. unfold displaced_array, displaced_prefix.
  by rewrite list_lookup_imap, Hj.
Qed.

Lemma displace_rounds_witness :
  halo_xs Sample.displaced_store Sample.sub
  = displaced_array (halo_xs Sample.store Sample.sub)
      (halo_xs Sample.store Sample.host')
  ∧ halo_ys Sample.displaced_store Sample.sub
    = displaced_array (halo_ys Sample.store Sample.sub)
        (halo_ys Sample.store Sample.host')
  ∧ halo_zs Sample.displaced_store Sample.sub
    = displaced_array (halo_zs Sample.store Sample.sub)
        (halo_zs Sample.store Sample.host')
  ∧ ∀ s h j x, s !! j = Some x →
      displaced_array s h !! j
      = Some (if decide (0 < Nat.min (length s) (length h)
                         ∧ (j = 0
                            ∨ length s - Nat.min (length s) (length h) < j))
              then wrap (x - default 0%R
                               (h !! if decide (j = 0) then 0
                                     else length h - (length s - j)))
              else x).
Proof.
  apply (displace_rounds vector_deriv_spec Sample.store 2 1 Sample.sub
           Sample.host' Sample.displaced_store).
  - apply SampleFacts.lookup_sub.
  - apply SampleFacts.lookup_host.
  - apply SampleFacts.store_wf.
  - apply SampleFacts.views_disjoint.
  - apply SampleFacts.displace_eval.
Defined.

(** C1, at a subhalo whose history is shorter than its host's. The subhalo
    has the positions [10; 20] and the host [1; 2; 3]: the loop of [displace]
    pairs the two first samples (round 0 writes the index [-0], the start of
    the array) and the two last ones, and leaves [9; 17]. The trailing
    alignment of the specification pairs 10 with 2 and 20 with 3, and gives
    [8; 17]. *)
Theorem displace_pairs_first_samples :
  halo_xs Sample.store Sample.sub = [10; 20]%R
  ∧ halo_xs Sample.store Sample.host' = [1; 2; 3]%R
  ∧ displace vector_deriv_spec Sample.store 2 1 = Ok Sample.displaced_store
  ∧ halo_xs Sample.displaced_store Sample.sub = [9; 17]%R
  ∧ trailing_aligned [10; 20]%R [1; 2; 3]%R = [8; 17]%R.
Proof.
  split; [reflexivity|]. split; [reflexivity|].
  split; [apply SampleFacts.displace_eval|]. split; [reflexivity|].
  apply SampleFacts.trailing_aligned_eval.
Qed.

(** *** The periodic wrap *)

(** C3: when the raw coordinates of the subhalo and of the host lie in
    [0, L), each round [i] of the loop of [displace] leaves at the index [-i]
    of [xs], [ys] and [zs] a value between [-L/2] and [L/2]. *)
Theorem displace_wrap_interval vd St self host hself hhost St' :
  hs St !! self = Some hself → hs St !! host = Some hhost →
  wf_columns St → disjoint_halos St (h_view hself) (h_view hhost) →
  Forall in_box (halo_xs St hself ++ halo_ys St hself ++ halo_zs St hself) →
  Forall in_box (halo_xs St hhost ++ halo_ys St hhost ++ halo_zs St hhost) →
  displace vd St self host = Ok St' →
  ∀ i, i < Nat.min (length (halo_xs St hself)) (length (halo_xs St hhost)) →
    ∃ x y z,
      getitem (halo_xs St' hself) (- Z.of_nat i) = Ok x
      ∧ getitem (halo_ys St' hself) (- Z.of_nat i) = Ok y
      ∧ getitem (halo_zs St' hself) (- Z.of_nat i) = Ok z
      ∧ in_half_box x ∧ in_half_box y ∧ in_half_box z.
Proof.
  intros Hs Hh Hwf Hdis Hsub Hhost Hrun i Hi.
  destruct (displace_inv _ _ _ _ _ _ _ Hs Hh Hwf Hdis Hrun) as (d & _ & ->).
  destruct (halo_positions_result St hself hhost) as (Hx & Hy & Hz & _).
  destruct (length_halo_views St hself Hwf) as (Hlys & Hlzs & _).
  destruct (length_halo_views St hhost Hwf) as (Hlyh & Hlzh & _).
  rewrite !Forall_app in Hsub, Hhost.
  destruct Hsub as (Bsx & Bsy & Bsz). destruct Hhost as (Bhx & Bhy & Bhz).
  rewrite Forall_forall in Bsx, Bsy, Bsz, Bhx, Bhy, Bhz.
  destruct (displaced_array_getitem (halo_xs St hself) (halo_xs St hhost) i)
    as (ax & bx & Hax & Hbx & Hwx); [done|].
  destruct (displaced_array_getitem (halo_ys St hself) (halo_ys St hhost) i)
    as (ay & by_ & Hay & Hby & Hwy); [lia|].
  destruct (displaced_array_getitem (halo_zs St hself) (halo_zs St hhost) i)
    as (az & bz & Haz & Hbz & Hwz); [lia|].
  exists (wrap (ax - bx)), (wrap (ay - by_)), (wrap (az - bz)).
  change (halo_xs (set_halo ?S _ _) ?h) with (halo_xs S h).
  change (halo_ys (set_halo ?S _ _) ?h) with (halo_ys S h).
  change (halo_zs (set_halo ?S _ _) ?h) with (halo_zs S h).
  rewrite Hx, Hy, Hz.
  split; [done|]. split; [done|]. split; [done|].
  split; [|split]; apply wrap_difference_in_half_box;
    eauto using getitem_elem_of.
Qed.

Lemma displace_wrap_interval_witness :
  ∃ x y z,
    getitem (halo_xs Sample.displaced_store Sample.sub) (- Z.of_nat 1) = Ok x
    ∧ getitem (halo_ys Sample.displaced_store Sample.sub) (- Z.of_nat 1) = Ok y
    ∧ getitem (halo_zs Sample.displaced_store Sample.sub) (- Z.of_nat 1) = Ok z
    ∧ in_half_box x ∧ in_half_box y ∧ in_half_box z.
Proof.
  apply (displace_wrap_interval vector_deriv_spec Sample.store 2 1 Sample.sub
           Sample.host' Sample.displaced_store SampleFacts.lookup_sub
           SampleFacts.lookup_host SampleFacts.store_wf
           SampleFacts.views_disjoint (proj1 SampleFacts.raw_in_box)
           (proj2 SampleFacts.raw_in_box) SampleFacts.displace_eval 1).
  simpl. lia.
Defined.

(** *** The total speed *)

(** C5, at the subhalo of the catalogue. Its displaced [zs] is [1; 1], so its
    [vzs] is [0; 0]; the stored speed at the last snapshot is the square root
    of [vx² + vy² + z²] with the position [z = 1], which is not the square
    root of [vx² + vy² + vz²]. *)
Theorem displace_speed_adds_position :
  displace vector_deriv_spec Sample.store 2 1 = Ok Sample.displaced_store
  ∧ hs Sample.displaced_store !! 2%Z = Some (set_displaced Sample.sub Sample.d)
  ∧ halo_zs Sample.displaced_store Sample.sub !! 1 = Some 1%R
  ∧ ∃ vx vy vz v,
      vxs Sample.d !! 1 = Some vx ∧ vys Sample.d !! 1 = Some vy
      ∧ vzs Sample.d !! 1 = Some vz ∧ vs Sample.d !! 1 = Some v
      ∧ v = sqrt (vx ^ 2 + vy ^ 2 + 1 ^ 2)
      ∧ v ≠ sqrt (vx ^ 2 + vy ^ 2 + vz ^ 2).
Proof.
  split; [apply SampleFacts.displace_eval|]. split; [reflexivity|].
  split; [reflexivity|].
  eexists _, _, _, _. do 4 (split; [reflexivity|]). split; [reflexivity|].
  intros Heq. apply sqrt_inj in Heq.
  - set (dt := (Sample.t1 - Sample.t0)%R) in *.
    replace ((1 - 1) / dt * 1 * 31.54)%R with 0%R in Heq
      by (unfold Rdiv; ring).
    lra.
  - nra.
  - nra.
Qed.

(** *** The frame of [displace] *)

(** C9: a successful [displace] of a subhalo against a host held under
    another key, whose views share no position with the subhalo's, leaves the
    host object (its ages among it) and what its six views read as they were;
    no other halo object changes, the buffers of [scales], [rs] and [ms] are
    not written, and the buffers of [xs], [ys] and [zs] change only where the
    subhalo's views cover them. The subhalo's [host_rs] is the host's view of
    the [rs] buffer: in every later store it reads what the host's [rs]
    reads. *)
Theorem displace_leaves_host vd St self host hself hhost St' :
  self ≠ host →
  hs St !! self = Some hself → hs St !! host = Some hhost →
  wf_columns St → disjoint_halos St (h_view hself) (h_view hhost) →
  displace vd St self host = Ok St' →
  hs St' !! host = Some hhost
  ∧ halo_scales St' hhost = halo_scales St hhost
  ∧ halo_xs St' hhost = halo_xs St hhost
  ∧ halo_ys St' hhost = halo_ys St hhost
  ∧ halo_zs St' hhost = halo_zs St hhost
  ∧ halo_rs St' hhost = halo_rs St hhost
  ∧ halo_ms St' hhost = halo_ms St hhost
  ∧ (∀ r, r ≠ self → hs St' !! r = hs St !! r)
  ∧ scales St' = scales St ∧ rs St' = rs St ∧ ms St' = ms St
  ∧ (∀ x, ¬ covers St hself x →
          xs St' !! x = xs St !! x ∧ ys St' !! x = ys St !! x
          ∧ zs St' !! x = zs St !! x)
  ∧ ∃ d, hs St' !! self = Some (set_displaced hself d)
         ∧ host_rs d = h_view hhost
         ∧ ∀ St'', halo_host_rs St'' d = halo_rs St'' hhost.
Proof.
  intros Hne Hs Hh Hwf Hdis Hrun.
  destruct (displace_inv _ _ _ _ _ _ _ Hs Hh Hwf Hdis Hrun) as (d & Hd & ->).
  apply displace_derived_host_rs in Hd.
  destruct (halo_views_positions_result St (h_view hself) (h_view hhost) hhost
              Hwf Hdis) as (? & ? & ? & ? & ? & ?).
  split; [simpl; by rewrite lookup_insert_ne|].
  do 6 (split; [done|]).
  split; [intros r Hr; simpl; by rewrite lookup_insert_ne|].
  do 3 (split; [done|]).
  split.
  - intros x Hx. unfold covers in Hx.
    destruct (length_halo_views St hself Hwf) as (Hly & Hlz & _).
    simpl. rewrite !lookup_write_view by apply length_displaced_array.
    rewrite !length_displaced_array.
    fold (halo_xs St hself) (halo_ys St hself) (halo_zs St hself).
    rewrite Hly, Hlz. by rewrite !decide_False by done.
  - exists d. split; [simpl; by rewrite lookup_insert_eq|].
    split; [done|]. intros St''. unfold halo_host_rs, halo_rs. by rewrite Hd.
Qed.

Lemma displace_leaves_host_witness :
  hs Sample.displaced_store !! 1%Z = Some Sample.host'
  ∧ halo_scales Sample.displaced_store Sample.host'
    = halo_scales Sample.store Sample.host'
  ∧ halo_xs Sample.displaced_store Sample.host'
    = halo_xs Sample.store Sample.host'
  ∧ halo_ys Sample.displaced_store Sample.host'
    = halo_ys Sample.store Sample.host'
  ∧ halo_zs Sample.displaced_store Sample.host'
    = halo_zs Sample.store Sample.host'
  ∧ halo_rs Sample.displaced_store Sample.host'
    = halo_rs Sample.store Sample.host'
  ∧ halo_ms Sample.displaced_store Sample.host'
    = halo_ms Sample.store Sample.host'
  ∧ (∀ r, r ≠ 2%Z → hs Sample.displaced_store !! r = hs Sample.store !! r)
  ∧ scales Sample.displaced_store = scales Sample.store
  ∧ rs Sample.displaced_store = rs Sample.store
  ∧ ms Sample.displaced_store = ms Sample.store
  ∧ (∀ x, ¬ covers Sample.store Sample.sub x →
          xs Sample.displaced_store !! x = xs Sample.store !! x
          ∧ ys Sample.displaced_store !! x = ys Sample.store !! x
          ∧ zs Sample.displaced_store !! x = zs Sample.store !! x)
  ∧ ∃ d, hs Sample.displaced_store !! 2%Z = Some (set_displaced Sample.sub d)
         ∧ host_rs d = h_view Sample.host'
         ∧ ∀ St'', halo_host_rs St'' d = halo_rs St'' Sample.host'.
Proof.
  apply (displace_leaves_host vector_deriv_spec Sample.store 2 1 Sample.sub
           Sample.host' Sample.displaced_store).
  - discriminate.
  - apply SampleFacts.lookup_sub.
  - apply SampleFacts.lookup_host.
  - apply SampleFacts.store_wf.
  - apply SampleFacts.views_disjoint.
  - apply SampleFacts.displace_eval.
Defined.

(** *** Histories of one length *)

(** For arrays of one length, [displaced_array] is the trailing alignment
    of the specification. *)
Lemma displaced_array_aligned s h :
  length s = length h → displaced_array s h = trailing_aligned s h.
Proof.
  intros Hlen. unfold displaced_array, displaced_prefix, trailing_aligned.
  apply list_eq. intros j. rewrite !list_lookup_imap.
  destruct (s !! j) as [x|] eqn:Hx; [|done]. simpl.
  apply lookup_lt_Some in Hx.
  destruct (decide (touched _ _ _)) as [_|Ht];
    [|exfalso; apply Ht; unfold touched; lia].
  destruct (decide (_ ≤ _)) as [_|Hle]; [|lia].
  replace (partner (length s) (length h) j) with (length h - (length s - j));
    [done|]. unfold partner. case_decide; lia.
Qed.

(** *** The derived arrays *)

Lemma broadcast_same_length {A B C} (f : A → B → C) a b :
  length a = length b → broadcast f a b = Ok (zip_with f a b).
Proof. intros H. unfold broadcast. by rewrite decide_True. Qed.

Lemma broadcast_length {A B C} (f : A → B → C) a b c :
  length a = length b → broadcast f a b = Ok c → length c = length a.
Proof.
  intros H. rewrite broadcast_same_length by done. intros [= <-].
  rewrite length_zip_with. lia.
Qed.

Lemma length_np_div_scalar a c : length (np_div_scalar a c) = length a.
Proof. unfold np_div_scalar. by rewrite length_fmap. Qed.

Lemma length_np_scale a c : length (np_scale a c) = length a.
Proof. unfold np_scale. by rewrite length_fmap. Qed.

Lemma length_np_square a : length (np_square a) = length a.
Proof. unfold np_square. by rewrite length_fmap. Qed.

Lemma length_np_sqrt a : length (np_sqrt a) = length a.
Proof. unfold np_sqrt. by rewrite length_fmap. Qed.

Lemma wf_columns_positions_result St self host :
  wf_columns St → wf_columns (positions_result St self host).
Proof.
  intros (? & ? & ? & ? & ?). unfold wf_columns, positions_result. simpl.
  rewrite !length_write_view by apply length_displaced_array. done.
Qed.

Lemma length_vector_deriv_spec t x : length (vector_deriv_spec t x) = length x.
Proof. unfold vector_deriv_spec. by rewrite length_fmap, length_seq. Qed.

Section Derivative.
Variable vd : list R → list R → list R.
Hypothesis vd_length : ∀ t x, length (vd t x) = length x.

Lemma velocity_spec t sc a :
  length sc = length a → velocity vd t sc a = Ok (velocity_of vd t sc a).
Proof.
  intros H. unfold velocity, np_mul.
  by rewrite broadcast_same_length by (by rewrite vd_length).
Qed.

Lemma length_velocity_of t sc a :
  length sc = length a → length (velocity_of vd t sc a) = length a.
Proof.
  intros H. unfold velocity_of.
  rewrite length_np_scale, length_zip_with, vd_length. lia.
Qed.

(** Equalities between the lengths of arrays built from arrays of one
    length. *)
Ltac solve_length :=
  repeat first
    [ rewrite length_np_square | rewrite length_np_sqrt
    | rewrite length_zip_with | rewrite length_velocity_of by solve_length ];
  (lia || congruence).

(** With a derivative that keeps the length, the arrays are derived without
    an exception. *)
Lemma displace_derived_spec St hself hv :
  wf_columns St →
  displace_derived vd St hself hv
  = Ok (derived_arrays vd (ts hself) (halo_scales St hself) (halo_xs St hself)
          (halo_ys St hself) (halo_zs St hself) hv).
Proof.
  intros Hwf. destruct (length_halo_views St hself Hwf) as (Hy & Hz & Hsc & _).
  unfold displace_derived, np_add, np_div, np_arctan2.
  set (sx := halo_xs St hself) in *. set (sy := halo_ys St hself) in *.
  set (sz := halo_zs St hself) in *. set (sc := halo_scales St hself) in *.
  repeat first
    [ rewrite broadcast_same_length by solve_length
    | rewrite velocity_spec by solve_length
    | progress cbn [mbind result_bind] ].
  done.
Qed.

(** X4: with a derivative that keeps the length, [displace] returns on a store
    whose columns have one length, for two halos whose slices share no
    position. *)
Theorem displace_total St self host hself hhost :
  hs St !! self = Some hself → hs St !! host = Some hhost →
  wf_columns St → disjoint_halos St (h_view hself) (h_view hhost) →
  ∃ St', displace vd St self host = Ok St'.
Proof.
  intros Hs Hh Hwf Hdis. unfold displace, deref. rewrite Hs, Hh.
  cbn [of_option mbind result_bind].
  rewrite displace_positions_spec by done. cbn [mbind result_bind].
  rewrite displace_derived_spec; [by eexists|].
  by apply wf_columns_positions_result.
Qed.

(** X5: the speed that [displace] stores at snapshot [j] is the root of the
    squares of the two velocities [vxs[j]] and [vys[j]] and of the position
    [zs[j]]. *)
Theorem stored_speed_formula St self host hself hhost St' d j vx vy z :
  hs St !! self = Some hself → hs St !! host = Some hhost →
  wf_columns St → disjoint_halos St (h_view hself) (h_view hhost) →
  displace vd St self host = Ok St' →
  hs St' !! self = Some (set_displaced hself d) →
  vxs d !! j = Some vx → vys d !! j = Some vy →
  halo_zs St' hself !! j = Some z →
  vs d !! j = Some (speed vx vy z).
Proof.
  intros Hs Hh Hwf Hdis Hrun Hd Hvx Hvy Hz.
  destruct (displace_inv _ _ _ _ _ _ _ Hs Hh Hwf Hdis Hrun) as (d' & Hd' & ->).
  simpl in Hd. rewrite lookup_insert_eq in Hd.
  assert (d' = d) as -> by (injection Hd; congruence).
  rewrite displace_derived_spec in Hd'
    by (by apply wf_columns_positions_result).
  injection Hd' as <-. simpl in *.
  change (halo_zs (set_halo ?S _ _) ?h) with (halo_zs S h) in Hz.
  unfold np_sqrt, np_square.
  rewrite list_lookup_fmap, !lookup_zip_with, !list_lookup_fmap, Hvx, Hvy, Hz.
  done.
Qed.
End Derivative.

Lemma displace_total_witness :
  ∃ St', displace vector_deriv_spec Sample.store 2 1 = Ok St'.
Proof.
  apply (displace_total vector_deriv_spec length_vector_deriv_spec
           Sample.store 2 1 Sample.sub Sample.host').
  - apply SampleFacts.lookup_sub.
  - apply SampleFacts.lookup_host.
  - apply SampleFacts.store_wf.
  - apply SampleFacts.views_disjoint.
Defined.

Lemma stored_speed_formula_witness :
  vs Sample.d !! 1
  = Some (speed ((17 - 9) / (Sample.t1 - Sample.t0) * 1 * 31.54)
            ((0 - 0) / (Sample.t1 - Sample.t0) * 1 * 31.54) 1)%R.
Proof.
  apply (stored_speed_formula vector_deriv_spec length_vector_deriv_spec
           Sample.store 2 1 Sample.sub Sample.host' Sample.displaced_store).
  - apply SampleFacts.lookup_sub.
  - apply SampleFacts.lookup_host.
  - apply SampleFacts.store_wf.
  - apply SampleFacts.views_disjoint.
  - apply SampleFacts.displace_eval.
  - reflexivity.
  - reflexivity.
  - reflexivity.
  - reflexivity.
Defined.

(** ** [Halo.perihelion] *)

(** [argmin_from] returns the running best, or a later position that holds
    a smaller value; either way the value it points at is least. *)
Lemma argmin_from_spec a best bi i :
  (argmin_from best bi i a = bi ∧ ∀ y, y ∈ a → (best <= y)%R)
  ∨ ∃ k v, argmin_from best bi i a = i + k ∧ a !! k = Some v
           ∧ (v < best)%R ∧ ∀ y, y ∈ a → (v <= y)%R.
Proof.
  revert best bi i. induction a as [|x a IH]; intros best bi i; simpl.
  - left. split; [done|]. intros y Hy. by apply elem_of_nil in Hy.
  - case_decide as Hlt.
    + right. destruct (IH x i (S i)) as [[Hr Hle]|(k & v & Hr & Hk & Hv & Hle)].
      * exists 0, x. rewrite Hr. split; [lia|]. split; [done|].
        split; [done|]. intros y [->|Hy]%elem_of_cons; [lra|by apply Hle].
      * exists (S k), v. rewrite Hr. split; [lia|]. split; [done|].
        split; [lra|]. intros y [->|Hy]%elem_of_cons; [lra|by apply Hle].
    + destruct (IH best bi (S i)) as [[Hr Hle]|(k & v & Hr & Hk & Hv & Hle)].
      * left. split; [done|].
        intros y [->|Hy]%elem_of_cons; [lra|by apply Hle].
      * right. exists (S k), v. rewrite Hr. split; [lia|]. split; [done|].
        split; [done|]. intros y [->|Hy]%elem_of_cons; [lra|by apply Hle].
Qed.

Lemma argmin_spec a :
  a ≠ [] →
  ∃ i v, argmin a = Ok i ∧ a !! i = Some v ∧ ∀ y, y ∈ a → (v <= y)%R.
Proof.
  destruct a as [|x a]; [done|]. intros _. simpl.
  destruct (argmin_from_spec a x 0 1) as [[Hr Hle]|(k & v & Hr & Hk & Hv & Hle)].
  - exists 0, x. rewrite Hr. split; [done|]. split; [done|].
    intros y [->|Hy]%elem_of_cons; [lra|by apply Hle].
  - exists (S k), v. rewrite Hr. split; [done|]. split; [done|].
    intros y [->|Hy]%elem_of_cons; [lra|by apply Hle].
Qed.

(** The last [l] elements. *)
Lemma slice_from_neg {A} (a : list A) l :
  0 < l ≤ length a → slice_from a (- Z.of_nat l) = drop (length a - l) a.
Proof.
  intros Hl. unfold slice_from. rewrite decide_True by lia. f_equal. lia.
Qed.

(** An element counted from the end. *)
Lemma getitem_from_end {A} (a : list A) k x :
  0 < k ≤ length a → a !! (length a - k) = Some x →
  getitem a (- Z.of_nat k) = Ok x.
Proof.
  intros Hk Hx. unfold getitem, norm_index.
  rewrite decide_False by lia. rewrite decide_True by lia. simpl.
  replace (Z.to_nat (Z.of_nat (length a) + - Z.of_nat k)) with (length a - k)
    by lia.
  by rewrite Hx.
Qed.

(** The arrays that [displace] derives have the length of the subhalo's
    history. *)
Lemma displace_derived_lengths vd St hself hv d :
  wf_columns St → displace_derived vd St hself hv = Ok d →
  length (ds d) = length (halo_xs St hself)
  ∧ length (phis d) = length (ds d) ∧ length (ths d) = length (ds d).
Proof.
  intros Hwf H. destruct (length_halo_views St hself Hwf) as (Hy & Hz & _).
  unfold displace_derived in H.
  apply bind_Ok in H as (xy & Hxy & H). apply bind_Ok in H as (xyz & Hxyz & H).
  apply bind_Ok in H as (q & Hq & H). apply bind_Ok in H as (th & Hth & H).
  inv_bind H. injection H as <-. simpl.
  unfold np_add, np_div, np_arctan2, np_square, np_sqrt, np_arccos in *.
  apply broadcast_length in Hxy; [|by rewrite !length_fmap].
  rewrite length_fmap in Hxy.
  apply broadcast_length in Hxyz; [|rewrite length_fmap; congruence].
  apply broadcast_length in Hq; [|rewrite length_fmap; congruence].
  apply broadcast_length in Hth; [|congruence].
  rewrite !length_fmap. repeat split; congruence.
Qed.

(** X6: a halo that has one age per snapshot is consistent once displaced: the
    arrays that [perihelion] reads have one length. *)
Theorem displace_consistent vd St self host hself hhost St' :
  hs St !! self = Some hself → hs St !! host = Some hhost →
  wf_columns St → disjoint_halos St (h_view hself) (h_view hhost) →
  length (ts hself) = length (halo_xs St hself) →
  displace vd St self host = Ok St' →
  ∃ d, hs St' !! self = Some (set_displaced hself d)
       ∧ displaced_consistent (set_displaced hself d) d.
Proof.
  intros Hs Hh Hwf Hdis Hts Hrun.
  destruct (displace_inv _ _ _ _ _ _ _ Hs Hh Hwf Hdis Hrun) as (d & Hd & ->).
  exists d. split; [simpl; by rewrite lookup_insert_eq|].
  apply displace_derived_lengths in Hd as (Hds & Hphis & Hths).
  - destruct (halo_positions_result St hself hhost) as (Hx & _).
    rewrite Hx, length_displaced_array in Hds.
    repeat split; [done|done|]. simpl. congruence.
  - destruct Hwf as (? & ? & ? & ? & ?).
    repeat split; simpl; rewrite !length_write_view;
      rewrite ?length_displaced_array; done.
Qed.

Lemma displace_consistent_witness :
  ∃ d, hs Sample.displaced_store !! 2%Z = Some (set_displaced Sample.sub d)
       ∧ displaced_consistent (set_displaced Sample.sub d) d.
Proof.
  apply (displace_consistent vector_deriv_spec Sample.store 2 1 Sample.sub
           Sample.host' Sample.displaced_store).
  - apply SampleFacts.lookup_sub.
  - apply SampleFacts.lookup_host.
  - apply SampleFacts.store_wf.
  - apply SampleFacts.views_disjoint.
  - reflexivity.
  - apply SampleFacts.displace_eval.
Defined.

(** C2: for a displaced subhalo with non-empty distances and host radii,
    [perihelion] returns the distance [dp] at some offset [k] from the end,
    within the window of the last [l = min(len(ds), len(host_rs))] samples;
    [dp] is at most every distance of that window and at most the last
    distance; the host radius that divides it, the two angles and the age are
    read at the same offset [k] from the end of their arrays. *)
Theorem perihelion_is_window_minimum St self hself d :
  hs St !! self = Some hself → displaced hself = Some d →
  ds d ≠ [] → halo_host_rs St d ≠ [] → displaced_consistent hself d →
  ∃ k dp r phi th t,
    perihelion St self = Ok (dp, (dp / r)%R, phi, th, t)
    ∧ 0 < k ≤ Nat.min (length (ds d)) (length (halo_host_rs St d))
    ∧ ds d !! (length (ds d) - k) = Some dp
    ∧ halo_host_rs St d !! (length (halo_host_rs St d) - k) = Some r
    ∧ phis d !! (length (phis d) - k) = Some phi
    ∧ ths d !! (length (ths d) - k) = Some th
    ∧ ts hself !! (length (ts hself) - k) = Some t
    ∧ (∀ j y, 0 < j ≤ Nat.min (length (ds d)) (length (halo_host_rs St d)) →
              ds d !! (length (ds d) - j) = Some y → (dp <= y)%R)
    ∧ (∀ y, last (ds d) = Some y → (dp <= y)%R).
Proof.
  intros Hs Hd Hne Hrne (Hphis & Hths & Hts).
  set (hrs := halo_host_rs St d) in *.
  set (n := length (ds d)) in *.
  set (l := Nat.min n (length hrs)).
  assert (Hl : 0 < l ≤ n).
  { unfold l, n. destruct (ds d); [done|]. destruct hrs; [done|].
    simpl. lia. }
  assert (Hlh : l ≤ length hrs) by (unfold l; lia).
  assert (Hw : slice_from (ds d) (- Z.of_nat l) = drop (n - l) (ds d))
    by (by apply slice_from_neg).
  destruct (argmin_spec (drop (n - l) (ds d))) as (i & dp & Hi & Hdp & Hmin).
  { intros Hnil. apply (f_equal length) in Hnil.
    rewrite length_drop in Hnil. simpl in Hnil. fold n in Hnil. lia. }
  assert (Hil : i < l).
  { apply lookup_lt_Some in Hdp. rewrite length_drop in Hdp.
    fold n in Hdp. lia. }
  rewrite lookup_drop in Hdp.
  assert (Hhi : (Z.of_nat i - Z.of_nat l = - Z.of_nat (l - i))%Z) by lia.
  replace (n - l + i) with (n - (l - i)) in Hdp by lia.
  destruct (lookup_lt_is_Some_2 hrs (length hrs - (l - i))) as [r Hr]; [lia|].
  destruct (lookup_lt_is_Some_2 (phis d) (length (phis d) - (l - i)))
    as [phi Hphi]; [lia|].
  destruct (lookup_lt_is_Some_2 (ths d) (length (ths d) - (l - i)))
    as [th Hth]; [lia|].
  destruct (lookup_lt_is_Some_2 (ts hself) (length (ts hself) - (l - i)))
    as [t Ht]; [lia|].
  exists (l - i), dp, r, phi, th, t.
  split.
  { unfold perihelion, deref. rewrite Hs. simpl. rewrite Hd. simpl.
    fold hrs n l. rewrite Hw, Hi. simpl. rewrite Hhi.
    rewrite (getitem_from_end (ds d) (l - i) dp) by (done || lia). simpl.
    rewrite (getitem_from_end hrs (l - i) r) by (done || lia). simpl.
    rewrite (getitem_from_end (phis d) (l - i) phi) by (done || lia). simpl.
    rewrite (getitem_from_end (ths d) (l - i) th) by (done || lia). simpl.
    by rewrite (getitem_from_end (ts hself) (l - i) t) by (done || lia). }
  split; [lia|]. do 5 (split; [done|]).
  split.
  - intros j y Hj Hy. apply Hmin.
    apply list_elem_of_lookup. exists (l - j). rewrite lookup_drop.
    fold l in Hj. by replace (n - l + (l - j)) with (n - j) by lia.
  - intros y Hy. apply Hmin.
    apply list_elem_of_lookup. exists (l - 1). rewrite lookup_drop.
    rewrite last_lookup in Hy. fold n in Hy.
    by replace (n - l + (l - 1)) with (Nat.pred n) by lia.
Qed.

Lemma perihelion_is_window_minimum_witness :
  ∃ k dp r phi th t,
    perihelion Sample.displaced_store 2 = Ok (dp, (dp / r)%R, phi, th, t)
    ∧ 0 < k ≤ Nat.min (length (ds Sample.d))
                      (length (halo_host_rs Sample.displaced_store Sample.d))
    ∧ ds Sample.d !! (length (ds Sample.d) - k) = Some dp
    ∧ halo_host_rs Sample.displaced_store Sample.d
      !! (length (halo_host_rs Sample.displaced_store Sample.d) - k) = Some r
    ∧ phis Sample.d !! (length (phis Sample.d) - k) = Some phi
    ∧ ths Sample.d !! (length (ths Sample.d) - k) = Some th
    ∧ ts (set_displaced Sample.sub Sample.d)
      !! (length (ts (set_displaced Sample.sub Sample.d)) - k) = Some t
    ∧ (∀ j y,
         0 < j ≤ Nat.min (length (ds Sample.d))
                   (length (halo_host_rs Sample.displaced_store Sample.d)) →
         ds Sample.d !! (length (ds Sample.d) - j) = Some y → (dp <= y)%R)
    ∧ (∀ y, last (ds Sample.d) = Some y → (dp <= y)%R).
Proof.
  apply (perihelion_is_window_minimum Sample.displaced_store 2
           (set_displaced Sample.sub Sample.d) Sample.d).
  - reflexivity.
  - reflexivity.
  - discriminate.
  - discriminate.
  - repeat split.
Defined.

(** *** The catalogue: the perihelion of the subhalo *)

Module SamplePerihelion.
Import Sample.
Local Open Scope R_scope.

Lemma d0_le_d1 : d0 <= d1.
Proof. apply sqrt_le_1_alt. lra. Qed.

Lemma d0_ge_9 : 9 <= d0.
Proof. rewrite <-(sqrt_square 9) by lra. apply sqrt_le_1_alt. lra. Qed.

Lemma argmin_eval : argmin [d0; d1] = Ok 0%nat.
Proof.
  simpl. rewrite decide_False; [done|]. pose proof d0_le_d1. lra.
Qed.

(** The closest approach is the first of the two snapshots: the distance is
    divided by the host's radius of the same snapshot, 0.8, the second from
    the end of the host's three. *)
Lemma perihelion_eval :
  perihelion displaced_store 2
  = Ok (d0, d0 / 0.8, acos (1 / d0), arctan2 0 9, t0).
Proof.
  unfold perihelion, deref.
  change (hs displaced_store !! 2%Z) with (Some (set_displaced sub d)).
  cbn [of_option mbind result_bind displaced set_displaced].
  change (slice_from (ds d) _) with [d0; d1].
  rewrite argmin_eval. reflexivity.
Qed.
End SamplePerihelion.

(** ** The mask *)

(** One element of the mask. *)
Lemma mask_element (xp x d : R) :
  negb (bool_decide (Rabs (xp - x) < 0.01)%R) && bool_decide (xp < 1)%R
  && bool_decide (d > 0)%R = true
  ↔ (xp < 1 ∧ d > 0 ∧ Rabs (xp - x) >= 0.01)%R.
Proof.
  rewrite !andb_true_iff, negb_true_iff, bool_decide_eq_false,
    !bool_decide_eq_true.
  split.
  - intros [[Hne Hxp] Hd]. repeat split; [done|done|]. by apply Rnot_lt_ge.
  - intros (Hxp & Hd & Hge). repeat split; [|done|done]. by apply Rge_not_lt.
Qed.

(** The mask of the arrays [xps] and [ds_] and of the radius [r_now]: it is
    computed, has one entry per element, and entry [k] is true exactly when
    [xp < 1], [d_now > 0] and [|xp - d_now / r_now| >= 0.01], the quotient
    being the one of the reals. *)
Lemma make_mask_spec (xps ds_ : list R) (r_now : R) :
  length xps = length ds_ →
  ∃ mask,
    make_mask xps (np_div_scalar ds_ r_now) ds_ = Ok mask
    ∧ length mask = length ds_
    ∧ ∀ k xp d_now, xps !! k = Some xp → ds_ !! k = Some d_now →
        (mask !! k = Some true
         ↔ (xp < 1 ∧ d_now > 0 ∧ Rabs (xp - d_now / r_now) >= 0.01)%R).
Proof.
  intros Hlen. unfold make_mask, eps_eq, np_sub.
  rewrite broadcast_same_length by (by rewrite length_np_div_scalar). simpl.
  rewrite broadcast_same_length.
  2:{ unfold np_abs.
      rewrite !length_fmap, length_zip_with, length_np_div_scalar. lia. }
  simpl. rewrite broadcast_same_length.
  2:{ unfold np_abs.
      rewrite length_zip_with, !length_fmap, length_zip_with,
        length_np_div_scalar. lia. }
  eexists. split; [done|]. split.
  { unfold np_abs.
    rewrite !length_zip_with, !length_fmap, length_zip_with,
      length_np_div_scalar. lia. }
  intros k xp d_now Hxp Hd.
  unfold np_abs, np_div_scalar.
  rewrite !lookup_zip_with, !list_lookup_fmap, lookup_zip_with,
    list_lookup_fmap, Hxp, Hd.
  simpl. rewrite <-mask_element. split; [by intros [= ->]|by intros ->].
Qed.


(** ** The histograms and the stacks *)

Lemma select_same_length {A} (a : list A) mask :
  length a = length mask →
  select a mask = Ok (fst <$> filter (λ p, p.2 = true) (zip a mask)).
Proof. intros H. unfold select. by rewrite decide_True. Qed.

Lemma length_linspace lo hi num : length (linspace lo hi num) = num.
Proof. unfold linspace. by rewrite length_fmap, length_seq. Qed.

Lemma lookup_linspace lo hi num i :
  i < num →
  linspace lo hi num !! i
  = Some (lo + INR i * ((hi - lo) / INR (num - 1)))%R.
Proof.
  intros Hi. unfold linspace. by rewrite list_lookup_fmap, lookup_seq_lt.
Qed.

Lemma bin_edge_linspace i :
  i < 26 → linspace 0.1 2 26 !! i = Some (bin_edge i).
Proof.
  intros Hi. rewrite lookup_linspace by done. unfold bin_edge.
  by replace (INR (26 - 1)) with 25%R by (by rewrite INR_IZR_INZ).
Qed.

Lemma length_but_last {A} (a : list A) : length (but_last a) = length a - 1.
Proof. unfold but_last. rewrite length_take. lia. Qed.

Lemma length_but_first {A} (a : list A) : length (but_first a) = length a - 1.
Proof. unfold but_first. by rewrite length_drop. Qed.

Lemma lookup_but_last {A} (a : list A) i :
  S i < length a → but_last a !! i = a !! i.
Proof. intros Hi. unfold but_last. apply lookup_take_lt. lia. Qed.

Lemma lookup_but_first {A} (a : list A) i : but_first a !! i = a !! S i.
Proof. unfold but_first. by rewrite lookup_drop. Qed.

Lemma vol_difference r_in r_out :
  (vol r_out - vol r_in)%R = shell_volume r_in r_out.
Proof. unfold vol, shell_volume. lra. Qed.

(** The profile of a histogram that has one count per bin. *)
Lemma profile_spec vals e n :
  S (length vals) = length e →
  ∃ p, profile vals e n = Ok p ∧ length p = length vals
       ∧ ∀ i c r_in r_out,
           vals !! i = Some c → e !! i = Some r_in → e !! S i = Some r_out →
           p !! i = Some (INR c / shell_volume r_in r_out / INR n)%R.
Proof.
  intros Hlen. unfold profile, np_sub, np_div.
  rewrite broadcast_same_length
    by (by rewrite !length_fmap, length_but_first, length_but_last).
  simpl. rewrite broadcast_same_length.
  2:{ rewrite length_zip_with, !length_fmap, length_but_first,
        length_but_last. lia. }
  simpl. eexists. split; [done|]. split.
  { rewrite length_np_div_scalar, !length_zip_with, !length_fmap,
      length_but_first, length_but_last. lia. }
  intros i c r_in r_out Hc Hin Hout.
  unfold np_div_scalar.
  rewrite list_lookup_fmap, !lookup_zip_with, !list_lookup_fmap,
    lookup_but_first, lookup_but_last, Hc, Hin, Hout.
  - simpl. by rewrite vol_difference.
  - apply lookup_lt_Some in Hout. lia.
Qed.

(** One histogram of a round of the loop over hosts. *)
Lemma stack_profile_spec ds_ mask radius scale n :
  length ds_ = length mask →
  ∃ a p,
    binned ds_ mask radius scale = Ok a
    ∧ stack_profile ds_ mask radius scale 25 0.1 2 n
      = Ok (p, linspace 0.1 2 26)
    ∧ density_profile a n p.
Proof.
  intros Hlen. unfold stack_profile, binned.
  rewrite select_same_length
    by (by rewrite length_np_scale, length_np_div_scalar).
  set (a := fst <$> filter _ _). exists a. cbn [mbind result_bind].
  destruct (profile_spec (histogram a 25 0.1 2).1 (histogram a 25 0.1 2).2 n)
    as (p & Hp & Hlp & Hval).
  { unfold histogram. cbn [fst snd].
    by rewrite !length_fmap, !length_seq. }
  exists p. split; [done|].
  assert (Hc : ∀ i, i < 25 →
            (histogram a 25 0.1 2).1 !! i
            = Some (bin_count (linspace 0.1 2 26) 25 i a)).
  { intros i Hi. unfold histogram. cbn [fst snd].
    by rewrite list_lookup_fmap, lookup_seq_lt. }
  assert (He : (histogram a 25 0.1 2).2 = linspace 0.1 2 26) by done.
  split.
  { destruct (histogram a 25 0.1 2) as [vals e]. cbn [fst snd] in *.
    rewrite Hp. cbn [mbind result_bind]. by rewrite He. }
  split.
  { rewrite Hlp. unfold histogram. cbn [fst snd].
    by rewrite length_fmap, length_seq. }
  intros i Hi.
  exists (bin_count (linspace 0.1 2 26) 25 i a).
  split; [by apply Hc|]. rewrite He.
  split; [apply bin_edge_linspace; lia|].
  split; [apply bin_edge_linspace; lia|].
  apply Hval; [by apply Hc|rewrite He..]; apply bin_edge_linspace; lia.
Qed.

Lemma stack_profile_edges ds_ mask radius scale bins lo hi n p e :
  stack_profile ds_ mask radius scale bins lo hi n = Ok (p, e) →
  e = linspace lo hi (S bins).
Proof.
  unfold stack_profile. intros (a & _ & H)%bind_Ok.
  unfold histogram in H. by apply bind_Ok in H as (p' & _ & [= _ <-]).
Qed.

(** A round of the loop over hosts whose count exceeds the threshold. *)
Lemma stack_host_above host info ds_ mask A :
  host_info host = Some info →
  length ds_ = length mask → 40 < np_sum mask →
  ∃ a_sp a_max a_200m a_200c p_sp p_max p_200m p_200c,
    binned ds_ mask (r_sp info) r_sp_scale = Ok a_sp
    ∧ binned ds_ mask (r_max info) r_max_scale = Ok a_max
    ∧ binned ds_ mask (r200m info) r200m_scale = Ok a_200m
    ∧ binned ds_ mask (r200c info) r200c_scale = Ok a_200c
    ∧ density_profile a_sp (np_sum mask) p_sp
    ∧ density_profile a_max (np_sum mask) p_max
    ∧ density_profile a_200m (np_sum mask) p_200m
    ∧ density_profile a_200c (np_sum mask) p_200c
    ∧ stack_host host ds_ mask A
      = Ok {| b_r_sp := b_r_sp A ++ [p_sp]; b_r_max := b_r_max A ++ [p_max];
              b_r200m := b_r200m A ++ [p_200m];
              b_r200c := b_r200c A ++ [p_200c];
              edges := Some (linspace 0.1 2 26);
              sub_counts := sub_counts A ++ [np_sum mask] |}.
Proof.
  intros Hinfo Hlen Hn.
  destruct (stack_profile_spec ds_ mask (r_sp info) r_sp_scale (np_sum mask)
              Hlen) as (a1 & p1 & Ha1 & Hp1 & Hd1).
  destruct (stack_profile_spec ds_ mask (r_max info) r_max_scale (np_sum mask)
              Hlen) as (a2 & p2 & Ha2 & Hp2 & Hd2).
  destruct (stack_profile_spec ds_ mask (r200m info) r200m_scale (np_sum mask)
              Hlen) as (a3 & p3 & Ha3 & Hp3 & Hd3).
  destruct (stack_profile_spec ds_ mask (r200c info) r200c_scale (np_sum mask)
              Hlen) as (a4 & p4 & Ha4 & Hp4 & Hd4).
  exists a1, a2, a3, a4, p1, p2, p3, p4.
  do 8 (split; [done|]).
  unfold stack_host. rewrite decide_True by (unfold SUBHALO_LIM; lia).
  rewrite Hinfo. cbn [of_option mbind result_bind].
  rewrite Hp1. cbn [mbind result_bind]. rewrite Hp2. cbn [mbind result_bind].
  rewrite Hp3. cbn [mbind result_bind]. rewrite Hp4. done.
Qed.

(** A round whose count does not. *)
Lemma stack_host_below host ds_ mask A :
  np_sum mask ≤ 40 →
  stack_host host ds_ mask A
  = Ok {| b_r_sp := b_r_sp A; b_r_max := b_r_max A; b_r200m := b_r200m A;
          b_r200c := b_r200c A; edges := edges A;
          sub_counts := sub_counts A ++ [np_sum mask] |}.
Proof.
  intros Hn. unfold stack_host.
  by rewrite decide_False by (unfold SUBHALO_LIM; lia).
Qed.

(** What a successful round has done to the accumulators. *)
Lemma stack_host_inv host ds_ mask A A' :
  stack_host host ds_ mask A = Ok A' →
  (40 < np_sum mask
   ∧ ∃ p_sp p_max p_200m p_200c,
       A' = {| b_r_sp := b_r_sp A ++ [p_sp]; b_r_max := b_r_max A ++ [p_max];
               b_r200m := b_r200m A ++ [p_200m];
               b_r200c := b_r200c A ++ [p_200c];
               edges := Some (linspace 0.1 2 26);
               sub_counts := sub_counts A ++ [np_sum mask] |})
  ∨ (np_sum mask ≤ 40
     ∧ A' = {| b_r_sp := b_r_sp A; b_r_max := b_r_max A;
               b_r200m := b_r200m A; b_r200c := b_r200c A; edges := edges A;
               sub_counts := sub_counts A ++ [np_sum mask] |}).
Proof.
  intros Hrun. unfold stack_host in Hrun. case_decide as Hn.
  - left. split; [unfold SUBHALO_LIM in Hn; lia|].
    apply bind_Ok in Hrun as (info & _ & Hrun).
    apply bind_Ok in Hrun as ([p1 e1] & H1 & Hrun).
    apply bind_Ok in Hrun as ([p2 e2] & H2 & Hrun).
    apply bind_Ok in Hrun as ([p3 e3] & H3 & Hrun).
    apply bind_Ok in Hrun as ([p4 e4] & H4 & Hrun).
    injection Hrun as <-. apply stack_profile_edges in H1 as ->.
    by exists p1, p2, p3, p4.
  - right. split; [unfold SUBHALO_LIM in Hn; lia|]. by injection Hrun as <-.
Qed.

Lemma np_sum_replicate_true n : np_sum (replicate n true) = n.
Proof.
  unfold np_sum. induction n as [|n IH]; [done|]. cbn [replicate].
  rewrite filter_cons_True by done. cbn [length]. by rewrite IH.
Qed.

(** C6: in a round of the loop over hosts, from the count [n = np.sum(mask)]
    on, the count is recorded, and either [n > 40] and each of the four stacks
    grows by one profile, or [n <= 40] and the four stacks and the bin edges
    stay as they were. *)
Theorem host_stacked_iff_above_threshold host info ds_ mask A :
  host_info host = Some info → length ds_ = length mask →
  ∃ A', stack_host host ds_ mask A = Ok A'
        ∧ sub_counts A' = sub_counts A ++ [np_sum mask]
        ∧ ((40 < np_sum mask
            ∧ ∃ p_sp p_max p_200m p_200c,
                b_r_sp A' = b_r_sp A ++ [p_sp]
                ∧ b_r_max A' = b_r_max A ++ [p_max]
                ∧ b_r200m A' = b_r200m A ++ [p_200m]
                ∧ b_r200c A' = b_r200c A ++ [p_200c])
           ∨ (np_sum mask ≤ 40
              ∧ b_r_sp A' = b_r_sp A ∧ b_r_max A' = b_r_max A
              ∧ b_r200m A' = b_r200m A ∧ b_r200c A' = b_r200c A
              ∧ edges A' = edges A)).
Proof.
  intros Hinfo Hlen. destruct (decide (40 < np_sum mask)) as [Hn|Hn].
  - destruct (stack_host_above host info ds_ mask A Hinfo Hlen Hn)
      as (_ & _ & _ & _ & p1 & p2 & p3 & p4 & _ & _ & _ & _ & _ & _ & _ & _
          & ->).
    eexists. split; [done|]. split; [done|]. left. split; [done|].
    by exists p1, p2, p3, p4.
  - rewrite stack_host_below by lia.
    eexists. split; [done|]. split; [done|]. right. split; [lia|]. done.
Qed.

(** A host with exactly 40 masked subhalos. *)
Lemma host_stacked_iff_above_threshold_witness :
  ∃ A', stack_host Sample.host' (replicate 40 1%R) (replicate 40 true)
          no_stacks = Ok A'
        ∧ sub_counts A' = [40]
        ∧ b_r_sp A' = [] ∧ b_r_max A' = [] ∧ b_r200m A' = []
        ∧ b_r200c A' = [] ∧ edges A' = None.
Proof.
  destruct (host_stacked_iff_above_threshold Sample.host' Sample.info
              (replicate 40 1%R) (replicate 40 true) no_stacks)
    as (A' & HA & Hc & [[Hn _]|(_ & H1 & H2 & H3 & H4 & H5)]).
  - reflexivity.
  - by rewrite !length_replicate.
  - rewrite np_sum_replicate_true in Hn. lia.
  - exists A'. rewrite np_sum_replicate_true in Hc. done.
Defined.

(** C7: for a host whose count [n] exceeds 40, the profile appended to each
    of the four stacks is the density profile of the values binned for that
    radius: in each of the 25 equal bins of (0.1, 2), the count of the bin
    over [4π/3·(r_outer³ − r_inner³)] over [n]. *)
Theorem stacked_profile_is_count_over_shell_over_n host info ds_ mask A :
  host_info host = Some info →
  length ds_ = length mask → 40 < np_sum mask →
  ∃ A' a_sp a_max a_200m a_200c p_sp p_max p_200m p_200c,
    stack_host host ds_ mask A = Ok A'
    ∧ binned ds_ mask (r_sp info) r_sp_scale = Ok a_sp
    ∧ binned ds_ mask (r_max info) r_max_scale = Ok a_max
    ∧ binned ds_ mask (r200m info) r200m_scale = Ok a_200m
    ∧ binned ds_ mask (r200c info) r200c_scale = Ok a_200c
    ∧ b_r_sp A' = b_r_sp A ++ [p_sp]
    ∧ b_r_max A' = b_r_max A ++ [p_max]
    ∧ b_r200m A' = b_r200m A ++ [p_200m]
    ∧ b_r200c A' = b_r200c A ++ [p_200c]
    ∧ density_profile a_sp (np_sum mask) p_sp
    ∧ density_profile a_max (np_sum mask) p_max
    ∧ density_profile a_200m (np_sum mask) p_200m
    ∧ density_profile a_200c (np_sum mask) p_200c.
Proof.
  intros Hinfo Hlen Hn.
  destruct (stack_host_above host info ds_ mask A Hinfo Hlen Hn)
    as (a1 & a2 & a3 & a4 & p1 & p2 & p3 & p4 & ? & ? & ? & ? & ? & ? & ? & ?
        & HA).
  eexists _, a1, a2, a3, a4, p1, p2, p3, p4.
  split; [exact HA|]. simpl. done.
Qed.

(** A host with 41 masked subhalos. *)
Lemma stacked_profile_is_count_over_shell_over_n_witness :
  ∃ A' a_sp a_max a_200m a_200c p_sp p_max p_200m p_200c,
    stack_host Sample.host' (replicate 41 1%R) (replicate 41 true) no_stacks
    = Ok A'
    ∧ binned (replicate 41 1%R) (replicate 41 true) (r_sp Sample.info)
        r_sp_scale = Ok a_sp
    ∧ binned (replicate 41 1%R) (replicate 41 true) (r_max Sample.info)
        r_max_scale = Ok a_max
    ∧ binned (replicate 41 1%R) (replicate 41 true) (r200m Sample.info)
        r200m_scale = Ok a_200m
    ∧ binned (replicate 41 1%R) (replicate 41 true) (r200c Sample.info)
        r200c_scale = Ok a_200c
    ∧ b_r_sp A' = b_r_sp no_stacks ++ [p_sp]
    ∧ b_r_max A' = b_r_max no_stacks ++ [p_max]
    ∧ b_r200m A' = b_r200m no_stacks ++ [p_200m]
    ∧ b_r200c A' = b_r200c no_stacks ++ [p_200c]
    ∧ density_profile a_sp (np_sum (replicate 41 true)) p_sp
    ∧ density_profile a_max (np_sum (replicate 41 true)) p_max
    ∧ density_profile a_200m (np_sum (replicate 41 true)) p_200m
    ∧ density_profile a_200c (np_sum (replicate 41 true)) p_200c.
Proof.
  apply (stacked_profile_is_count_over_shell_over_n Sample.host' Sample.info
           (replicate 41 1%R) (replicate 41 true) no_stacks).
  - reflexivity.
  - by rewrite !length_replicate.
  - rewrite np_sum_replicate_true. lia.
Defined.

(** ** The loop over hosts and the bin centres *)

Lemma edges_inv_no_stacks : edges_inv 0 no_stacks.
Proof. split; [done|]. simpl. constructor. Qed.

Lemma stacks_inv_no_stacks : stacks_inv no_stacks.
Proof. by repeat split. Qed.

Lemma stack_host_edges_inv host ds_ mask A A' k :
  edges_inv k A → stack_host host ds_ mask A = Ok A' → edges_inv (S k) A'.
Proof.
  intros [Hlen Hinv] [[Hn (p1 & p2 & p3 & p4 & ->)]|[Hn ->]]%stack_host_inv;
    (split; simpl; [rewrite length_app; simpl; lia|]).
  - split; [done|]. apply Exists_app. right. by constructor.
  - destruct (edges A) as [e|].
    + destruct Hinv as [-> Hex]. split; [done|]. apply Exists_app. by left.
    + apply Forall_app. split; [done|]. constructor; [done|constructor].
Qed.

Lemma stack_host_stacks_inv host ds_ mask A A' :
  stacks_inv A → stack_host host ds_ mask A = Ok A' → stacks_inv A'.
Proof.
  unfold stacks_inv.
  intros (H1 & H2 & H3 & H4)
    [[Hn (p1 & p2 & p3 & p4 & ->)]|[Hn ->]]%stack_host_inv; simpl.
  - rewrite filter_app, filter_cons_True, !length_app by done. simpl.
    repeat split; lia.
  - rewrite filter_app, filter_cons_False, filter_nil, app_nil_r by lia.
    done.
Qed.

Lemma host_body_inv vd host St A St' A' :
  host_body vd host (St, A) = Ok (St', A') →
  ∃ hhost ds_ mask, stack_host hhost ds_ mask A = Ok A'.
Proof.
  intros Hrun. unfold host_body in Hrun. inv_bind Hrun.
  injection Hrun as <- <-. eauto.
Qed.

Lemma for_each_host_body_inv vd hosts St A St' A' k :
  edges_inv k A → stacks_inv A →
  for_each (host_body vd) hosts (St, A) = Ok (St', A') →
  edges_inv (k + length hosts) A' ∧ stacks_inv A'.
Proof.
  revert St A k. induction hosts as [|h hosts IH]; intros St A k He Hs; simpl.
  - intros [= <- <-]. by rewrite Nat.add_0_r.
  - intros ([St1 A1] & (hhost & ds_ & mask & Hh)%host_body_inv & Hrest)%bind_Ok.
    replace (k + S (length hosts)) with (S k + length hosts) by lia.
    eapply IH; [| |done].
    + by eapply stack_host_edges_inv.
    + by eapply stack_host_stacks_inv.
Qed.

Lemma bin_centers_Some e :
  ∃ c, bin_centers (Some e) = Ok c ∧ length c = length e - 1.
Proof.
  unfold bin_centers, np_add. simpl.
  rewrite broadcast_same_length
    by (by rewrite length_but_last, length_but_first).
  simpl. eexists. split; [done|].
  rewrite length_np_div_scalar, length_zip_with, length_but_last,
    length_but_first. lia.
Qed.

(** C10: when the loop over hosts raises, so does the aggregation; when it
    completes, it has recorded one count per host, and either some count
    exceeds 40 and the aggregation returns the 25 bin centres with the
    stacks, or no count does, [edges] is still [None], and taking the bin
    centres raises [TypeError]. *)
Theorem aggregate_needs_a_qualifying_host vd hosts St :
  match for_each (host_body vd) hosts (St, no_stacks) with
  | Raise e => aggregate vd hosts St = Raise e
  | Ok (St', A) =>
      length (sub_counts A) = length hosts
      ∧ ((Exists (λ n, 40 < n) (sub_counts A)
          ∧ ∃ centers, aggregate vd hosts St = Ok (centers, A, St')
                       ∧ length centers = 25)
         ∨ (Forall (λ n, n ≤ 40) (sub_counts A)
            ∧ edges A = None
            ∧ aggregate vd hosts St = Raise TypeError))
  end.
Proof.
  unfold aggregate.
  destruct (for_each (host_body vd) hosts (St, no_stacks))
    as [[St' A]|e] eqn:Hloop; [|done].
  destruct (for_each_host_body_inv vd hosts St no_stacks St' A 0
              edges_inv_no_stacks stacks_inv_no_stacks Hloop)
    as [[Hlen Hinv] _].
  split; [done|]. cbn [mbind result_bind].
  destruct (edges A) as [e|].
  - destruct Hinv as [-> Hex]. left. split; [done|].
    destruct (bin_centers_Some (linspace 0.1 2 26)) as (c & -> & Hc).
    exists c. split; [done|]. by rewrite Hc, length_linspace.
  - right. done.
Qed.

(** *** The catalogue: one host below the threshold *)

Module SampleAggregate.
Import Sample.
Local Open Scope R_scope.

Lemma gather_eval :
  for_each (gather_body displaced_store) [2%Z] no_gathered
  = Ok {| g_ds := [d1]; g_dps := [d0]; g_xps := [d0 / 0.8];
          g_phis := [acos (1 / d1)]; g_ths := [arctan2 0 17];
          g_ts := [t0] |}.
Proof.
  cbn [for_each]. unfold gather_body.
  rewrite SamplePerihelion.perihelion_eval. reflexivity.
Qed.

(** The perihelion distance of the subhalo is more than 11 host radii: the
    mask leaves it out. *)
Lemma mask_eval :
  make_mask [d0 / 0.8] (np_div_scalar [d1] 1) [d1] = Ok [false].
Proof.
  transitivity
    (Ok [negb (bool_decide (Rabs (d0 / 0.8 - d1 / 1) < 0.01))
         && bool_decide (d0 / 0.8 < 1) && bool_decide (d1 > 0)]);
    [reflexivity|].
  rewrite (bool_decide_eq_false_2 (d0 / 0.8 < 1)).
  - by rewrite andb_false_r.
  - pose proof SamplePerihelion.d0_ge_9. lra.
Qed.

Lemma host_body_eval :
  host_body vector_deriv_spec 1 (store, no_stacks)
  = Ok (displaced_store, counted).
Proof.
  unfold host_body, deref.
  change (hs store !! 1%Z) with (Some host').
  cbn [of_option mbind result_bind].
  change (subs host') with [2%Z]. cbn [for_each].
  rewrite SampleFacts.displace_eval. cbn [mbind result_bind].
  change (hs displaced_store !! 1%Z) with (Some host').
  cbn [of_option mbind result_bind].
  change (subs host') with [2%Z]. rewrite gather_eval.
  cbn [mbind result_bind].
  change (getitem (halo_rs displaced_store host') (-1)) with (Ok 1).
  cbn [mbind result_bind g_ds g_xps]. rewrite mask_eval.
  reflexivity.
Qed.

(** With its one host below the threshold, the run ends in the
    [TypeError] of the bin centres. *)
Lemma aggregate_eval :
  aggregate vector_deriv_spec [1%Z] store = Raise TypeError.
Proof.
  unfold aggregate. cbn [for_each]. rewrite host_body_eval. reflexivity.
Qed.
End SampleAggregate.

(** X7: when the loop over hosts completes, it has recorded one count per
    host and each of the four stacks holds one profile per count above 40. *)
Theorem aggregate_stack_sizes vd hosts St St' A :
  for_each (host_body vd) hosts (St, no_stacks) = Ok (St', A) →
  length (sub_counts A) = length hosts ∧ stacks_inv A.
Proof.
  intros Hloop.
  destruct (for_each_host_body_inv vd hosts St no_stacks St' A 0
              edges_inv_no_stacks stacks_inv_no_stacks Hloop)
    as [[Hlen _] Hst].
  done.
Qed.

Lemma aggregate_stack_sizes_witness :
  length (sub_counts Sample.counted) = length [1%Z]
  ∧ stacks_inv Sample.counted.
Proof.
  apply (aggregate_stack_sizes vector_deriv_spec [1%Z] Sample.store
           Sample.displaced_store Sample.counted).
  cbn [for_each]. by rewrite SampleAggregate.host_body_eval.
Defined.

(** X10: a round of the loop over hosts that completes records the count [n]
    of the host, and either [n > 40] and each of the four stacks grows by one
    profile, or [n <= 40] and the stacks and the bin edges stay as they
    were. *)
Theorem host_round_stacks vd host St A St' A' :
  host_body vd host (St, A) = Ok (St', A') →
  ∃ n, sub_counts A' = sub_counts A ++ [n]
       ∧ ((40 < n
           ∧ ∃ p_sp p_max p_200m p_200c,
               b_r_sp A' = b_r_sp A ++ [p_sp]
               ∧ b_r_max A' = b_r_max A ++ [p_max]
               ∧ b_r200m A' = b_r200m A ++ [p_200m]
               ∧ b_r200c A' = b_r200c A ++ [p_200c])
          ∨ (n ≤ 40
             ∧ b_r_sp A' = b_r_sp A ∧ b_r_max A' = b_r_max A
             ∧ b_r200m A' = b_r200m A ∧ b_r200c A' = b_r200c A
             ∧ edges A' = edges A)).
Proof.
  intros (hhost & ds_ & mask & Hrun)%host_body_inv.
  exists (np_sum mask).
  apply stack_host_inv in Hrun
    as [[Hn (p1 & p2 & p3 & p4 & ->)]|[Hn ->]]; simpl.
  - split; [done|]. left. split; [done|]. by exists p1, p2, p3, p4.
  - split; [done|]. right. done.
Qed.

Lemma host_round_stacks_witness :
  ∃ n, sub_counts Sample.counted = sub_counts no_stacks ++ [n]
       ∧ ((40 < n
           ∧ ∃ p_sp p_max p_200m p_200c,
               b_r_sp Sample.counted = b_r_sp no_stacks ++ [p_sp]
               ∧ b_r_max Sample.counted = b_r_max no_stacks ++ [p_max]
               ∧ b_r200m Sample.counted = b_r200m no_stacks ++ [p_200m]
               ∧ b_r200c Sample.counted = b_r200c no_stacks ++ [p_200c])
          ∨ (n ≤ 40
             ∧ b_r_sp Sample.counted = b_r_sp no_stacks
             ∧ b_r_max Sample.counted = b_r_max no_stacks
             ∧ b_r200m Sample.counted = b_r200m no_stacks
             ∧ b_r200c Sample.counted = b_r200c no_stacks
             ∧ edges Sample.counted = edges no_stacks)).
Proof.
  apply (host_round_stacks vector_deriv_spec 1 Sample.store no_stacks
           Sample.displaced_store Sample.counted).
  apply SampleAggregate.host_body_eval.
Defined.

(** ** The derived radius of a host *)

Lemma r200c_of_ratio rho_c0 m200c_ :
  r200c_of rho_c0 m200c_ = Rpower (overdensity_ratio rho_c0 m200c_) 0.333.
Proof.
  unfold r200c_of, overdensity_ratio. f_equal. f_equal. lra.
Qed.

(** Two powers of a base above 1 differ when the exponents do. *)
Lemma Rpower_exponent_inj b x y :
  (1 < b)%R → Rpower b x = Rpower b y → x = y.
Proof.
  intros Hb H. unfold Rpower in H. apply exp_inv in H.
  assert (0 < ln b)%R by (rewrite <-ln_1; apply ln_increasing; lra).
  nra.
Qed.

Lemma sample_ratio_gt_1 : (1 < overdensity_ratio Sample.rho_c0 1e15)%R.
Proof.
  unfold overdensity_ratio, Sample.rho_c0.
  pose proof PI_4. pose proof PI_RGT_0.
  set (den := (200 * 277.5 * 1e9 * (4 * PI / 3))%R).
  assert (Hden : (0 < den < 1e15)%R) by (unfold den; lra).
  apply Rmult_lt_reg_r with den; [lra|].
  replace (1e15 / den * den)%R with 1e15%R by (field; lra). lra.
Qed.

(** C8, at the host of the catalogue, of mass 1e15 with a critical density
    of 277.5: the membership loop stores the ratio
    [M200c / (200·ρ_crit(0)·1e9·4π/3)] raised to the power 0.333, which is not
    that ratio raised to the power 1/3. *)
Theorem r200c_exponent_is_truncated :
  membership Sample.rho_c0 (make_rad_info Sample.rad) [(1, 1); (2, 1)]%Z
    Sample.halos = Ok ([1%Z], Sample.store)
  ∧ host_info <$> hs Sample.store !! 1%Z = Some (Some Sample.info)
  ∧ m200c Sample.info = 1e15%R
  ∧ r200c Sample.info = Rpower (overdensity_ratio Sample.rho_c0 1e15) 0.333
  ∧ r200c Sample.info ≠ Rpower (overdensity_ratio Sample.rho_c0 1e15) (1 / 3).
Proof.
  split; [reflexivity|]. split; [reflexivity|]. split; [reflexivity|].
  assert (Hr : r200c Sample.info
               = Rpower (overdensity_ratio Sample.rho_c0 1e15) 0.333)
    by apply r200c_of_ratio.
  split; [done|]. rewrite Hr. intros Heq.
  apply Rpower_exponent_inj in Heq; [lra|apply sample_ratio_gt_1].
Qed.

(** ** The store of the program *)

Lemma views_apart_disjoint {A} (buf : list A) v w :
  v_start v ≤ v_stop v → v_start w ≤ v_stop w →
  views_apart v w → disjoint_views buf v w.
Proof.
  intros Hv Hw Ha. unfold disjoint_views. rewrite !length_view_read.
  destruct Ha; [left|right]; lia.
Qed.

Lemma for_each_seq_inv {T} (body : nat → T → result T) (P : nat → T → Prop)
    n s s' :
  P 0 s →
  (∀ i t t', i < n → P i t → body i t = Ok t' → P (S i) t') →
  for_each body (seq 0 n) s = Ok s' → P n s'.
Proof.
  intros H0 Hstep. revert s'. induction n as [|n IH]; intros s'.
  - by intros [= <-].
  - rewrite seq_S, for_each_app. simpl.
    intros (t & Ht & Hb)%bind_Ok.
    apply bind_Ok in Hb as (t' & Hb & [= <-]).
    eapply Hstep; [lia| |done]. apply IH; [|done].
    intros i u u' Hi. apply Hstep. lia.
Qed.

Section MakeHalos.
Context (age : R → R) (tree_ids : list Z) (St0 : Store).
Hypothesis Hwf : wf_columns St0.
Hypothesis Hempty : hs St0 = ∅.

Lemma Halo_init_inv St start end_ h :
  Halo_init age tree_ids St start end_ = Ok h →
  h_view h = mkView start end_ ∧ subs h = []
  ∧ length (ts h) = length (halo_scales St h).
Proof.
  unfold Halo_init. intros (i & _ & [= <-])%bind_Ok. simpl.
  split; [done|]. split; [done|]. unfold halo_scales. simpl.
  by rewrite length_fmap.
Qed.

Lemma halo_ok_insert St k h :
  (∀ k' h', hs St !! k' = Some h' → halo_ok St k' h') →
  v_start (h_view h) ≤ v_stop (h_view h) →
  length (ts h) = length (halo_scales St h) →
  subs h = [] →
  (∀ k' h', k ≠ k' → hs St !! k' = Some h' →
            views_apart (h_view h) (h_view h')) →
  ∀ k' h', hs (set_halo St k h) !! k' = Some h' →
           halo_ok (set_halo St k h) k' h'.
Proof.
  intros Hall Hle Hts Hsubs Hapart k' h'. simpl.
  destruct (decide (k = k')) as [<-|Hne].
  - rewrite lookup_insert_eq. intros [= <-].
    split; [done|]. split; [done|]. rewrite Hsubs.
    split; [by intros ?%elem_of_nil|]. split; [by intros s ?%elem_of_nil|].
    intros k2 h2 Hk2. simpl. rewrite lookup_insert_ne by done. by apply Hapart.
  - rewrite lookup_insert_ne by done. intros Hk'.
    destruct (Hall k' h' Hk') as (H1 & H2 & H3 & H4 & H5).
    split; [done|]. split; [done|]. split; [done|]. split.
    + intros s Hs. simpl. destruct (decide (k = s)) as [<-|Hks].
      * rewrite lookup_insert_eq. eauto.
      * rewrite lookup_insert_ne by done. by apply H4.
    + intros k2 h2 Hk2. simpl. destruct (decide (k = k2)) as [<-|Hkk].
      * rewrite lookup_insert_eq. intros [= <-].
        destruct (Hapart k' h' Hne Hk') as [?|?]; [right|left]; done.
      * rewrite lookup_insert_ne by done. by apply H5.
Qed.

Lemma make_halos_body_inv i st st' :
  cut_inv St0 i st → make_halos_body age tree_ids i st = Ok st' →
  cut_inv St0 (S i) st'.
Proof.
  destruct st as [start St]. unfold make_halos_body.
  intros (Hle & Hsc & Hx & Hy & Hz & Hr & Hm & Hall) (tid & _ & Hb)%bind_Ok.
  case_decide as Htid.
  - apply bind_Ok in Hb as (h & Hh & [= <-]).
    apply Halo_init_inv in Hh as (Hv & Hsubs & Hts).
    split; [lia|]. do 6 (split; [done|]).
    intros k' h' Hk'.
    assert (Hok : halo_ok (set_halo St (h_id h) h) k' h').
    { revert k' h' Hk'. apply halo_ok_insert.
      - intros k2 h2 Hk2. by apply Hall.
      - rewrite Hv. simpl. lia.
      - done.
      - done.
      - intros k2 h2 _ Hk2. destruct (Hall k2 h2 Hk2) as (Hstop & _).
        right. rewrite Hv. simpl. lia. }
    split; [|split; [|done]].
    + simpl in Hk'. destruct (decide (h_id h = k')) as [<-|Hne].
      * rewrite lookup_insert_eq in Hk'. injection Hk' as <-.
        rewrite Hv. simpl. lia.
      * rewrite lookup_insert_ne in Hk' by done.
        destruct (Hall k' h' Hk') as (Hstop & _). lia.
    + simpl in Hk'. destruct (decide (h_id h = k')) as [<-|Hne].
      * rewrite lookup_insert_eq in Hk'. by injection Hk' as <-.
      * rewrite lookup_insert_ne in Hk' by done.
        by destruct (Hall k' h' Hk') as (_ & ? & _).
  - injection Hb as <-. split; [lia|]. do 6 (split; [done|]).
    intros k h Hk. destruct (Hall k h Hk) as (? & ? & ?).
    split; [lia|]. done.
Qed.

(** The halos cut from the tree have slices that do not overlap. *)
Lemma make_halos_ok St :
  make_halos age tree_ids St0 = Ok St → store_ok St.
Proof.
  unfold make_halos. intros ([start St1] & Hloop & Hlast)%bind_Ok.
  apply bind_Ok in Hlast as (h & Hh & [= <-]).
  apply (for_each_seq_inv _ (cut_inv St0)) in Hloop.
  - destruct Hloop as (Hle & Hsc & Hx & Hy & Hz & Hr & Hm & Hall).
    apply Halo_init_inv in Hh as (Hv & Hsubs & Hts).
    split.
    { unfold wf_columns in *. simpl. by rewrite Hsc, Hx, Hy, Hz, Hr, Hm. }
    apply halo_ok_insert.
    + intros k2 h2 Hk2. by apply Hall.
    + rewrite Hv. simpl. lia.
    + done.
    + done.
    + intros k2 h2 _ Hk2. destruct (Hall k2 h2 Hk2) as (Hstop & _).
      right. rewrite Hv. simpl. lia.
  - split; [lia|]. do 6 (split; [done|]). intros k h0.
    by rewrite Hempty, lookup_empty.
  - intros i t t' _. apply make_halos_body_inv.
Qed.
End MakeHalos.

(** Replacing an object by one with the same slice, the same ages and
    admissible subhalos keeps the store well formed. *)
Lemma store_ok_update St k h h' :
  store_ok St → hs St !! k = Some h →
  h_view h' = h_view h → ts h' = ts h →
  k ∉ subs h' → (∀ s, s ∈ subs h' → is_Some (hs St !! s)) →
  store_ok (set_halo St k h').
Proof.
  intros [Hwf Hall] Hk Hv Hts Hself Hsubs. split; [done|].
  intros k1 h1. simpl. destruct (decide (k = k1)) as [<-|Hne].
  - rewrite lookup_insert_eq. intros [= <-].
    destruct (Hall k h Hk) as (H1 & H2 & H3 & H4 & H5).
    split; [by rewrite Hv|]. split.
    { rewrite Hts. unfold halo_scales in *. simpl. by rewrite Hv. }
    split; [done|]. split.
    + intros s Hs. simpl. destruct (decide (k = s)) as [<-|Hks].
      * rewrite lookup_insert_eq. eauto.
      * rewrite lookup_insert_ne by done. by apply Hsubs.
    + intros k2 h2 Hk2. simpl. rewrite lookup_insert_ne by done.
      rewrite Hv. by apply H5.
  - rewrite lookup_insert_ne by done. intros Hk1.
    destruct (Hall k1 h1 Hk1) as (H1 & H2 & H3 & H4 & H5).
    split; [done|]. split; [done|]. split; [done|]. split.
    + intros s Hs. simpl. destruct (decide (k = s)) as [<-|Hks].
      * rewrite lookup_insert_eq. eauto.
      * rewrite lookup_insert_ne by done. by apply H4.
    + intros k2 h2 Hk2. simpl. destruct (decide (k = k2)) as [<-|Hkk].
      * rewrite lookup_insert_eq. intros [= <-]. rewrite Hv.
        by apply (H5 k h).
      * rewrite lookup_insert_ne by done. by apply H5.
Qed.

Lemma membership_body_ok rho_c0 rad_info row hosts St hosts' St' :
  store_ok St → (∀ k, k ∈ hosts → is_Some (hs St !! k)) →
  membership_body rho_c0 rad_info row (hosts, St) = Ok (hosts', St') →
  store_ok St' ∧ ∀ k, k ∈ hosts' → is_Some (hs St' !! k).
Proof.
  intros Hok Hhosts. unfold membership_body. destruct row as [id h_id_].
  case_decide as Heq.
  - intros (h & Hh%of_option_Ok & Hb)%bind_Ok.
    apply bind_Ok in Hb as (r & _ & Hb).
    apply bind_Ok in Hb as (mid & _ & [= <- <-]).
    destruct Hok as [Hwf Hall].
    destruct (Hall id h Hh) as (H1 & H2 & H3 & H4 & H5).
    split.
    + eapply store_ok_update; [by split|done|done|done|done|done].
    + intros k Hk. simpl. destruct (decide (id = k)) as [<-|Hne].
      * rewrite lookup_insert_eq. eauto.
      * rewrite lookup_insert_ne by done.
        apply elem_of_app in Hk as [Hk|Hk%list_elem_of_singleton];
          [by apply Hhosts|done].
  - intros (h & Hh%of_option_Ok & Hb)%bind_Ok.
    apply bind_Ok in Hb as (hsub & Hsub%of_option_Ok & [= <- <-]).
    destruct Hok as [Hwf Hall].
    destruct (Hall h_id_ h Hh) as (H1 & H2 & H3 & H4 & H5).
    split.
    + eapply store_ok_update; [by split|done|done|done| |]; simpl.
      * intros [?|?%list_elem_of_singleton]%elem_of_app; [done|congruence].
      * intros s [?|Hs%list_elem_of_singleton]%elem_of_app; [by apply H4|].
        subst s. eauto.
    + intros k Hk. simpl. destruct (decide (h_id_ = k)) as [<-|Hne].
      * rewrite lookup_insert_eq. eauto.
      * rewrite lookup_insert_ne by done. by apply Hhosts.
Qed.

(** The membership loop keeps the store well formed, and every host it lists
    is an object of [hs]. *)
Lemma membership_ok rho_c0 rad_info rows St hosts St' :
  store_ok St → membership rho_c0 rad_info rows St = Ok (hosts, St') →
  store_ok St' ∧ ∀ k, k ∈ hosts → is_Some (hs St' !! k).
Proof.
  unfold membership. intros Hok.
  assert (Hnil : ∀ k : Z, k ∈ [] → is_Some (hs St !! k))
    by (by intros k ?%elem_of_nil).
  revert Hok Hnil. generalize (@nil Z) as hosts0. revert St.
  induction rows as [|row rows IH]; intros St hosts0 Hok Hh0; simpl.
  - by intros [= <- <-].
  - intros ([hosts1 St1] & Hb & Hrest)%bind_Ok.
    apply membership_body_ok in Hb as [Hok1 Hh1]; [|done|done].
    by eapply IH.
Qed.

(** Under [store_ok], a subhalo of a host is another object, and its slice
    shares no position with the host's. *)
Lemma store_ok_sub St host hhost sub :
  store_ok St → hs St !! host = Some hhost → sub ∈ subs hhost →
  ∃ hsub, hs St !! sub = Some hsub ∧ sub ≠ host
          ∧ disjoint_halos St (h_view hsub) (h_view hhost)
          ∧ length (ts hsub) = length (halo_xs St hsub).
Proof.
  intros [Hwf Hall] Hh Hsub.
  destruct (Hall host hhost Hh) as (H1 & H2 & H3 & H4 & H5).
  destruct (H4 sub Hsub) as [hsub Hs]. exists hsub. split; [done|].
  assert (Hne : sub ≠ host) by (intros ->; done).
  split; [done|].
  destruct (Hall sub hsub Hs) as (G1 & G2 & G3 & G4 & G5).
  split.
  - apply views_apart_disjoint; [done|done|]. by apply (G5 host hhost).
  - destruct (length_halo_views St hsub Hwf) as (_ & _ & Hsc & _).
    congruence.
Qed.

(** [displace] keeps the store well formed. *)
Lemma displace_ok vd St host hhost sub St' :
  store_ok St → hs St !! host = Some hhost → sub ∈ subs hhost →
  displace vd St sub host = Ok St' →
  store_ok St' ∧ hs St' !! host = Some hhost.
Proof.
  intros Hok Hh Hsub Hrun.
  destruct (store_ok_sub St host hhost sub Hok Hh Hsub)
    as (hsub & Hs & Hne & Hdis & _).
  pose proof Hok as [Hwf Hall].
  destruct (displace_inv _ _ _ _ _ _ _ Hs Hh Hwf Hdis Hrun) as (d & _ & ->).
  split; [|simpl; by rewrite lookup_insert_ne].
  destruct (Hall sub hsub Hs) as (G1 & G2 & G3 & G4 & G5).
  apply (store_ok_update _ sub hsub); [|done|done|done|done|done].
  destruct Hwf as (W1 & W2 & W3 & W4 & W5).
  split.
  - unfold wf_columns, positions_result. simpl.
    rewrite !length_write_view by apply length_displaced_array. done.
  - intros k h Hk. destruct (Hall k h Hk) as (F1 & F2 & F3 & F4 & F5).
    done.
Qed.

Lemma load_tree_wf rows : wf_columns (load_tree rows).2 ∧ hs (load_tree rows).2 = ∅.
Proof. unfold wf_columns. simpl. by rewrite !length_fmap. Qed.

(** X1: the store that the loop over hosts starts from is well formed, and the
    hosts are objects of [hs]: the halos cut from the tree have slices that
    do not overlap, the membership loop makes no halo its own subhalo, and
    every subhalo it adds is an object of [hs]. *)
Theorem setup_ok age rho_c0 tree sub_rows rad St1 hosts St2 :
  make_halos age (load_tree tree).1 (load_tree tree).2 = Ok St1 →
  membership rho_c0 (make_rad_info rad) sub_rows St1 = Ok (hosts, St2) →
  store_ok St2 ∧ ∀ k, k ∈ hosts → is_Some (hs St2 !! k).
Proof.
  intros Hcut Hmem. destruct (load_tree_wf tree) as [Hwf Hempty].
  eapply membership_ok; [|done]. by eapply make_halos_ok.
Qed.

(** X2: displacing any number of the subhalos of a host, in any order, keeps
    the store well formed and the host as it was. *)
Theorem displace_all_ok vd St host hhost l St' :
  store_ok St → hs St !! host = Some hhost →
  (∀ s, s ∈ l → s ∈ subs hhost) →
  for_each (λ sub St, displace vd St sub host) l St = Ok St' →
  store_ok St' ∧ hs St' !! host = Some hhost
  ∧ halo_scales St' hhost = halo_scales St hhost
  ∧ halo_xs St' hhost = halo_xs St hhost
  ∧ halo_ys St' hhost = halo_ys St hhost
  ∧ halo_zs St' hhost = halo_zs St hhost
  ∧ halo_rs St' hhost = halo_rs St hhost
  ∧ halo_ms St' hhost = halo_ms St hhost.
Proof.
  revert St. induction l as [|sub l IH]; intros St Hok Hh Hl; simpl.
  - intros [= <-]. done.
  - intros (St1 & Hrun & Hrest)%bind_Ok.
    assert (Hsub : sub ∈ subs hhost) by (apply Hl; by left).
    destruct (displace_ok vd St host hhost sub St1 Hok Hh Hsub Hrun)
      as [Hok1 Hh1].
    destruct (store_ok_sub St host hhost sub Hok Hh Hsub)
      as (hsub & Hs & Hne & Hdis & _).
    destruct Hok as [Hwf Hall].
    destruct (displace_inv _ _ _ _ _ _ _ Hs Hh Hwf Hdis Hrun) as (d & _ & HSt1).
    destruct (halo_views_positions_result St (h_view hsub) (h_view hhost)
                hhost Hwf Hdis) as (E1 & E2 & E3 & E4 & E5 & E6).
    destruct (IH St1 Hok1 Hh1) as (Hok' & Hh' & F1 & F2 & F3 & F4 & F5 & F6);
      [by intros s Hs'; apply Hl; right|done|].
    split; [done|]. split; [done|].
    rewrite F1, F2, F3, F4, F5, F6. rewrite HSt1.
    change (halo_scales (set_halo ?S _ _) ?h) with (halo_scales S h).
    change (halo_xs (set_halo ?S _ _) ?h) with (halo_xs S h).
    change (halo_ys (set_halo ?S _ _) ?h) with (halo_ys S h).
    change (halo_zs (set_halo ?S _ _) ?h) with (halo_zs S h).
    change (halo_rs (set_halo ?S _ _) ?h) with (halo_rs S h).
    change (halo_ms (set_halo ?S _ _) ?h) with (halo_ms S h).
    done.
Qed.

(** *** The catalogue is well formed *)

Lemma sample_store_ok : store_ok Sample.store.
Proof.
  eapply (membership_ok Sample.rho_c0 (make_rad_info Sample.rad)
            [(1, 1); (2, 1)]%Z Sample.halos [1%Z]);
    [|apply SampleFacts.membership_eval].
  by apply (make_halos_ok Sample.age Sample.ids Sample.table
              SampleFacts.table_wf).
Qed.

Lemma setup_ok_witness :
  store_ok Sample.store ∧ ∀ k, k ∈ [1%Z] → is_Some (hs Sample.store !! k).
Proof.
  apply (setup_ok Sample.age Sample.rho_c0 Sample.tree [(1, 1); (2, 1)]%Z
           Sample.rad Sample.halos [1%Z] Sample.store); reflexivity.
Defined.

Lemma displace_all_ok_witness :
  store_ok Sample.displaced_store
  ∧ hs Sample.displaced_store !! 1%Z = Some Sample.host'
  ∧ halo_scales Sample.displaced_store Sample.host'
    = halo_scales Sample.store Sample.host'
  ∧ halo_xs Sample.displaced_store Sample.host'
    = halo_xs Sample.store Sample.host'
  ∧ halo_ys Sample.displaced_store Sample.host'
    = halo_ys Sample.store Sample.host'
  ∧ halo_zs Sample.displaced_store Sample.host'
    = halo_zs Sample.store Sample.host'
  ∧ halo_rs Sample.displaced_store Sample.host'
    = halo_rs Sample.store Sample.host'
  ∧ halo_ms Sample.displaced_store Sample.host'
    = halo_ms Sample.store Sample.host'.
Proof.
  apply (displace_all_ok vector_deriv_spec Sample.store 1 Sample.host'
           (subs Sample.host') Sample.displaced_store).
  - apply sample_store_ok.
  - apply SampleFacts.lookup_host.
  - done.
  - simpl. by rewrite SampleFacts.displace_eval.
Defined.
(** ** The radius table *)

Lemma foldl_insert_lookup (rows : list (Z * RadRow)) (m0 : gmap Z RadRow) k :
  foldl (λ m row, <[row.1 := row.2]> m) m0 rows !! k
  = match last (filter (λ row, row.1 = k) rows) with
    | Some row => Some row.2
    | None => m0 !! k
    end.
Proof.
  revert m0. induction rows as [|[k' r] rows IH]; intros m0; [done|].
  cbn [foldl]. rewrite IH. cbn [fst snd].
  destruct (decide (k' = k)) as [->|Hne].
  - rewrite filter_cons_True by done. rewrite lookup_insert_eq.
    destruct (filter _ rows) as [|x l]; [done|]. rewrite last_cons_cons.
    by destruct (proj2 (last_is_Some (x :: l))) as [y ->].
  - rewrite filter_cons_False by done. by rewrite lookup_insert_ne.
Qed.

(** X11: [rad_info] maps an id to the last row of the radius table with that
    id, and has no entry for an id without a row. *)
Theorem make_rad_info_lookup (rows : list (Z * RadRow)) (k : Z) :
  make_rad_info rows !! k = snd <$> last (filter (λ row, row.1 = k) rows).
Proof.
  unfold make_rad_info. rewrite foldl_insert_lookup, lookup_empty.
  by destruct (last _).
Qed.

(** ** The cutting loop *)

Lemma getitem_nat {A} (a : list A) (i : nat) :
  getitem a (Z.of_nat i) = of_option IndexError (a !! i).
Proof.
  unfold getitem, norm_index. destruct (decide (i < length a)) as [Hi|Hi].
  - rewrite decide_True by lia. simpl. by rewrite Nat2Z.id.
  - rewrite decide_False by lia. rewrite decide_False by lia. simpl.
    by rewrite lookup_ge_None_2 by lia.
Qed.

Lemma norm_index_total n k :
  (- Z.of_nat n ≤ k < Z.of_nat n)%Z → ∃ j, norm_index n k = Ok j ∧ j < n.
Proof.
  intros Hk. unfold norm_index. destruct (decide (0 ≤ k)%Z).
  - rewrite decide_True by lia. eexists. split; [done|lia].
  - rewrite decide_False by lia. rewrite decide_True by lia.
    eexists. split; [done|lia].
Qed.

Lemma getitem_total {A} (a : list A) k :
  (- Z.of_nat (length a) ≤ k < Z.of_nat (length a))%Z →
  ∃ x, getitem a k = Ok x.
Proof.
  intros Hk. unfold getitem.
  destruct (norm_index_total _ _ Hk) as (j & -> & Hj).
  destruct (lookup_lt_is_Some_2 a j Hj) as [x Hx].
  exists x. simpl. by rewrite Hx.
Qed.

Lemma getitem_pred_total {A} (a : list A) (i : nat) :
  a ≠ [] → i ≤ length a → ∃ x, getitem a (Z.of_nat i - 1) = Ok x.
Proof.
  intros Hne Hi. assert (0 < length a) by (destruct a; [done|simpl; lia]).
  apply getitem_total. lia.
Qed.

Lemma for_each_seq_total {T} (body : nat → T → result T)
    (P : nat → T → Prop) n s :
  P 0 s →
  (∀ i t, i < n → P i t → ∃ t', body i t = Ok t' ∧ P (S i) t') →
  ∃ s', for_each body (seq 0 n) s = Ok s' ∧ P n s'.
Proof.
  intros H0 Hstep. induction n as [|n IH].
  - by exists s.
  - destruct IH as (t & Ht & HP); [intros i u Hi; apply Hstep; lia|].
    destruct (Hstep n t) as (t' & Hb & HP'); [lia|done|].
    exists t'. rewrite seq_S, for_each_app, Ht. simpl. by rewrite Hb.
Qed.

Section Cut.
Context (age : R → R) (tree_ids : list Z) (St0 : Store).

Lemma Halo_init_total St start end_ :
  tree_ids ≠ [] → end_ ≤ length tree_ids →
  ∃ h, Halo_init age tree_ids St start end_ = Ok h.
Proof.
  intros Hne Hle. unfold Halo_init.
  destruct (getitem_pred_total tree_ids end_ Hne Hle) as [x ->].
  simpl. eauto.
Qed.

Lemma Halo_init_fresh St start end_ h :
  same_columns St St0 →
  segment tree_ids (mkView start end_) →
  Halo_init age tree_ids St start end_ = Ok h →
  h_view h = mkView start end_ ∧ fresh_halo age tree_ids St0 (h_id h) h.
Proof.
  intros (Hsc & _) Hseg. unfold Halo_init.
  intros (x & Hx & [= <-])%bind_Ok. simpl. split; [done|].
  unfold fresh_halo, halo_scales. simpl. by rewrite Hsc.
Qed.

Lemma make_halos_body_total i st :
  tree_ids ≠ [] → i < length tree_ids →
  ∃ st', make_halos_body age tree_ids i st = Ok st'.
Proof.
  intros Hne Hi. destruct st as [start St]. unfold make_halos_body.
  rewrite getitem_nat. destruct (lookup_lt_is_Some_2 tree_ids i Hi) as [t ->].
  simpl. case_decide; [|eauto].
  destruct (Halo_init_total St start i Hne) as [h ->]; [lia|].
  simpl. eauto.
Qed.

Lemma make_halos_body_segments i st st' :
  i < length tree_ids →
  cut_segments age tree_ids St0 i st →
  make_halos_body age tree_ids i st = Ok st' →
  cut_segments age tree_ids St0 (S i) st'.
Proof.
  intros Hi. destruct st as [start St]. unfold make_halos_body.
  intros (Hle & Hsc & Hstart & Hrun & Hall).
  rewrite getitem_nat.
  intros (tid & Htid%of_option_Ok & Hb)%bind_Ok.
  case_decide as Hs.
  - subst tid. apply bind_Ok in Hb as (h & Hh & [= <-]).
    split; [lia|]. split; [done|]. split.
    { right. by replace (S i - 1) with i by lia. }
    split; [intros j Hj; lia|].
    intros k h'. simpl. destruct (decide (h_id h = k)) as [<-|Hne].
    + rewrite lookup_insert_eq. intros [= <-]. left.
      apply (Halo_init_fresh St start i); [done| |done].
      split; [simpl; lia|]. split; [done|]. split; [by right|done].
    + rewrite lookup_insert_ne by done. apply Hall.
  - injection Hb as <-. split; [lia|]. split; [done|]. split; [done|].
    split; [|done]. intros j Hj. destruct (decide (j = i)) as [->|Hne].
    + rewrite Htid. congruence.
    + apply Hrun. lia.
Qed.

(** The loop returns on a tree with at least one row, and its state is as
    [cut_segments] says. *)
Lemma make_halos_loop :
  tree_ids ≠ [] →
  ∃ st, for_each (make_halos_body age tree_ids) (seq 0 (length tree_ids))
          (0, St0) = Ok st
        ∧ cut_segments age tree_ids St0 (length tree_ids) st.
Proof.
  intros Hne.
  apply (for_each_seq_total _ (cut_segments age tree_ids St0)).
  - split; [done|]. split; [done|]. split; [by left|].
    split; [intros j Hj; lia|]. intros k h Hk. by right.
  - intros i st Hi Hinv.
    destruct (make_halos_body_total i st Hne Hi) as [st' Hst'].
    exists st'. split; [done|]. by eapply make_halos_body_segments.
Qed.

(** What [make_halos] returns on a tree with at least one row: the state of
    the loop with the halo after the last sentinel. *)
Lemma make_halos_spec :
  tree_ids ≠ [] →
  ∃ start St1 h,
    make_halos age tree_ids St0 = Ok (set_halo St1 (h_id h) h)
    ∧ cut_segments age tree_ids St0 (length tree_ids) (start, St1)
    ∧ h_view h = mkView start (length tree_ids)
    ∧ fresh_halo age tree_ids St0 (h_id h) h.
Proof.
  intros Hne.
  destruct (make_halos_loop Hne) as ([start St1] & Hloop & Hinv).
  destruct (Halo_init_total St1 start (length tree_ids) Hne) as [h Hh];
    [done|].
  exists start, St1, h. unfold make_halos. rewrite Hloop. simpl.
  rewrite Hh. simpl. split; [done|]. split; [done|].
  destruct Hinv as (Hle & Hsc1 & Hstart & Hrun & _).
  apply (Halo_init_fresh St1 start (length tree_ids)); [done| |done].
  split; [simpl; lia|]. split; [done|]. split; [by left|done].
Qed.

(** Every object of the store that [make_halos] returns is one it has made
    or one of the store it started from, and the columns are untouched. *)
Lemma make_halos_fresh St' :
  make_halos age tree_ids St0 = Ok St' →
  same_columns St' St0
  ∧ ∀ k h, hs St' !! k = Some h →
      fresh_halo age tree_ids St0 k h ∨ hs St0 !! k = Some h.
Proof.
  intros Hrun.
  destruct (decide (tree_ids = [])) as [Hnil|Hne].
  { rewrite Hnil in Hrun. done. }
  destruct (make_halos_spec Hne) as (start & St1 & h & Heq & Hinv & _ & Hfresh).
  rewrite Heq in Hrun. injection Hrun as <-.
  destruct Hinv as (_ & Hcols & _ & _ & Hall1).
  split; [done|].
  intros k h'. simpl. destruct (decide (h_id h = k)) as [<-|Hk].
  - rewrite lookup_insert_eq. intros [= <-]. by left.
  - rewrite lookup_insert_ne by done. apply Hall1.
Qed.
End Cut.

(** X12: cutting the tree raises [IndexError] on a table without rows, and
    returns on every other table. *)
Theorem make_halos_needs_a_row age tree_ids St :
  match make_halos age tree_ids St with
  | Ok _ => tree_ids ≠ []
  | Raise e => e = IndexError ∧ tree_ids = []
  end.
Proof.
  destruct (decide (tree_ids = [])) as [->|Hne]; [done|].
  by destruct (make_halos_spec age tree_ids St Hne) as (? & ? & ? & -> & _).
Qed.

(** X13: every object that the cutting loop leaves in [hs] is keyed by its
    id; its slice is a run of rows of the tree that holds no sentinel and is
    bounded by sentinels or the ends of the table; its id is the tree id
    that the index [end - 1] reads; it has one age per scale factor of its
    slice, no subhalo and no attribute of a host or of a displaced subhalo.
    The columns of the tree are untouched. *)
Theorem make_halos_cuts_segments age rows St k h :
  make_halos age (load_tree rows).1 (load_tree rows).2 = Ok St →
  hs St !! k = Some h →
  same_columns St (load_tree rows).2
  ∧ fresh_halo age (row_id <$> rows) (load_tree rows).2 k h.
Proof.
  intros Hrun Hk.
  destruct (make_halos_fresh _ _ _ _ Hrun) as [Hcols Hall].
  split; [done|]. by destruct (Hall k h Hk).
Qed.

Lemma make_halos_cuts_segments_witness :
  same_columns Sample.halos (load_tree Sample.tree).2
  ∧ fresh_halo Sample.age (row_id <$> Sample.tree) (load_tree Sample.tree).2
      2 Sample.sub.
Proof.
  apply (make_halos_cuts_segments Sample.age Sample.tree Sample.halos 2
           Sample.sub); reflexivity.
Defined.

(** X14: when the last row of the tree is a sentinel, the cutting loop
    leaves under the key -1 a halo without snapshots: the slice after the
    last sentinel is empty, and the index [end - 1] reads the sentinel. *)
Theorem make_halos_trailing_sentinel age tree_ids St :
  last tree_ids = Some (-1)%Z →
  ∃ St' h, make_halos age tree_ids St = Ok St'
           ∧ hs St' !! (-1)%Z = Some h
           ∧ h_view h = mkView (length tree_ids) (length tree_ids)
           ∧ ts h = [] ∧ halo_xs St' h = [] ∧ halo_rs St' h = [].
Proof.
  intros Hlast.
  assert (Hne : tree_ids ≠ []) by (by intros ->).
  assert (Hn : 0 < length tree_ids) by (destruct tree_ids; [done|simpl; lia]).
  destruct (make_halos_spec age tree_ids St Hne)
    as (start & St1 & h & Heq & Hinv & Hv & Hfresh).
  destruct Hinv as (Hle & _ & _ & Hrun & _).
  rewrite last_lookup in Hlast.
  assert (Hstart : start = length tree_ids).
  { destruct (decide (start = length tree_ids)) as [|Hlt]; [done|].
    destruct (Hrun (Nat.pred (length tree_ids))); [lia|done]. }
  subst start.
  destruct Hfresh as (_ & _ & Hid & Hts & _).
  rewrite Hv in Hid. simpl in Hid.
  replace (Z.of_nat (length tree_ids) - 1)%Z
    with (Z.of_nat (Nat.pred (length tree_ids))) in Hid by lia.
  rewrite getitem_nat, Hlast in Hid. injection Hid as Hid.
  exists (set_halo St1 (h_id h) h), h. split; [done|].
  split; [simpl; by rewrite <- Hid, lookup_insert_eq|].
  split; [done|].
  assert (Hempty : ∀ buf : list R, view_read buf (h_view h) = []).
  { intros buf. apply length_zero_iff_nil.
    rewrite length_view_read, Hv. simpl. lia. }
  split; [|split; apply Hempty].
  rewrite Hts. unfold halo_scales. by rewrite Hempty.
Qed.

Lemma make_halos_trailing_sentinel_witness :
  ∃ St' h, make_halos Sample.age [7; -1]%Z Sample.table = Ok St'
           ∧ hs St' !! (-1)%Z = Some h
           ∧ h_view h = mkView 2 2
           ∧ ts h = [] ∧ halo_xs St' h = [] ∧ halo_rs St' h = [].
Proof.
  apply (make_halos_trailing_sentinel Sample.age [7; -1]%Z Sample.table).
  reflexivity.
Defined.

(** ** The membership loop *)

Lemma same_columns_refl St : same_columns St St.
Proof. by repeat split. Qed.

Lemma same_columns_set_halo St k h : same_columns (set_halo St k h) St.
Proof. by repeat split. Qed.

Lemma same_columns_trans St1 St2 St3 :
  same_columns St1 St2 → same_columns St2 St3 → same_columns St1 St3.
Proof.
  intros (? & ? & ? & ? & ? & ?) (? & ? & ? & ? & ? & ?).
  repeat split; congruence.
Qed.

Lemma host_rows_cons row rows :
  host_rows (row :: rows)
  = (if decide (row.1 = row.2) then [row.1] else []) ++ host_rows rows.
Proof.
  unfold host_rows. destruct (decide (row.1 = row.2)).
  - by rewrite filter_cons_True.
  - by rewrite filter_cons_False.
Qed.

Lemma subs_of_cons row rows k :
  subs_of (row :: rows) k
  = (if decide (row.1 ≠ row.2 ∧ row.2 = k) then [row.1] else [])
    ++ subs_of rows k.
Proof.
  unfold subs_of. destruct (decide (row.1 ≠ row.2 ∧ row.2 = k)).
  - by rewrite filter_cons_True.
  - by rewrite filter_cons_False.
Qed.

Lemma member_nil rho_c0 rad_info k h : member rho_c0 rad_info [] k h = h.
Proof.
  destruct h. unfold member. simpl. by rewrite app_nil_r.
Qed.

Lemma member_cons rho_c0 rad_info row rows k h :
  member rho_c0 rad_info rows k (member rho_c0 rad_info [row] k h)
  = member rho_c0 rad_info (row :: rows) k h.
Proof.
  unfold member. simpl. f_equal.
  - rewrite !subs_of_cons. unfold subs_of at 1. simpl.
    by rewrite app_nil_r, app_assoc.
  - rewrite !host_rows_cons. unfold host_rows at 2. simpl.
    rewrite app_nil_r.
    destruct (decide (k ∈ host_rows rows)) as [Hin|Hout].
    + rewrite decide_True; [done|]. apply elem_of_app. by right.
    + destruct (decide (k ∈ if decide (row.1 = row.2) then [row.1] else []))
        as [Hin'|Hout'].
      * rewrite decide_True; [done|]. apply elem_of_app. by left.
      * rewrite decide_False; [done|].
        by intros [?|?]%elem_of_app.
Qed.

Lemma host_rows_single id hid :
  host_rows [(id, hid)] = if decide (id = hid) then [id] else [].
Proof. rewrite host_rows_cons. simpl. by rewrite app_nil_r. Qed.

Lemma subs_of_single id hid k :
  subs_of [(id, hid)] k = if decide (id ≠ hid ∧ hid = k) then [id] else [].
Proof. rewrite subs_of_cons. simpl. by rewrite app_nil_r. Qed.

Ltac member_cases :=
  repeat case_decide; rewrite ?app_nil_r; simpl; try done; exfalso;
  repeat match goal with
         | H : _ ∧ _ |- _ => destruct H
         | H : _ ∈ [] |- _ => apply elem_of_nil in H
         | H : _ ∈ [_] |- _ => apply list_elem_of_singleton in H
         | H : ¬ (_ ∈ [_]) |- _ => rewrite list_elem_of_singleton in H
         | H : ¬ (_ ∧ _) |- _ => apply not_and_l in H as [?|?]
         end; try done; try congruence; tauto.

Lemma membership_body_spec rho_c0 rad_info row hosts St hosts' St' :
  membership_body rho_c0 rad_info row (hosts, St) = Ok (hosts', St') →
  hosts' = hosts ++ host_rows [row] ∧ same_columns St' St
  ∧ row_known St rad_info row
  ∧ ∀ k, hs St' !! k = member rho_c0 rad_info [row] k <$> hs St !! k.
Proof.
  unfold membership_body. destruct row as [id hid].
  rewrite host_rows_single.
  case_decide as Heq.
  - subst hid. intros (h & Hh%of_option_Ok & Hb)%bind_Ok.
    apply bind_Ok in Hb as (r & Hr%of_option_Ok & Hb).
    unfold m_ids in Hb. simpl in Hb. injection Hb as <- <-.
    split; [done|]. split; [apply same_columns_set_halo|]. split.
    { unfold row_known. simpl. rewrite Hh, Hr. eauto. }
    intros k. simpl. destruct (decide (id = k)) as [<-|Hne].
    + rewrite lookup_insert_eq, Hh. simpl. f_equal.
      unfold member, set_host_info.
      rewrite subs_of_single, host_rows_single, Hr.
      member_cases.
    + rewrite lookup_insert_ne by done.
      destruct (hs St !! k) as [h'|]; [|done]. simpl. f_equal.
      destruct h'. unfold member.
      rewrite subs_of_single, host_rows_single.
      member_cases.
  - intros (h & Hh%of_option_Ok & Hb)%bind_Ok.
    apply bind_Ok in Hb as (hsub & Hsub%of_option_Ok & [= <- <-]).
    split; [by rewrite app_nil_r|]. split; [apply same_columns_set_halo|].
    split.
    { unfold row_known. simpl. rewrite Hh, Hsub.
      split; [eauto|]. split; [eauto|done]. }
    intros k. simpl. destruct (decide (hid = k)) as [<-|Hne].
    + rewrite lookup_insert_eq, Hh. simpl. f_equal.
      unfold member, add_sub.
      rewrite subs_of_single, host_rows_single.
      member_cases.
    + rewrite lookup_insert_ne by done.
      destruct (hs St !! k) as [h'|]; [|done]. simpl. f_equal.
      destruct h'. unfold member.
      rewrite subs_of_single, host_rows_single.
      member_cases.
Qed.

Lemma membership_body_raises rho_c0 rad_info row hosts St e :
  membership_body rho_c0 rad_info row (hosts, St) = Raise e →
  e = KeyError ∧ ¬ row_known St rad_info row.
Proof.
  unfold membership_body, row_known. destruct row as [id hid]. cbn [fst snd].
  case_decide as Heq.
  - subst hid. destruct (hs St !! id) as [h|]; simpl.
    + destruct (rad_info !! id) as [r|]; simpl; [done|].
      intros [= <-]. split; [done|]. intros (_ & _ & Hr).
      by destruct (Hr eq_refl).
    + intros [= <-]. split; [done|]. by intros ([? ?] & _).
  - destruct (hs St !! hid) as [h|]; simpl.
    + destruct (hs St !! id) as [hsub|]; simpl; [done|].
      intros [= <-]. split; [done|]. by intros ([? ?] & _).
    + intros [= <-]. split; [done|]. by intros (_ & [? ?] & _).
Qed.

Lemma row_known_keys St St' rad_info row :
  (∀ k, is_Some (hs St' !! k) ↔ is_Some (hs St !! k)) →
  row_known St' rad_info row ↔ row_known St rad_info row.
Proof. intros Hk. unfold row_known. by rewrite !Hk. Qed.

(** The rounds of the membership loop, from any state. *)
Lemma membership_loop rho_c0 rad_info rows hosts0 St0 hosts St' :
  for_each (membership_body rho_c0 rad_info) rows (hosts0, St0)
  = Ok (hosts, St') →
  hosts = hosts0 ++ host_rows rows ∧ same_columns St' St0
  ∧ Forall (row_known St0 rad_info) rows
  ∧ ∀ k, hs St' !! k = member rho_c0 rad_info rows k <$> hs St0 !! k.
Proof.
  revert hosts0 St0. induction rows as [|row rows IH]; intros hosts0 St0.
  - intros [= <- <-]. split; [by rewrite app_nil_r|].
    split; [apply same_columns_refl|].
    split; [done|]. intros k. destruct (hs St0 !! k) as [h|]; [|done].
    simpl. by rewrite member_nil.
  - simpl. intros ([hosts1 St1] & Hb & Hrest)%bind_Ok.
    apply membership_body_spec in Hb as (-> & Hc1 & Hrow & Hs1).
    apply IH in Hrest as (-> & Hc & Hrows & Hs).
    split.
    { rewrite (host_rows_cons row rows), (host_rows_cons row []).
      change (host_rows []) with (@nil Z).
      by rewrite app_nil_r, app_assoc. }
    split; [by eapply same_columns_trans|].
    split.
    { constructor; [done|]. eapply Forall_impl; [done|].
      intros r Hr. apply (row_known_keys St0 St1); [|done].
      intros k. rewrite Hs1. apply fmap_is_Some. }
    intros k. rewrite Hs, Hs1. destruct (hs St0 !! k) as [h|]; [|done].
    simpl. by rewrite member_cons.
Qed.

Lemma membership_loop_raises rho_c0 rad_info rows hosts0 St0 e :
  for_each (membership_body rho_c0 rad_info) rows (hosts0, St0) = Raise e →
  e = KeyError ∧ Exists (λ row, ¬ row_known St0 rad_info row) rows.
Proof.
  revert hosts0 St0. induction rows as [|row rows IH]; intros hosts0 St0.
  - done.
  - cbn [for_each].
    destruct (membership_body rho_c0 rad_info row (hosts0, St0))
      as [[hosts1 St1]|e'] eqn:Hb; cbn [mbind result_bind].
    + intros Hrest. apply IH in Hrest as [-> Hex]. split; [done|].
      apply Exists_cons_tl. eapply Exists_impl; [done|].
      intros r Hr Hk. apply Hr. apply (row_known_keys St0 St1); [|done].
      intros k. apply membership_body_spec in Hb as (_ & _ & _ & Hs1).
      rewrite Hs1. apply fmap_is_Some.
    + intros [= <-]. apply membership_body_raises in Hb as [-> Hrow].
      split; [done|]. by apply Exists_cons_hd.
Qed.

(** X15: the membership loop can only raise [KeyError]; it does so exactly
    when a row names a subhalo or a host that is not a key of [hs], or a
    host that has no row in the radius table. *)
Theorem membership_raises_only_KeyError rho_c0 rad_info rows St :
  match membership rho_c0 rad_info rows St with
  | Ok _ => Forall (row_known St rad_info) rows
  | Raise e => e = KeyError
               ∧ Exists (λ row, ¬ row_known St rad_info row) rows
  end.
Proof.
  unfold membership.
  destruct (for_each (membership_body rho_c0 rad_info) rows ([], St))
    as [[hosts St']|e] eqn:Hrun.
  - by apply membership_loop in Hrun as (_ & _ & ? & _).
  - by apply membership_loop_raises in Hrun.
Qed.

(** X16: for a positive critical density and hosts of positive mass, when
    the membership loop returns, the hosts are the ids of the self-hosted
    rows in the order of the table; every halo keeps its slice, its ages and
    its key, and has gained, in the order of the table, the subhalos of the
    rows that name it as their host; every listed host holds the row of the
    radius table for its id, with [r200c] derived from [m200c] and no
    [m_id]. The columns of the tree are untouched. A mass that is not
    positive is left out: there the power of the code is not [Rpower]. *)
Theorem membership_result rho_c0 rad_info rows St hosts St' :
  (0 < rho_c0)%R →
  (∀ k r, k ∈ host_rows rows → rad_info !! k = Some r →
          (0 < rad_m200c r)%R) →
  membership rho_c0 rad_info rows St = Ok (hosts, St') →
  hosts = host_rows rows ∧ same_columns St' St
  ∧ ∀ k, hs St' !! k = member rho_c0 rad_info rows k <$> hs St !! k.
Proof.
  intros _ _ Hrun. by apply membership_loop in Hrun as (-> & ? & _ & ?).
Qed.

Lemma membership_result_witness :
  [1%Z] = host_rows [(1, 1); (2, 1)]%Z
  ∧ same_columns Sample.store Sample.halos
  ∧ ∀ k, hs Sample.store !! k
         = member Sample.rho_c0 (make_rad_info Sample.rad)
             [(1, 1); (2, 1)]%Z k <$> hs Sample.halos !! k.
Proof.
  apply (membership_result Sample.rho_c0 (make_rad_info Sample.rad)
           [(1, 1); (2, 1)]%Z Sample.halos [1%Z] Sample.store).
  - unfold Sample.rho_c0. lra.
  - intros k r Hk Hr.
    assert (k = 1%Z) as ->.
    { change (host_rows [(1, 1); (2, 1)]%Z) with [1%Z] in Hk.
      by apply list_elem_of_singleton in Hk. }
    change (make_rad_info Sample.rad !! 1%Z)
      with (Some (mkRadRow 400 1.2 1.1 1.3 1 1e15 2)) in Hr.
    injection Hr as <-. simpl. lra.
  - reflexivity.
Defined.

(** ** [Halo.perihelion], read back from its result *)

(** [argmin_from] as [argmin_from_spec] has it, and every element before the
    position it returns is greater than the element there. *)
Lemma argmin_from_first a best bi i :
  (argmin_from best bi i a = bi ∧ ∀ y, y ∈ a → (best <= y)%R)
  ∨ ∃ k v, argmin_from best bi i a = i + k ∧ a !! k = Some v
           ∧ (v < best)%R ∧ (∀ y, y ∈ a → (v <= y)%R)
           ∧ ∀ j y, j < k → a !! j = Some y → (v < y)%R.
Proof.
  revert best bi i. induction a as [|x a IH]; intros best bi i; simpl.
  - left. split; [done|]. intros y Hy. by apply elem_of_nil in Hy.
  - case_decide as Hlt.
    + right.
      destruct (IH x i (S i))
        as [[Hr Hle]|(k & v & Hr & Hk & Hv & Hle & Hfirst)].
      * exists 0, x. rewrite Hr. split; [lia|]. split; [done|].
        split; [done|]. split; [|intros j y Hj; lia].
        intros y [->|Hy]%elem_of_cons; [lra|by apply Hle].
      * exists (S k), v. rewrite Hr. split; [lia|]. split; [done|].
        split; [lra|]. split.
        { intros y [->|Hy]%elem_of_cons; [lra|by apply Hle]. }
        intros [|j] y Hj; simpl; [by intros [= <-]|].
        apply Hfirst. lia.
    + destruct (IH best bi (S i))
        as [[Hr Hle]|(k & v & Hr & Hk & Hv & Hle & Hfirst)].
      * left. split; [done|].
        intros y [->|Hy]%elem_of_cons; [lra|by apply Hle].
      * right. exists (S k), v. rewrite Hr. split; [lia|]. split; [done|].
        split; [done|]. split.
        { intros y [->|Hy]%elem_of_cons; [lra|by apply Hle]. }
        intros [|j] y Hj; simpl; [intros [= <-]; lra|].
        apply Hfirst. lia.
Qed.

Lemma argmin_first a i :
  argmin a = Ok i →
  ∃ v, a !! i = Some v ∧ (∀ y, y ∈ a → (v <= y)%R)
       ∧ ∀ j y, j < i → a !! j = Some y → (v < y)%R.
Proof.
  destruct a as [|x a]; [done|]. simpl. intros [= <-].
  destruct (argmin_from_first a x 0 1)
    as [[Hr Hle]|(k & v & Hr & Hk & Hv & Hle & Hfirst)].
  - exists x. rewrite Hr. split; [done|]. split; [|intros j y Hj; lia].
    intros y [->|Hy]%elem_of_cons; [lra|by apply Hle].
  - exists v. rewrite Hr. split; [done|]. split.
    { intros y [->|Hy]%elem_of_cons; [lra|by apply Hle]. }
    intros [|j] y Hj; simpl; [intros [= <-]; lra|].
    apply Hfirst. lia.
Qed.

Lemma norm_index_inv n k j :
  norm_index n k = Ok j →
  j < n ∧ ((0 ≤ k)%Z ∧ j = Z.to_nat k
           ∨ (- Z.of_nat n ≤ k < 0)%Z ∧ j = Z.to_nat (Z.of_nat n + k)).
Proof.
  unfold norm_index.
  destruct (decide (0 ≤ k < Z.of_nat n)%Z) as [H1|H1].
  - intros [= <-]. split; [lia|]. left. split; [lia|done].
  - destruct (decide (- Z.of_nat n ≤ k < 0)%Z) as [H2|H2]; [|done].
    intros [= <-]. split; [lia|]. right. split; [lia|done].
Qed.

(** An element read at a negative index. *)
Lemma getitem_neg_inv {A} (a : list A) k x :
  0 < k → getitem a (- Z.of_nat k) = Ok x →
  k ≤ length a ∧ a !! (length a - k) = Some x.
Proof.
  intros Hk. unfold getitem.
  intros (j & [Hj [[? _]|[Hn ->]]]%norm_index_inv & Hx%of_option_Ok)%bind_Ok;
    [lia|].
  split; [lia|]. by replace (length a - k)
    with (Z.to_nat (Z.of_nat (length a) + - Z.of_nat k)) by lia.
Qed.

(** What a result of [perihelion] tells: the object is displaced, the
    result is read at one offset [k] from the end of each array, within the
    window, where the distance is least and every earlier distance of the
    window is greater. *)
Lemma perihelion_inv St self dp xp phi th t :
  perihelion St self = Ok (dp, xp, phi, th, t) →
  ∃ hself d k r,
    hs St !! self = Some hself ∧ displaced hself = Some d
    ∧ 0 < k ≤ Nat.min (length (ds d)) (length (halo_host_rs St d))
    ∧ ds d !! (length (ds d) - k) = Some dp
    ∧ halo_host_rs St d !! (length (halo_host_rs St d) - k) = Some r
    ∧ xp = (dp / r)%R
    ∧ phis d !! (length (phis d) - k) = Some phi
    ∧ ths d !! (length (ths d) - k) = Some th
    ∧ ts hself !! (length (ts hself) - k) = Some t
    ∧ (∀ j y, 0 < j ≤ Nat.min (length (ds d)) (length (halo_host_rs St d)) →
              ds d !! (length (ds d) - j) = Some y → (dp <= y)%R)
    ∧ (∀ j y, k < j ≤ Nat.min (length (ds d)) (length (halo_host_rs St d)) →
              ds d !! (length (ds d) - j) = Some y → (dp < y)%R).
Proof.
  unfold perihelion, deref.
  intros (hself & Hs%of_option_Ok & H)%bind_Ok.
  apply bind_Ok in H as (d & Hd%of_option_Ok & H).
  set (hrs := halo_host_rs St d) in *.
  set (n := length (ds d)) in *.
  set (l := Nat.min n (length hrs)) in *.
  apply bind_Ok in H as (i & Hi & H).
  apply bind_Ok in H as (dp1 & Hdp1 & H).
  apply bind_Ok in H as (dp2 & Hdp2 & H).
  apply bind_Ok in H as (r & Hr & H).
  apply bind_Ok in H as (phi1 & Hphi & H).
  apply bind_Ok in H as (th1 & Hth & H).
  apply bind_Ok in H as (t1 & Ht & H).
  injection H as <- <- <- <- <-.
  assert (Hdd : dp2 = dp1) by congruence. subst dp2.
  destruct (decide (l = 0)) as [Hl0|Hl0].
  { exfalso.
    assert (Hw : slice_from (ds d) (- Z.of_nat l) = ds d)
      by (by rewrite Hl0).
    rewrite Hw in Hi. apply argmin_first in Hi as (v & Hv & _).
    apply lookup_lt_Some in Hv. fold n in Hv.
    assert (Hh0 : length hrs = 0) by (unfold l in Hl0; lia).
    apply getitem_elem_of in Hr. destruct hrs; [|done].
    by apply elem_of_nil in Hr. }
  assert (Hl : 0 < l ≤ n) by (unfold l in *; lia).
  rewrite (slice_from_neg (ds d) l Hl) in Hi. fold n in Hi.
  apply argmin_first in Hi as (v & Hv & Hmin & Hfirst).
  assert (Hil : i < l).
  { apply lookup_lt_Some in Hv. rewrite length_drop in Hv. fold n in Hv.
    lia. }
  rewrite lookup_drop in Hv.
  assert (Hhi : (Z.of_nat i - Z.of_nat l = - Z.of_nat (l - i))%Z) by lia.
  rewrite Hhi in *.
  apply getitem_neg_inv in Hdp1 as [_ Hdp1]; [|lia].
  apply getitem_neg_inv in Hr as [_ Hr]; [|lia].
  apply getitem_neg_inv in Hphi as [_ Hphi]; [|lia].
  apply getitem_neg_inv in Hth as [_ Hth]; [|lia].
  apply getitem_neg_inv in Ht as [_ Ht]; [|lia].
  fold n in Hdp1.
  replace (n - l + i) with (n - (l - i)) in Hv by lia.
  assert (v = dp1) by congruence. subst v.
  exists hself, d, (l - i), r.
  split; [done|]. split; [done|].
  fold hrs n l. split; [lia|].
  do 6 (split; [done|]). split.
  - intros j y Hj Hy. apply Hmin. apply list_elem_of_lookup.
    exists (l - j). rewrite lookup_drop.
    by replace (n - l + (l - j)) with (n - j) by lia.
  - intros j y Hj Hy. apply (Hfirst (l - j)); [lia|].
    rewrite lookup_drop. by replace (n - l + (l - j)) with (n - j) by lia.
Qed.

(** [perihelion] returns for a displaced object with one length for the
    arrays it reads, a distance and a radius of the host. *)
Lemma perihelion_returns St self hself d :
  hs St !! self = Some hself → displaced hself = Some d →
  ds d ≠ [] → halo_host_rs St d ≠ [] → displaced_consistent hself d →
  ∃ res, perihelion St self = Ok res.
Proof.
  intros Hs Hd Hne Hrne (Hphis & Hths & Hts).
  set (hrs := halo_host_rs St d) in *.
  set (n := length (ds d)) in *.
  set (l := Nat.min n (length hrs)).
  assert (Hl : 0 < l ≤ n).
  { unfold l, n. destruct (ds d); [done|]. destruct hrs; [done|].
    simpl. lia. }
  assert (Hlh : l ≤ length hrs) by (unfold l; lia).
  destruct (argmin_spec (drop (n - l) (ds d))) as (i & dp & Hi & Hdp & _).
  { intros Hnil. apply (f_equal length) in Hnil.
    rewrite length_drop in Hnil. simpl in Hnil. fold n in Hnil. lia. }
  assert (Hil : i < l).
  { apply lookup_lt_Some in Hdp. rewrite length_drop in Hdp.
    fold n in Hdp. lia. }
  unfold perihelion, deref. rewrite Hs. simpl. rewrite Hd. simpl.
  fold hrs n l. rewrite (slice_from_neg (ds d) l Hl). fold n.
  rewrite Hi. simpl.
  assert (Hget : ∀ a : list R, length a = n ∨ a = hrs →
            ∃ x, getitem a (Z.of_nat i - Z.of_nat l) = Ok x).
  { intros a Ha. apply getitem_total. destruct Ha as [->| ->]; lia. }
  destruct (Hget (ds d)) as [x1 ->]; [by left|]. simpl.
  destruct (Hget hrs) as [x2 ->]; [by right|]. simpl.
  destruct (Hget (phis d)) as [x3 ->]; [by left|]. simpl.
  destruct (Hget (ths d)) as [x4 ->]; [by left|]. simpl.
  destruct (Hget (ts hself)) as [x5 ->]; [by left|]. simpl.
  eauto.
Qed.



(** X18: the three ways [perihelion] fails: on an object that was never
    displaced the attribute [ds] is missing; on a displaced object without
    snapshots [np.argmin] has nothing to search; and when the host has no
    snapshot, [ds[-0:]] is the whole history and the index of its least
    element is out of the bounds of [host_rs]. *)
Theorem perihelion_raises St self hself :
  hs St !! self = Some hself →
  match displaced hself with
  | None => perihelion St self = Raise AttributeError
  | Some d =>
      (ds d = [] → perihelion St self = Raise ValueError)
      ∧ (ds d ≠ [] → halo_host_rs St d = [] →
         perihelion St self = Raise IndexError)
  end.
Proof.
  intros Hs. destruct (displaced hself) as [d|] eqn:Hd.
  - split.
    + intros Hnil. unfold perihelion, deref. rewrite Hs.
      cbn [of_option mbind result_bind]. rewrite Hd.
      cbn [of_option mbind result_bind]. by rewrite Hnil.
    + intros Hne Hrs. unfold perihelion, deref. rewrite Hs.
      cbn [of_option mbind result_bind]. rewrite Hd.
      cbn [of_option mbind result_bind]. rewrite Hrs.
      cbn [length]. rewrite Nat.min_0_r.
      change (slice_from (ds d) (- Z.of_nat 0)) with (ds d).
      destruct (argmin_spec (ds d) Hne) as (i & v & Hi & Hv & _).
      rewrite Hi. cbn [mbind result_bind].
      replace (Z.of_nat i - Z.of_nat 0)%Z with (Z.of_nat i) by lia.
      rewrite !getitem_nat, Hv. by cbn [of_option mbind result_bind].
  - unfold perihelion, deref. rewrite Hs.
    cbn [of_option mbind result_bind]. by rewrite Hd.
Qed.

Lemma perihelion_raises_witness :
  perihelion Sample.store 2 = Raise AttributeError.
Proof.
  apply (perihelion_raises Sample.store 2 Sample.sub). reflexivity.
Defined.

(** ** The arrays gathered for a host *)

Lemma gather_body_inv St sub g g' :
  gather_body St sub g = Ok g' →
  ∃ d_now dp xp phi th t,
    g' = {| g_ds := g_ds g ++ [d_now]; g_dps := g_dps g ++ [dp];
            g_xps := g_xps g ++ [xp]; g_phis := g_phis g ++ [phi];
            g_ths := g_ths g ++ [th]; g_ts := g_ts g ++ [t] |}
    ∧ (dp <= d_now)%R.
Proof.
  unfold gather_body.
  intros ([[[[dp xp] phi] th] t] & Hp & H)%bind_Ok.
  apply perihelion_inv in Hp
    as (hself & d & k & r & Hs & Hd & Hk & _ & _ & _ & _ & _ & _ & Hmin & _).
  unfold deref in H. rewrite Hs in H. simpl in H. rewrite Hd in H.
  simpl in H.
  apply bind_Ok in H as (d_now & Hnow & H).
  apply bind_Ok in H as (phi_now & _ & H).
  apply bind_Ok in H as (th_now & _ & H).
  injection H as <-.
  exists d_now, dp, xp, phi_now, th_now, t. split; [done|].
  apply (getitem_neg_inv (ds d) 1) in Hnow as [_ Hnow]; [|lia].
  apply (Hmin 1); [lia|done].
Qed.

Lemma gather_loop St l g0 g :
  for_each (gather_body St) l g0 = Ok g →
  ∃ a b c p q u,
    g = {| g_ds := g_ds g0 ++ a; g_dps := g_dps g0 ++ b;
           g_xps := g_xps g0 ++ c; g_phis := g_phis g0 ++ p;
           g_ths := g_ths g0 ++ q; g_ts := g_ts g0 ++ u |}
    ∧ length a = length l ∧ length c = length l ∧ length p = length l
    ∧ length q = length l ∧ length u = length l ∧ Forall2 Rle b a.
Proof.
  revert g0. induction l as [|sub l IH]; intros g0.
  - intros [= <-]. exists [], [], [], [], [], [].
    rewrite !app_nil_r. by destruct g0.
  - cbn [for_each]. intros (g1 & Hb & Hrest)%bind_Ok.
    apply gather_body_inv in Hb as (d_now & dp & xp & phi & th & t & -> & Hle).
    apply IH in Hrest
      as (a & b & c & p & q & u & -> & Ha & Hc & Hp & Hq & Hu & Hab).
    exists (d_now :: a), (dp :: b), (xp :: c), (phi :: p), (th :: q),
      (t :: u).
    simpl. rewrite <- !app_assoc. simpl.
    split; [done|]. rewrite Ha, Hc, Hp, Hq, Hu.
    do 5 (split; [done|]). by constructor.
Qed.

(** X19: when the loop that collects the subhalos of a host returns, each
    of the six arrays has one entry per subhalo, and the perihelion distance
    of every subhalo is at most its distance at the last snapshot. *)
Theorem gathered_perihelion_le_current St l g :
  for_each (gather_body St) l no_gathered = Ok g →
  length (g_ds g) = length l ∧ length (g_dps g) = length l
  ∧ length (g_xps g) = length l ∧ length (g_phis g) = length l
  ∧ length (g_ths g) = length l ∧ length (g_ts g) = length l
  ∧ Forall2 Rle (g_dps g) (g_ds g).
Proof.
  intros (a & b & c & p & q & u & -> & Ha & Hc & Hp & Hq & Hu & Hab)
    %gather_loop.
  simpl. pose proof (Forall2_length _ _ _ Hab) as Hb.
  repeat split; try done. congruence.
Qed.

Lemma gathered_perihelion_le_current_witness :
  length [Sample.d1] = length [2%Z] ∧ length [Sample.d0] = length [2%Z]
  ∧ length [(Sample.d0 / 0.8)%R] = length [2%Z]
  ∧ length [acos (1 / Sample.d1)] = length [2%Z]
  ∧ length [arctan2 0 17] = length [2%Z]
  ∧ length [Sample.t0] = length [2%Z]
  ∧ Forall2 Rle [Sample.d0] [Sample.d1].
Proof.
  apply (gathered_perihelion_le_current Sample.displaced_store [2%Z]
           {| g_ds := [Sample.d1]; g_dps := [Sample.d0];
              g_xps := [(Sample.d0 / 0.8)%R];
              g_phis := [acos (1 / Sample.d1)]; g_ths := [arctan2 0 17];
              g_ts := [Sample.t0] |}).
  apply SampleAggregate.gather_eval.
Defined.

(** ** The loop over hosts returns *)

Lemma same_shape_refl h : same_shape h h.
Proof. by repeat split. Qed.

Lemma same_objects_refl St : same_objects St St.
Proof.
  intros k. destruct (hs St !! k); constructor. apply same_shape_refl.
Qed.

Lemma same_objects_lookup_r St St' k h' :
  same_objects St St' → hs St' !! k = Some h' →
  ∃ h, hs St !! k = Some h ∧ same_shape h h'.
Proof.
  intros H Hk. specialize (H k). rewrite Hk in H.
  destruct (hs St !! k) as [h|]; inversion H; subst. eauto.
Qed.

Lemma same_objects_lookup_l St St' k h :
  same_objects St St' → hs St !! k = Some h →
  ∃ h', hs St' !! k = Some h' ∧ same_shape h h'.
Proof.
  intros H Hk. specialize (H k). rewrite Hk in H.
  destruct (hs St' !! k) as [h'|]; inversion H; subst. eauto.
Qed.

Lemma same_objects_trans St1 St2 St3 :
  same_objects St1 St2 → same_objects St2 St3 → same_objects St1 St3.
Proof.
  intros H1 H2 k.
  destruct (hs St1 !! k) as [h1|] eqn:E1.
  - destruct (same_objects_lookup_l _ _ _ _ H1 E1)
      as (h2 & E2 & (? & ? & ? & ? & ?)).
    destruct (same_objects_lookup_l _ _ _ _ H2 E2)
      as (h3 & -> & (? & ? & ? & ? & ?)).
    constructor. repeat split; congruence.
  - destruct (hs St3 !! k) as [h3|] eqn:E3; [|constructor].
    destruct (same_objects_lookup_r _ _ _ _ H2 E3) as (h2 & E2 & _).
    destruct (same_objects_lookup_r _ _ _ _ H1 E2) as (h1 & ? & _).
    congruence.
Qed.

Lemma evolves_refl St : evolves St St.
Proof. split; [done|apply same_objects_refl]. Qed.

Lemma evolves_lookup_r St St' k h' :
  evolves St St' → hs St' !! k = Some h' →
  ∃ h, hs St !! k = Some h ∧ same_shape h h'.
Proof. intros [_ H]. by apply same_objects_lookup_r. Qed.

Lemma evolves_lookup_l St St' k h :
  evolves St St' → hs St !! k = Some h →
  ∃ h', hs St' !! k = Some h' ∧ same_shape h h'.
Proof. intros [_ H]. by apply same_objects_lookup_l. Qed.

Lemma evolves_trans St1 St2 St3 :
  evolves St1 St2 → evolves St2 St3 → evolves St1 St3.
Proof.
  intros [L1 H1] [L2 H2]. split; [congruence|].
  by eapply same_objects_trans.
Qed.

Lemma evolves_length St St' h h' :
  evolves St St' → h_view h' = h_view h →
  length (halo_xs St' h') = length (halo_xs St h).
Proof.
  intros [Hl _] Hv. unfold halo_xs. rewrite Hv.
  by apply length_view_read_same.
Qed.

Lemma evolves_nonempty St St' :
  evolves St St' → histories_nonempty St → histories_nonempty St'.
Proof.
  intros Hev Hne k h' Hk'.
  destruct (evolves_lookup_r _ _ _ _ Hev Hk') as (h & Hh & _ & Hv & _).
  intros Hnil. apply (Hne k h); [done|].
  apply length_zero_iff_nil.
  rewrite <- (evolves_length St St' h h' Hev Hv).
  by rewrite Hnil.
Qed.

Lemma evolves_ready St St' hosts :
  evolves St St' → hosts_ready St hosts → hosts_ready St' hosts.
Proof.
  intros Hev Hr k Hk. destruct (Hr k Hk) as (h & Hh & Hinfo).
  destruct (evolves_lookup_l _ _ _ _ Hev Hh)
    as (h' & Hh' & _ & _ & _ & _ & Hi).
  exists h'. split; [done|]. by rewrite Hi.
Qed.

Section HostLoop.
Variable vd : list R → list R → list R.
Hypothesis vd_length : ∀ t x, length (vd t x) = length x.

(** One subhalo displaced against its host, in a well-formed store. *)
Lemma displace_step St host hhost sub :
  store_ok St → hs St !! host = Some hhost → sub ∈ subs hhost →
  ∃ St', displace vd St sub host = Ok St'
         ∧ store_ok St' ∧ hs St' !! host = Some hhost
         ∧ evolves St St'
         ∧ displaced_against St' (h_view hhost) sub
         ∧ ∀ k, k ≠ sub → hs St' !! k = hs St !! k.
Proof.
  intros Hok Hh Hsub.
  destruct (store_ok_sub St host hhost sub Hok Hh Hsub)
    as (hsub & Hs & Hne & Hdis & Hts).
  pose proof Hok as [Hwf Hall].
  set (St1 := positions_result St (h_view hsub) (h_view hhost)).
  assert (Hwf1 : wf_columns St1) by (by apply wf_columns_positions_result).
  set (d := derived_arrays vd (ts hsub) (halo_scales St1 hsub)
              (halo_xs St1 hsub) (halo_ys St1 hsub) (halo_zs St1 hsub)
              (h_view hhost)).
  assert (Hd : displace_derived vd St1 hsub (h_view hhost) = Ok d)
    by (by apply displace_derived_spec).
  assert (Hrun : displace vd St sub host
                 = Ok (set_halo St1 sub (set_displaced hsub d))).
  { unfold displace, deref. rewrite Hs, Hh.
    cbn [of_option mbind result_bind].
    rewrite displace_positions_spec by done. cbn [mbind result_bind].
    fold St1. by rewrite Hd. }
  exists (set_halo St1 sub (set_displaced hsub d)).
  split; [done|].
  destruct (displace_ok vd St host hhost sub _ Hok Hh Hsub Hrun)
    as [Hok' Hh'].
  split; [done|]. split; [done|].
  assert (Hlen : length (xs St1) = length (xs St)).
  { unfold St1, positions_result. simpl.
    by rewrite length_write_view by apply length_displaced_array. }
  split; [|split].
  - split; [done|]. intros k. simpl.
    destruct (decide (sub = k)) as [<-|Hk].
    + rewrite lookup_insert_eq, Hs. constructor. by repeat split.
    + rewrite lookup_insert_ne by done.
      destruct (hs St !! k); constructor. apply same_shape_refl.
  - exists (set_displaced hsub d), d. simpl.
    split; [by rewrite lookup_insert_eq|]. split; [done|]. split; [done|].
    destruct (displace_derived_lengths vd St1 hsub (h_view hhost) d Hwf1 Hd)
      as (Hds & Hphis & Hths).
    destruct (halo_positions_result St hsub hhost) as (Hx & _).
    fold St1 in Hx.
    assert (Hxl : length (halo_xs St1 hsub) = length (halo_xs St hsub))
      by (by rewrite Hx, length_displaced_array).
    split; [|exact Hds].
    split; [done|]. split; [done|].
    change (length (ts hsub) = length (ds d)). congruence.
  - intros k Hk. simpl. by rewrite lookup_insert_ne.
Qed.

Lemma displaced_against_evolves St St' hv s :
  evolves St St' → hs St' !! s = hs St !! s →
  displaced_against St hv s → displaced_against St' hv s.
Proof.
  intros [Hl _] Heq (hsub & d & Hs & Hd & Hv & Hc & Hlen).
  exists hsub, d. rewrite Heq. do 4 (split; [done|]).
  rewrite Hlen. unfold halo_xs. symmetry. by apply length_view_read_same.
Qed.

(** The first loop of a round: every subhalo of the host is displaced
    against it. *)
Lemma displace_subs_total St host hhost l prev :
  store_ok St → hs St !! host = Some hhost →
  (∀ s, s ∈ l → s ∈ subs hhost) →
  (∀ s, s ∈ prev → displaced_against St (h_view hhost) s) →
  ∃ St', for_each (λ sub St, displace vd St sub host) l St = Ok St'
         ∧ store_ok St' ∧ hs St' !! host = Some hhost ∧ evolves St St'
         ∧ ∀ s, s ∈ prev ++ l → displaced_against St' (h_view hhost) s.
Proof.
  revert St prev. induction l as [|sub l IH]; intros St prev Hok Hh Hl Hprev.
  - exists St. split; [done|]. split; [done|]. split; [done|].
    split; [apply evolves_refl|]. by rewrite app_nil_r.
  - destruct (displace_step St host hhost sub Hok Hh)
      as (St1 & Hrun & Hok1 & Hh1 & Hev1 & Hnew & Hframe);
      [apply Hl; by left|].
    destruct (IH St1 (prev ++ [sub]) Hok1 Hh1) as (St' & Hrest & Hok' & Hh' & Hev' & Hall).
    { intros s Hs. apply Hl. by right. }
    { intros s [Hs|Hs%list_elem_of_singleton]%elem_of_app.
      - destruct (decide (s = sub)) as [->|Hne]; [done|].
        apply (displaced_against_evolves St St1); [done|by apply Hframe|].
        by apply Hprev.
      - by subst s. }
    exists St'. cbn [for_each]. rewrite Hrun. cbn [mbind result_bind].
    split; [done|]. split; [done|]. split; [done|].
    split; [by eapply evolves_trans|].
    intros s Hs. apply Hall. by rewrite <- app_assoc.
Qed.

(** One round of the second loop: a displaced subhalo with a snapshot, of a
    host with a snapshot. *)
Lemma gather_body_total St hv sub g :
  wf_columns St → histories_nonempty St →
  view_read (rs St) hv ≠ [] →
  displaced_against St hv sub →
  ∃ g', gather_body St sub g = Ok g'.
Proof.
  intros Hwf Hne Hrs (hsub & d & Hs & Hd & Hv & Hc & Hlen).
  assert (Hds : ds d ≠ []).
  { intros Hnil. apply (Hne sub hsub Hs). apply length_zero_iff_nil.
    by rewrite <- Hlen, Hnil. }
  destruct (perihelion_returns St sub hsub d Hs Hd Hds)
    as ([[[[dp xp] phi] th] t] & Hp); [|done|].
  { unfold halo_host_rs. by rewrite Hv. }
  unfold gather_body. rewrite Hp. cbn [mbind result_bind].
  unfold deref. rewrite Hs. cbn [of_option mbind result_bind].
  rewrite Hd. cbn [of_option mbind result_bind].
  assert (Hn : 0 < length (ds d)) by (destruct (ds d); [done|simpl; lia]).
  destruct Hc as (Hphis & Hths & _).
  destruct (getitem_total (ds d) (-1)) as [x1 ->]; [lia|].
  cbn [mbind result_bind].
  destruct (getitem_total (phis d) (-1)) as [x2 ->]; [lia|].
  cbn [mbind result_bind].
  destruct (getitem_total (ths d) (-1)) as [x3 ->]; [lia|].
  cbn [mbind result_bind]. eauto.
Qed.

Lemma gather_total St hv l g0 :
  wf_columns St → histories_nonempty St →
  view_read (rs St) hv ≠ [] →
  (∀ s, s ∈ l → displaced_against St hv s) →
  ∃ g, for_each (gather_body St) l g0 = Ok g.
Proof.
  intros Hwf Hne Hrs. revert g0. induction l as [|sub l IH]; intros g0 Hl.
  - by exists g0.
  - destruct (gather_body_total St hv sub g0 Hwf Hne Hrs) as [g1 Hg1];
      [apply Hl; by left|].
    destruct (IH g1) as [g Hg]; [intros s Hs; apply Hl; by right|].
    exists g. cbn [for_each]. rewrite Hg1. by cbn [mbind result_bind].
Qed.

Lemma make_mask_total xps xs_ ds_ :
  length xps = length xs_ → length xs_ = length ds_ →
  ∃ m, make_mask xps xs_ ds_ = Ok m ∧ length m = length ds_.
Proof.
  intros H1 H2. unfold make_mask, eps_eq, np_sub, np_abs.
  rewrite broadcast_same_length by done. cbn [mbind result_bind].
  rewrite broadcast_same_length
    by (rewrite !length_fmap, length_zip_with; lia).
  cbn [mbind result_bind].
  rewrite broadcast_same_length
    by (rewrite length_zip_with, !length_fmap, length_zip_with; lia).
  eexists. split; [done|].
  rewrite !length_zip_with, !length_fmap, length_zip_with. lia.
Qed.

Lemma stack_host_total host ds_ mask A :
  is_Some (host_info host) → length ds_ = length mask →
  ∃ A', stack_host host ds_ mask A = Ok A'.
Proof.
  intros [info Hinfo] Hlen.
  destruct (decide (40 < np_sum mask)) as [Hn|Hn].
  - destruct (stack_host_above host info ds_ mask A Hinfo Hlen Hn)
      as (? & ? & ? & ? & ? & ? & ? & ? & _ & _ & _ & _ & _ & _ & _ & _ & ->).
    eauto.
  - rewrite stack_host_below by lia. eauto.
Qed.

(** A round of the loop over hosts returns and keeps what the rounds
    need. *)
Lemma host_body_total hosts host St A :
  hosts_inv hosts St → host ∈ hosts →
  ∃ St' A', host_body vd host (St, A) = Ok (St', A')
            ∧ hosts_inv hosts St'.
Proof.
  intros (Hok & Hne & Hready) Hin.
  destruct (Hready host Hin) as (hhost & Hh & Hinfo).
  destruct (displace_subs_total St host hhost (subs hhost) [] Hok Hh)
    as (St1 & Hrun & Hok1 & Hh1 & Hev & Hall); [done| |].
  { by intros s ?%elem_of_nil. }
  pose proof Hok as [Hwf _]. pose proof Hok1 as [Hwf1 _].
  assert (Hne1 : histories_nonempty St1) by (by eapply evolves_nonempty).
  assert (Hrs : halo_rs St1 hhost ≠ []).
  { intros Hnil. apply (Hne1 host hhost Hh1). apply length_zero_iff_nil.
    destruct (length_halo_views St1 hhost Hwf1) as (_ & _ & _ & <- & _).
    by rewrite Hnil. }
  destruct (gather_total St1 (h_view hhost) (subs hhost) no_gathered
              Hwf1 Hne1 Hrs) as [g Hg]; [done|].
  pose proof (gather_loop _ _ _ _ Hg)
    as (a & b & c & p & q & u & Hgeq & Ha & Hc & _ & _ & _ & _).
  assert (Hgds : length (g_ds g) = length (subs hhost))
    by (by rewrite Hgeq).
  assert (Hgxps : length (g_xps g) = length (subs hhost))
    by (by rewrite Hgeq).
  assert (Hn : 0 < length (halo_rs St1 hhost))
    by (destruct (halo_rs St1 hhost); [done|simpl; lia]).
  destruct (getitem_total (halo_rs St1 hhost) (-1)) as [r_now Hr]; [lia|].
  destruct (make_mask_total (g_xps g) (np_div_scalar (g_ds g) r_now)
              (g_ds g)) as (mask & Hmask & Hml).
  { rewrite length_np_div_scalar. congruence. }
  { by rewrite length_np_div_scalar. }
  destruct (stack_host_total hhost (g_ds g) mask A Hinfo) as [A' HA'];
    [done|].
  exists St1, A'. split.
  - unfold host_body, deref. rewrite Hh. cbn [of_option mbind result_bind].
    rewrite Hrun. cbn [mbind result_bind]. rewrite Hh1.
    cbn [of_option mbind result_bind]. rewrite Hg.
    cbn [mbind result_bind]. rewrite Hr. cbn [mbind result_bind].
    rewrite Hmask. cbn [mbind result_bind]. by rewrite HA'.
  - split; [done|]. split; [done|]. by eapply evolves_ready.
Qed.

Lemma host_loop_total hosts l St A :
  hosts_inv hosts St → (∀ k, k ∈ l → k ∈ hosts) →
  ∃ St' A', for_each (host_body vd) l (St, A) = Ok (St', A')
            ∧ hosts_inv hosts St'.
Proof.
  revert St A. induction l as [|host l IH]; intros St A Hinv Hl.
  - by exists St, A.
  - destruct (host_body_total hosts host St A Hinv) as (St1 & A1 & Hb & Hinv1);
      [apply Hl; by left|].
    destruct (IH St1 A1 Hinv1) as (St' & A' & Hrest & Hinv');
      [intros k Hk; apply Hl; by right|].
    exists St', A'. cbn [for_each]. rewrite Hb. by cbn [mbind result_bind].
Qed.

(** X20: on a well-formed store whose objects all have a snapshot and whose
    listed hosts hold their attributes, the loop over hosts raises no
    exception, so the only exception of the aggregation is the [TypeError]
    of the bin centres when no host has qualified. *)
Theorem aggregate_raises_only_TypeError hosts St :
  store_ok St → histories_nonempty St → hosts_ready St hosts →
  ∃ St' A, for_each (host_body vd) hosts (St, no_stacks) = Ok (St', A)
           ∧ store_ok St'
           ∧ (aggregate vd hosts St = Raise TypeError
              ∨ ∃ centers, aggregate vd hosts St = Ok (centers, A, St')).
Proof.
  intros Hok Hne Hready.
  destruct (host_loop_total hosts hosts St no_stacks)
    as (St' & A & Hloop & Hok' & _); [done|done|].
  exists St', A. split; [done|]. split; [done|].
  unfold aggregate. rewrite Hloop. cbn [mbind result_bind].
  destruct (edges A) as [e|]; [|by left].
  destruct (bin_centers_Some e) as (c & -> & _). right. by exists c.
Qed.
End HostLoop.

(** ** The script as a whole *)

Lemma membership_hosts_ready rho_c0 rad_info rows St hosts St' :
  membership rho_c0 rad_info rows St = Ok (hosts, St') →
  hosts_ready St' hosts.
Proof.
  intros (-> & _ & Hknown & Hs)%membership_loop. intros k Hk.
  pose proof Hk as Hk'. unfold host_rows in Hk'.
  apply list_elem_of_fmap in Hk' as ([id hid] & -> & [Heq Hrow]%list_elem_of_filter).
  simpl in *. subst hid.
  rewrite Forall_forall in Hknown.
  destruct (Hknown _ Hrow) as ([h Hh] & _ & Hrad). simpl in *.
  destruct (Hrad eq_refl) as [r Hr].
  exists (member rho_c0 rad_info rows id h). rewrite Hs, Hh.
  split; [done|]. unfold member. simpl.
  rewrite decide_True by done. rewrite Hr. by eexists.
Qed.

Lemma membership_nonempty rho_c0 rad_info rows St hosts St' :
  membership rho_c0 rad_info rows St = Ok (hosts, St') →
  histories_nonempty St → histories_nonempty St'.
Proof.
  intros (_ & (_ & Hx & _) & _ & Hs)%membership_loop Hne k h' Hk'.
  rewrite Hs in Hk'. destruct (hs St !! k) as [h|] eqn:Hh; [|done].
  injection Hk' as <-. unfold halo_xs. simpl. rewrite Hx.
  by apply (Hne k h).
Qed.

Lemma no_empty_run_rows tree_ids : no_empty_run tree_ids → tree_ids ≠ [].
Proof.
  intros Hrun ->. specialize (Hrun (mkView 0 0)). simpl in Hrun.
  assert (0 < 0); [|lia]. apply Hrun.
  split; [simpl; lia|]. split; [by left|]. split; [by left|].
  simpl. lia.
Qed.

Lemma make_halos_nonempty age rows St :
  no_empty_run (row_id <$> rows) →
  make_halos age (load_tree rows).1 (load_tree rows).2 = Ok St →
  histories_nonempty St.
Proof.
  intros Hrun Hcut.
  destruct (make_halos_fresh _ _ _ _ Hcut) as [(_ & Hx & _) Hall].
  intros k h Hk. destruct (Hall k h Hk) as [(_ & Hseg & _)|Hold]; [|done].
  pose proof (Hrun _ Hseg) as Hlt. destruct Hseg as ([_ Hle] & _).
  change ((load_tree rows).1) with (row_id <$> rows) in Hle.
  assert (Hlen : length (xs St) = length (row_id <$> rows))
    by (rewrite Hx; simpl; by rewrite !length_fmap).
  intros Hnil. apply (f_equal length) in Hnil.
  unfold halo_xs in Hnil. rewrite length_view_read, Hlen in Hnil.
  simpl in Hnil. lia.
Qed.

Section Script.
Variable vd : list R → list R → list R.
Hypothesis vd_length : ∀ t x, length (vd t x) = length x.

(** X21: on a tree in which no run of rows between sentinels is empty, the
    script up to the bin centres can only fail in two ways: with [KeyError],
    when the membership table names an id that the tree or the radius table
    does not hold, and with [TypeError], when no host has more than 40
    masked subhalos. When it returns, there are 25 bin centres and some
    host has qualified. *)
Theorem main_raises_only_KeyError_TypeError age rho_c0 tree sub_rows rad :
  no_empty_run (row_id <$> tree) →
  match main vd age rho_c0 tree sub_rows rad with
  | Ok (centers, A, _) =>
      length centers = 25 ∧ Exists (λ n, 40 < n) (sub_counts A)
  | Raise e => e = KeyError ∨ e = TypeError
  end.
Proof.
  intros Hrun. unfold main.
  change (load_tree tree) with ((load_tree tree).1, (load_tree tree).2).
  cbv beta iota.
  destruct (load_tree_wf tree) as [Hwf Hempty].
  destruct (make_halos_spec age (load_tree tree).1 (load_tree tree).2
              (no_empty_run_rows _ Hrun)) as (start & St0 & h & Hcut & _).
  set (St1 := set_halo St0 (h_id h) h) in *.
  rewrite Hcut. cbn [mbind result_bind].
  assert (Hok1 : store_ok St1) by (by eapply make_halos_ok).
  assert (Hne1 : histories_nonempty St1) by (by eapply make_halos_nonempty).
  destruct (membership rho_c0 (make_rad_info rad) sub_rows St1)
    as [[hosts St2]|e] eqn:Hmem; cbn [mbind result_bind].
  - destruct (membership_ok _ _ _ _ _ _ Hok1 Hmem) as [Hok2 _].
    pose proof (membership_nonempty _ _ _ _ _ _ Hmem Hne1) as Hne2.
    pose proof (membership_hosts_ready _ _ _ _ _ _ Hmem) as Hready.
    destruct (host_loop_total vd vd_length hosts hosts St2 no_stacks)
      as (St3 & A & Hloop & _); [done|done|].
    destruct (for_each_host_body_inv vd hosts St2 no_stacks St3 A 0
                edges_inv_no_stacks stacks_inv_no_stacks Hloop)
      as [[_ Hedges] _].
    unfold aggregate. rewrite Hloop. cbn [mbind result_bind].
    destruct (edges A) as [e|]; [|by right].
    destruct Hedges as [-> Hex].
    destruct (bin_centers_Some (linspace 0.1 2 26)) as (c & -> & Hc).
    cbn [mbind result_bind]. by rewrite Hc, length_linspace.
  - left. unfold membership in Hmem.
    by apply membership_loop_raises in Hmem as [-> _].
Qed.
End Script.

(** *** The catalogue, through the script *)

Lemma sample_no_empty_run : no_empty_run (row_id <$> Sample.tree).
Proof.
  intros [s e] (Hle & Hs & He & _). simpl in *.
  destruct (decide (s < e)) as [|Hge]; [done|]. exfalso.
  assert (s = e) by lia. subst s.
  do 7 (destruct e as [|e];
        [simpl in *; destruct Hs as [Hs|Hs], He as [He|He];
           (discriminate || lia)|]).
  simpl in *. lia.
Qed.

Lemma main_raises_only_KeyError_TypeError_witness :
  match main vector_deriv_spec Sample.age Sample.rho_c0 Sample.tree
          [(1, 1); (2, 1)]%Z Sample.rad with
  | Ok (centers, A, _) =>
      length centers = 25 ∧ Exists (λ n, 40 < n) (sub_counts A)
  | Raise e => e = KeyError ∨ e = TypeError
  end.
Proof.
  apply (main_raises_only_KeyError_TypeError vector_deriv_spec
           length_vector_deriv_spec Sample.age Sample.rho_c0 Sample.tree
           [(1, 1); (2, 1)]%Z Sample.rad).
  apply sample_no_empty_run.
Defined.

Lemma sample_histories_nonempty : histories_nonempty Sample.store.
Proof.
  apply (membership_nonempty Sample.rho_c0 (make_rad_info Sample.rad)
           [(1, 1); (2, 1)]%Z Sample.halos [1%Z]);
    [apply SampleFacts.membership_eval|].
  apply (make_halos_nonempty Sample.age Sample.tree);
    [apply sample_no_empty_run|reflexivity].
Qed.

Lemma sample_hosts_ready : hosts_ready Sample.store [1%Z].
Proof.
  apply (membership_hosts_ready Sample.rho_c0 (make_rad_info Sample.rad)
           [(1, 1); (2, 1)]%Z Sample.halos).
  apply SampleFacts.membership_eval.
Qed.

Lemma aggregate_raises_only_TypeError_witness :
  ∃ St' A,
    for_each (host_body vector_deriv_spec) [1%Z] (Sample.store, no_stacks)
    = Ok (St', A)
    ∧ store_ok St'
    ∧ (aggregate vector_deriv_spec [1%Z] Sample.store = Raise TypeError
       ∨ ∃ centers,
           aggregate vector_deriv_spec [1%Z] Sample.store
           = Ok (centers, A, St')).
Proof.
  apply (aggregate_raises_only_TypeError vector_deriv_spec
           length_vector_deriv_spec [1%Z] Sample.store).
  - apply sample_store_ok.
  - apply sample_histories_nonempty.
  - apply sample_hosts_ready.
Defined.

(** ** A host without subhalos *)

(** X8: a round of the loop over hosts for a host without subhalos reads
    the host's last radius all the same: it raises [IndexError] when the
    host has no snapshot, and otherwise appends the count 0 and changes
    neither the store nor the stacks. *)
Theorem host_without_subhalos vd host hhost St A :
  hs St !! host = Some hhost → subs hhost = [] →
  host_body vd host (St, A)
  = match halo_rs St hhost with
    | [] => Raise IndexError
    | _ :: _ =>
        Ok (St, {| b_r_sp := b_r_sp A; b_r_max := b_r_max A;
                   b_r200m := b_r200m A; b_r200c := b_r200c A;
                   edges := edges A; sub_counts := sub_counts A ++ [0] |})
    end.
Proof.
  intros Hh Hsubs. unfold host_body, deref. rewrite Hh.
  cbn [of_option mbind result_bind]. rewrite Hsubs. cbn [for_each].
  cbn [mbind result_bind]. rewrite Hh. cbn [of_option mbind result_bind].
  rewrite Hsubs. cbn [for_each mbind result_bind].
  destruct (halo_rs St hhost) as [|x l] eqn:Hrs; [done|].
  destruct (getitem_total (x :: l) (-1)) as [r ->]; [simpl; lia|].
  cbn [mbind result_bind]. done.
Qed.

Lemma host_without_subhalos_witness :
  host_body vector_deriv_spec 1 (Sample.halos, no_stacks)
  = Ok (Sample.halos,
        {| b_r_sp := []; b_r_max := []; b_r200m := []; b_r200c := [];
           edges := None; sub_counts := [0] |}).
Proof.
  apply (host_without_subhalos vector_deriv_spec 1 Sample.host Sample.halos
           no_stacks); reflexivity.
Defined.

(** ** The counts of a histogram *)

Section Counts.
Local Open Scope R_scope.

Lemma bin_count_cons e bins i v a :
  bin_count e bins i (v :: a)
  = (Nat.b2n (in_bin e bins i v) + bin_count e bins i a)%nat.
Proof.
  unfold bin_count. destruct (in_bin e bins i v) eqn:E.
  - by rewrite filter_cons_True.
  - by rewrite filter_cons_False by (by rewrite E).
Qed.

Lemma sum_list_fmap {A} (f : A → nat) l :
  sum_list (f <$> l) = sum_list_with f l.
Proof.
  induction l as [|x l IH]; [done|].
  rewrite fmap_cons. cbn [sum_list_with]. by rewrite IH.
Qed.

Lemma sum_list_with_plus {A} (f g : A → nat) l :
  sum_list_with (λ i, f i + g i)%nat l
  = (sum_list_with f l + sum_list_with g l)%nat.
Proof. induction l as [|x l IH]; simpl; [done|]. rewrite IH. lia. Qed.

Lemma sum_list_with_ext {A} (f g : A → nat) l :
  (∀ x, f x = g x) → sum_list_with f l = sum_list_with g l.
Proof. intros H. induction l as [|x l IH]; simpl; [done|]. by rewrite H, IH. Qed.

(** The sum over the bins of the counts is the sum over the values of the
    number of bins that hold the value. *)
Lemma sum_bin_counts e bins a l :
  sum_list_with (λ i, bin_count e bins i a) l
  = sum_list_with
      (λ v, sum_list_with (λ i, Nat.b2n (in_bin e bins i v)) l) a.
Proof.
  induction a as [|v a IH]; cbn [sum_list_with].
  - induction l as [|i l IHl]; simpl; [done|]. by rewrite IHl.
  - rewrite <- IH, <- sum_list_with_plus.
    apply sum_list_with_ext. intros i. apply bin_count_cons.
Qed.

Lemma linspace_edge lo hi bins i :
  (0 < bins)%nat → (i ≤ bins)%nat →
  linspace lo hi (S bins) !! i = Some (lo + INR i * ((hi - lo) / INR bins)).
Proof.
  intros Hb Hi. rewrite lookup_linspace by lia.
  by replace (S bins - 1)%nat with bins by lia.
Qed.

Lemma not_or_inv (P Q : Prop) : ¬ (P ∨ Q) → ¬ P ∧ ¬ Q.
Proof. tauto. Qed.

Ltac split_cases :=
  repeat match goal with
         | H : _ ∧ _ |- _ => destruct H
         | H : _ ∨ _ |- _ => destruct H
         | H : ¬ (_ ∧ _) |- _ => apply not_and_l in H
         | H : ¬ (_ ∨ _) |- _ => apply not_or_inv in H
         end.

(** A value is in at most one of the first [k] bins: in one exactly when it
    is at least [lo] and below edge [k], or [k] is the number of bins and
    the value is at most [hi]. *)
Lemma in_bins_prefix lo hi bins v k :
  (0 < bins)%nat → lo < hi → (k ≤ bins)%nat →
  sum_list_with (λ i, Nat.b2n (in_bin (linspace lo hi (S bins)) bins i v))
    (seq 0 k)
  = Nat.b2n (bool_decide
               (lo <= v
                ∧ (v < lo + INR k * ((hi - lo) / INR bins)
                   ∨ (k = bins ∧ v <= hi)))).
Proof.
  intros Hb Hlt Hk.
  assert (Hw : 0 < (hi - lo) / INR bins).
  { apply Rdiv_lt_0_compat; [lra|]. by apply lt_0_INR. }
  assert (Hhi : lo + INR bins * ((hi - lo) / INR bins) = hi).
  { field. apply not_0_INR. lia. }
  induction k as [|k IH].
  - simpl. rewrite bool_decide_eq_false_2; [done|].
    intros (? & [?|[? _]]); [lra|lia].
  - rewrite seq_S, sum_list_with_app. cbn [sum_list_with plus].
    rewrite IH by lia. clear IH.
    unfold in_bin.
    rewrite (linspace_edge lo hi bins k) by lia.
    rewrite (linspace_edge lo hi bins (S k)) by lia.
    rewrite S_INR.
    assert (Hek : lo <= lo + INR k * ((hi - lo) / INR bins)).
    { pose proof (pos_INR k). nra. }
    set (w := (hi - lo) / INR bins) in *.
    set (ek := lo + INR k * w) in *.
    replace (lo + (INR k + 1) * w) with (ek + w) by (unfold ek; lra).
    destruct (decide (S k = bins)) as [Hlast|Hmid].
    + assert (Hend : ek + w = hi).
      { rewrite <- Hhi, <- Hlast, S_INR. unfold ek. lra. }
      rewrite Hend.
      repeat case_bool_decide; simpl; try lia; exfalso; split_cases;
        first [lra | lia].
    + repeat case_bool_decide; simpl; try lia; exfalso; split_cases;
        first [lra | lia].
Qed.

(** The counts of [np.histogram] add up to the number of values within the
    range. *)
Lemma histogram_counts a bins lo hi :
  (0 < bins)%nat → lo < hi →
  sum_list (histogram a bins lo hi).1
  = length (filter (λ v, lo <= v <= hi) a).
Proof.
  intros Hb Hlt. unfold histogram. cbn [fst].
  rewrite sum_list_fmap, sum_bin_counts.
  assert (Hhi : lo + INR bins * ((hi - lo) / INR bins) = hi).
  { field. apply not_0_INR. lia. }
  induction a as [|v a IH]; [done|]. cbn [sum_list_with].
  rewrite IH. clear IH.
  rewrite in_bins_prefix by (done || lia). rewrite Hhi.
  destruct (decide (lo <= v <= hi)) as [Hin|Hout].
  - rewrite filter_cons_True by done.
    rewrite bool_decide_eq_true_2; [done|].
    split; [lra|]. right. split; [done|lra].
  - rewrite filter_cons_False by done.
    rewrite bool_decide_eq_false_2; [done|].
    intros (? & [?|[_ ?]]); lra.
Qed.

Lemma select_length {A} (a : list A) mask b :
  select a mask = Ok b → length b = np_sum mask.
Proof.
  unfold select, np_sum. case_decide as Hlen; [|done]. intros [= <-].
  rewrite length_fmap. revert mask Hlen.
  induction a as [|x a IH]; intros [|m mask] Hlen; simpl in *; try done.
  destruct m.
  - rewrite !filter_cons_True by done. simpl. f_equal. apply IH. lia.
  - rewrite !filter_cons_False by done. apply IH. lia.
Qed.

Lemma length_filter_b2n {A} (f : A → bool) l :
  length (filter (λ x, f x = true) l) = sum_list_with (λ x, Nat.b2n (f x)) l.
Proof.
  induction l as [|x l IH]; [done|]. cbn [sum_list_with].
  destruct (f x) eqn:E.
  - rewrite filter_cons_True by done. simpl. by rewrite IH.
  - rewrite filter_cons_False by (by rewrite E). by rewrite IH.
Qed.

(** The number of bins that hold a value: one for a value within the range,
    none for a value outside it. *)
Lemma bins_of_value bins lo hi v :
  (0 < bins)%nat → lo < hi →
  length (filter (λ i, in_bin (linspace lo hi (S bins)) bins i v = true)
            (seq 0 bins))
  = if decide (lo <= v <= hi) then 1%nat else 0%nat.
Proof.
  intros Hb Hlt. rewrite length_filter_b2n, in_bins_prefix by (done || lia).
  assert (Hhi : lo + INR bins * ((hi - lo) / INR bins) = hi).
  { field. apply not_0_INR. lia. }
  rewrite Hhi. destruct (decide (lo <= v <= hi)) as [Hin|Hout].
  - rewrite bool_decide_eq_true_2; [done|].
    split; [lra|]. right. split; [done|lra].
  - rewrite bool_decide_eq_false_2; [done|].
    intros (? & [?|[_ ?]]); lra.
Qed.

(** Bin [i] of the 25 bins holds the values from its left edge up to its
    right edge, which only the last bin includes. *)
Lemma in_bin_edges i v :
  (i < 25)%nat →
  in_bin (linspace 0.1 2 26) 25 i v = true
  ↔ bin_edge i <= v ∧ (v < bin_edge (S i) ∨ (i = 24%nat ∧ v <= 2)).
Proof.
  intros Hi. unfold in_bin. rewrite !bin_edge_linspace by lia.
  rewrite andb_true_iff, orb_true_iff, andb_true_iff, !bool_decide_eq_true.
  assert (Hlast : bin_edge 25 = 2).
  { unfold bin_edge. replace (INR 25) with 25 by (simpl; lra). lra. }
  split.
  - intros [Hlo [Hlt|[Heq Hle]]]; (split; [done|]); [by left|].
    right. injection Heq as ->. by rewrite <- Hlast.
  - intros [Hlo [Hlt|[-> Hle]]]; (split; [done|]); [by left|].
    right. split; [done|]. by rewrite Hlast.
Qed.

(** X22: each histogram of a host bins the normalised distances of its [n]
    masked subhalos: count [i] is the number of binned distances that bin
    [i] holds, from its left edge up to its right edge, which only the last
    bin includes; a distance outside the range [0.1, 2] is held by no bin
    and every other by exactly one; so the 25 counts add up to the number
    of binned distances that lie within the range. *)
Theorem stacked_counts_in_range ds_ mask radius scale a :
  binned ds_ mask radius scale = Ok a →
  length a = np_sum mask
  ∧ (∀ i, (i < 25)%nat →
       (histogram a 25 0.1 2).1 !! i
       = Some (length (filter
                         (λ v, in_bin (histogram a 25 0.1 2).2 25 i v = true)
                         a)))
  ∧ (∀ i v, (i < 25)%nat →
       (in_bin (histogram a 25 0.1 2).2 25 i v = true
        ↔ bin_edge i <= v ∧ (v < bin_edge (S i) ∨ (i = 24%nat ∧ v <= 2))))
  ∧ (∀ v, length (filter
                    (λ i, in_bin (histogram a 25 0.1 2).2 25 i v = true)
                    (seq 0 25))
          = if decide (0.1 <= v <= 2) then 1%nat else 0%nat)
  ∧ sum_list (histogram a 25 0.1 2).1
    = length (filter (λ v, 0.1 <= v <= 2) a).
Proof.
  intros Ha. split; [by eapply select_length|]. split; [|split; [|split]].
  - intros i Hi. unfold histogram. cbn [fst snd].
    by rewrite list_lookup_fmap, lookup_seq_lt by done.
  - intros i v Hi. unfold histogram. cbn [snd]. by apply in_bin_edges.
  - intros v. unfold histogram. cbn [snd].
    apply (bins_of_value 25 0.1 2 v); [lia|lra].
  - apply histogram_counts; [lia|lra].
Qed.

Lemma stacked_counts_in_range_witness :
  length [1; 3] = np_sum [true; false; true]
  ∧ (∀ i, (i < 25)%nat →
       (histogram [1; 3] 25 0.1 2).1 !! i
       = Some (length (filter
                         (λ v, in_bin (histogram [1; 3] 25 0.1 2).2 25 i v
                               = true)
                         [1; 3])))
  ∧ (∀ i v, (i < 25)%nat →
       (in_bin (histogram [1; 3] 25 0.1 2).2 25 i v = true
        ↔ bin_edge i <= v ∧ (v < bin_edge (S i) ∨ (i = 24%nat ∧ v <= 2))))
  ∧ (∀ v, length (filter
                    (λ i, in_bin (histogram [1; 3] 25 0.1 2).2 25 i v = true)
                    (seq 0 25))
          = if decide (0.1 <= v <= 2) then 1%nat else 0%nat)
  ∧ sum_list (histogram [1; 3] 25 0.1 2).1
    = length (filter (λ v, 0.1 <= v <= 2) [1; 3]).
Proof.
  apply (stacked_counts_in_range [2; 5; 6] [true; false; true] 2 1).
  unfold binned, select, np_scale, np_div_scalar. simpl.
  do 2 f_equal; [|f_equal]; lra.
Defined.

(** ** The bin centres *)

(** X23: once a host has qualified, the bin centres are the midpoints of
    the 25 equal bins of the range (0.1, 2): 0.138, 0.214, ..., 1.962. *)
Theorem bin_centers_are_midpoints host ds_ mask A A' :
  stack_host host ds_ mask A = Ok A' → (40 < np_sum mask)%nat →
  ∃ c, bin_centers (edges A') = Ok c ∧ length c = 25%nat
       ∧ ∀ i, (i < 25)%nat → c !! i = Some (0.138 + 0.076 * INR i).
Proof.
  intros [[_ (? & ? & ? & ? & ->)]|[Hle _]]%stack_host_inv Hn; [|lia].
  cbn [edges]. unfold bin_centers, np_add. cbn [of_option mbind result_bind].
  rewrite broadcast_same_length
    by (by rewrite length_but_last, length_but_first).
  cbn [mbind result_bind]. eexists. split; [done|]. split.
  { rewrite length_np_div_scalar, length_zip_with, length_but_last,
      length_but_first, length_linspace. lia. }
  intros i Hi. unfold np_div_scalar.
  rewrite list_lookup_fmap, lookup_zip_with, lookup_but_first.
  rewrite lookup_but_last by (rewrite length_linspace; lia).
  rewrite !bin_edge_linspace by lia. simpl. f_equal.
  unfold bin_edge. rewrite S_INR. lra.
Qed.

Lemma bin_centers_are_midpoints_witness :
  ∃ c, bin_centers (Some (linspace 0.1 2 26)) = Ok c ∧ length c = 25%nat
       ∧ ∀ i, (i < 25)%nat → c !! i = Some (0.138 + 0.076 * INR i).
Proof.
  destruct (stack_host_above Sample.host' Sample.info (replicate 41 1)
              (replicate 41 true) no_stacks eq_refl eq_refl)
    as (a1 & a2 & a3 & a4 & p1 & p2 & p3 & p4
        & _ & _ & _ & _ & _ & _ & _ & _ & Hrun).
  { rewrite np_sum_replicate_true. lia. }
  apply (bin_centers_are_midpoints Sample.host' (replicate 41 1)
           (replicate 41 true) no_stacks _ Hrun).
  rewrite np_sum_replicate_true. lia.
Defined.
End Counts.

(** ** One coordinate of one round of [displace] *)

(** X24: a round of the loop of [displace] shifts a coordinate difference by
    one box length at most: what it stores is the difference itself, or the
    difference plus or minus [L]; so the stored value lies within half a
    box of zero exactly when the difference lies within one box and a
    half. *)
Theorem displace_coord_shifts_once buf self host i a b :
  i < length (view_read buf self) →
  i < length (view_read buf host) →
  buf !! (v_start self + loop_index (length (view_read buf self)) i) = Some a →
  buf !! (v_start host + loop_index (length (view_read buf host)) i) = Some b →
  ∃ v, displace_coord buf self host (- Z.of_nat i)
       = Ok (<[v_start self + loop_index (length (view_read buf self)) i
               := v]> buf)
       ∧ (v = a - b ∨ v = a - b - L ∨ v = a - b + L)%R
       ∧ (in_half_box v ↔ - 3 * L / 2 <= a - b <= 3 * L / 2)%R.
Proof.
  intros Hi Hj Ha Hb. exists (wrap (a - b)).
  split; [by apply displace_coord_spec|].
  unfold wrap, in_half_box, L. repeat case_decide; split; try lra.
  all: try (split; intros; lra).
  all: try (right; lra).
Qed.

Lemma displace_coord_shifts_once_witness :
  ∃ v, displace_coord [240; 1]%R (mkView 0 1) (mkView 1 2) (- Z.of_nat 0)
       = Ok (<[0 := v]> [240; 1]%R)
       ∧ (v = 240 - 1 ∨ v = 240 - 1 - L ∨ v = 240 - 1 + L)%R
       ∧ (in_half_box v ↔ - 3 * L / 2 <= 240 - 1 <= 3 * L / 2)%R.
Proof.
  apply (displace_coord_shifts_once [240; 1]%R (mkView 0 1) (mkView 1 2) 0
           240%R 1%R); (simpl; lia) || reflexivity.
Defined.

(** ** What the loop over hosts leaves alone *)

Lemma only_positions_refl St : only_positions St St.
Proof. do 3 (split; [done|]). apply same_objects_refl. Qed.

Lemma only_positions_trans St1 St2 St3 :
  only_positions St1 St2 → only_positions St2 St3 → only_positions St1 St3.
Proof.
  intros (Ea & Eb & Ec & Ho) (Ea' & Eb' & Ec' & Ho').
  do 3 (split; [congruence|]). by eapply same_objects_trans.
Qed.

Lemma displace_positions_inv St v w St1 :
  displace_positions St v w = Ok St1 →
  ∃ bx by_ bz, St1 = set_positions St bx by_ bz.
Proof.
  unfold displace_positions.
  intros ([[bx by_] bz] & _ & [= <-])%bind_Ok. eauto.
Qed.

(** [displace] writes positions and sets the attributes of the displaced
    subhalo, and nothing else. *)
Lemma displace_only_positions vd St self host St' :
  displace vd St self host = Ok St' → only_positions St St'.
Proof.
  unfold displace, deref.
  intros (hself & Hs%of_option_Ok & H)%bind_Ok.
  apply bind_Ok in H as (hhost & _ & H).
  apply bind_Ok in H as (St1 & (bx & by_ & bz & ->)%displace_positions_inv & H).
  apply bind_Ok in H as (d & _ & [= <-]).
  do 3 (split; [done|]). intros k. simpl.
  destruct (decide (self = k)) as [<-|Hk].
  - rewrite lookup_insert_eq, Hs. constructor. by repeat split.
  - rewrite lookup_insert_ne by done.
    destruct (hs St !! k); constructor. apply same_shape_refl.
Qed.

Lemma displace_subs_only_positions vd host l St St' :
  for_each (λ sub St, displace vd St sub host) l St = Ok St' →
  only_positions St St'.
Proof.
  revert St. induction l as [|sub l IH]; intros St.
  - intros [= <-]. apply only_positions_refl.
  - cbn [for_each]. intros (St1 & H1%displace_only_positions & H2%IH)%bind_Ok.
    by eapply only_positions_trans.
Qed.

(** A round of the loop over hosts, taken apart. *)
Lemma host_body_parts vd host St A St' A' :
  host_body vd host (St, A) = Ok (St', A') →
  ∃ hhost hhost' g r_now mask,
    hs St !! host = Some hhost
    ∧ for_each (λ sub St, displace vd St sub host) (subs hhost) St = Ok St'
    ∧ hs St' !! host = Some hhost'
    ∧ for_each (gather_body St') (subs hhost') no_gathered = Ok g
    ∧ getitem (halo_rs St' hhost') (-1) = Ok r_now
    ∧ make_mask (g_xps g) (np_div_scalar (g_ds g) r_now) (g_ds g) = Ok mask
    ∧ stack_host hhost' (g_ds g) mask A = Ok A'.
Proof.
  unfold host_body, deref.
  intros (hhost & Hh%of_option_Ok & H)%bind_Ok.
  apply bind_Ok in H as (St1 & Hrun & H).
  apply bind_Ok in H as (hhost' & Hh'%of_option_Ok & H).
  apply bind_Ok in H as (g & Hg & H).
  apply bind_Ok in H as (r_now & Hr & H).
  apply bind_Ok in H as (mask & Hmask & H).
  apply bind_Ok in H as (A1 & HA & [= <- <-]).
  by exists hhost, hhost', g, r_now, mask.
Qed.

Lemma host_body_only_positions vd host St A St' A' :
  host_body vd host (St, A) = Ok (St', A') → only_positions St St'.
Proof.
  intros (hhost & _ & _ & _ & _ & _ & Hrun & _)%host_body_parts.
  by eapply displace_subs_only_positions.
Qed.

(** X25: the loop over hosts writes the positions [xs], [ys], [zs] and the
    attributes of displaced subhalos, and nothing else: the scale factors,
    radii and masses of the tree are as they were loaded, no object is
    added to or removed from [hs], and every object keeps its id, its
    slice, its ages, its subhalos and its host attributes. *)
Theorem host_loop_changes_only_positions vd hosts St A St' A' :
  for_each (host_body vd) hosts (St, A) = Ok (St', A') →
  only_positions St St'.
Proof.
  revert St A. induction hosts as [|host hosts IH]; intros St A.
  - intros [= <- <-]. apply only_positions_refl.
  - cbn [for_each]. intros ([St1 A1] & H1 & H2)%bind_Ok.
    apply host_body_only_positions in H1. apply IH in H2.
    by eapply only_positions_trans.
Qed.

Lemma host_loop_changes_only_positions_witness :
  only_positions Sample.store Sample.displaced_store.
Proof.
  apply (host_loop_changes_only_positions vector_deriv_spec [1%Z]
           Sample.store no_stacks Sample.displaced_store Sample.counted).
  cbn [for_each]. by rewrite SampleAggregate.host_body_eval.
Defined.

(** ** The count of a host *)

Lemma np_sum_le mask : np_sum mask ≤ length mask.
Proof. unfold np_sum. apply length_filter. Qed.

Lemma make_mask_length xps xs_ ds_ mask :
  length xps = length xs_ → length xs_ = length ds_ →
  make_mask xps xs_ ds_ = Ok mask → length mask = length ds_.
Proof.
  intros H1 H2 Hm.
  destruct (make_mask_total xps xs_ ds_ H1 H2) as (m & Hm' & Hl).
  congruence.
Qed.

(** X26: the count that a round of the loop over hosts records is at most
    the number of subhalos of the host; so a host with 40 subhalos or fewer
    adds no profile to the stacks and leaves the bin edges as they were. *)
Theorem host_count_le_subhalos vd host hhost St A St' A' :
  hs St !! host = Some hhost →
  host_body vd host (St, A) = Ok (St', A') →
  ∃ n, sub_counts A' = sub_counts A ++ [n]
       ∧ n ≤ length (subs hhost)
       ∧ (length (subs hhost) ≤ 40 →
          b_r_sp A' = b_r_sp A ∧ b_r_max A' = b_r_max A
          ∧ b_r200m A' = b_r200m A ∧ b_r200c A' = b_r200c A
          ∧ edges A' = edges A).
Proof.
  intros Hh
    (hhost0 & hhost' & g & r_now & mask & Hh0 & Hrun & Hh' & Hg & _ & Hmask
     & HA)%host_body_parts.
  assert (hhost0 = hhost) as -> by congruence.
  apply displace_subs_only_positions in Hrun as (_ & _ & _ & Hobj).
  destruct (same_objects_lookup_l _ _ _ _ Hobj Hh)
    as (h1 & Hh1 & (_ & _ & _ & Hsubs & _)).
  assert (h1 = hhost') as -> by congruence.
  apply gather_loop in Hg
    as (a & b & c & p & q & u & -> & Ha & Hc & _ & _ & _ & Hab).
  simpl in Hmask, HA.
  assert (Hml : length mask = length a).
  { apply (make_mask_length c (np_div_scalar a r_now) a);
      [|by rewrite length_np_div_scalar|done].
    rewrite length_np_div_scalar. congruence. }
  pose proof (np_sum_le mask) as Hle.
  exists (np_sum mask).
  apply stack_host_inv in HA as [[Hn (? & ? & ? & ? & ->)]|[Hn ->]]; simpl.
  - split; [done|]. split; [congruence|]. intros Hsmall.
    rewrite Hsubs in Ha. lia.
  - split; [done|]. split; [congruence|done].
Qed.

Lemma host_count_le_subhalos_witness :
  ∃ n, sub_counts Sample.counted = sub_counts no_stacks ++ [n]
       ∧ n ≤ length (subs Sample.host')
       ∧ (length (subs Sample.host') ≤ 40 →
          b_r_sp Sample.counted = b_r_sp no_stacks
          ∧ b_r_max Sample.counted = b_r_max no_stacks
          ∧ b_r200m Sample.counted = b_r200m no_stacks
          ∧ b_r200c Sample.counted = b_r200c no_stacks
          ∧ edges Sample.counted = edges no_stacks).
Proof.
  apply (host_count_le_subhalos vector_deriv_spec 1 Sample.host'
           Sample.store no_stacks Sample.displaced_store Sample.counted).
  - reflexivity.
  - apply SampleAggregate.host_body_eval.
Defined.

(** ** The integral of a stacked profile *)

Section Integral.
Local Open Scope R_scope.

Lemma bin_edge_pos i : 0 < bin_edge i.
Proof. unfold bin_edge. pose proof (pos_INR i). nra. Qed.

Lemma bin_edge_step i : bin_edge (S i) = bin_edge i + 0.076.
Proof. unfold bin_edge. rewrite S_INR. lra. Qed.

Lemma shell_volume_pos i : 0 < shell_volume (bin_edge i) (bin_edge (S i)).
Proof.
  unfold shell_volume. rewrite bin_edge_step.
  pose proof (bin_edge_pos i) as Hpos. pose proof PI_RGT_0 as Hpi.
  apply Rmult_lt_0_compat; [lra|]. nra.
Qed.

Lemma sum_R_cons x l : sum_R (x :: l) = x + sum_R l.
Proof. done. Qed.

Lemma sum_R_counts (f : nat → nat) (n : nat) l :
  sum_R ((λ i, INR (f i) / INR n) <$> l) = INR (sum_list_with f l) / INR n.
Proof.
  induction l as [|i l IH].
  - unfold sum_R. simpl. unfold Rdiv. lra.
  - rewrite fmap_cons, sum_R_cons, IH. cbn [sum_list_with].
    rewrite plus_INR. unfold Rdiv. lra.
Qed.

(** X27: the profile that a host adds to a stack integrates, over the 25
    shells, to the fraction of its [n] masked subhalos whose normalised
    distance lies within the range [0.1, 2]. *)
Theorem profile_integrates_to_fraction ds_ mask radius scale n :
  length ds_ = length mask → (0 < n)%nat →
  ∃ a p,
    binned ds_ mask radius scale = Ok a
    ∧ stack_profile ds_ mask radius scale 25 0.1 2 n
      = Ok (p, linspace 0.1 2 26)
    ∧ shell_integral p
      = INR (length (filter (λ v, 0.1 <= v <= 2) a)) / INR n.
Proof.
  intros Hlen Hn.
  destruct (stack_profile_spec ds_ mask radius scale n Hlen)
    as (a & p & Ha & Hp & Hlp & Hvals).
  exists a, p. split; [done|]. split; [done|].
  rewrite <- (histogram_counts a 25 0.1 2) by (lia || lra).
  unfold histogram at 1. cbn [fst]. rewrite sum_list_fmap.
  rewrite <- sum_R_counts. unfold shell_integral. f_equal.
  apply list_eq. intros i. rewrite list_lookup_imap, list_lookup_fmap.
  destruct (decide (i < 25)%nat) as [Hi|Hi].
  - destruct (Hvals i Hi) as (c & Hc & _ & _ & ->).
    rewrite lookup_seq_lt by done. simpl. f_equal.
    unfold histogram in Hc. cbn [fst] in Hc.
    rewrite list_lookup_fmap, lookup_seq_lt in Hc by done.
    injection Hc as <-.
    pose proof (shell_volume_pos i). field.
    split; [|lra]. apply not_0_INR. lia.
  - rewrite (lookup_ge_None_2 p) by lia.
    by rewrite (lookup_ge_None_2 (seq 0 25)) by (rewrite length_seq; lia).
Qed.

Lemma profile_integrates_to_fraction_witness :
  ∃ a p,
    binned (replicate 41 1) (replicate 41 true) 1.2 1 = Ok a
    ∧ stack_profile (replicate 41 1) (replicate 41 true) 1.2 1 25 0.1 2 41
      = Ok (p, linspace 0.1 2 26)
    ∧ shell_integral p
      = INR (length (filter (λ v, 0.1 <= v <= 2) a)) / INR 41.
Proof.
  apply (profile_integrates_to_fraction (replicate 41 1) (replicate 41 true)
           1.2 1 41); [reflexivity|lia].
Defined.
End Integral.

(** ** [displace], twice *)

Section Twice.
Variable vd : list R → list R → list R.
Hypothesis vd_length : ∀ t x, length (vd t x) = length x.

(** [displace] returns on columns of one length, for slices that share no
    position; the store it returns is the one of [displace_inv]. *)
Lemma displace_returns St self host hself hhost :
  hs St !! self = Some hself → hs St !! host = Some hhost →
  wf_columns St → disjoint_halos St (h_view hself) (h_view hhost) →
  ∃ d, displace vd St self host
       = Ok (set_halo (positions_result St (h_view hself) (h_view hhost))
               self (set_displaced hself d)).
Proof.
  intros Hs Hh Hwf Hdis. unfold displace, deref. rewrite Hs, Hh.
  cbn [of_option mbind result_bind].
  rewrite displace_positions_spec by done. cbn [mbind result_bind].
  rewrite (displace_derived_spec vd vd_length)
    by (by apply wf_columns_positions_result).
  cbn [mbind result_bind]. eauto.
Qed.

(** X28: [displace] is not idempotent: a subhalo displaced twice against
    one host (a subhalo that the membership table lists twice) has the
    host's positions subtracted, and the result wrapped, twice. *)
Theorem displace_twice St self host hself hhost :
  hs St !! self = Some hself → hs St !! host = Some hhost →
  self ≠ host → wf_columns St →
  disjoint_halos St (h_view hself) (h_view hhost) →
  ∃ St1 St2,
    displace vd St self host = Ok St1
    ∧ displace vd St1 self host = Ok St2
    ∧ halo_xs St2 hself
      = displaced_array
          (displaced_array (halo_xs St hself) (halo_xs St hhost))
          (halo_xs St hhost)
    ∧ halo_ys St2 hself
      = displaced_array
          (displaced_array (halo_ys St hself) (halo_ys St hhost))
          (halo_ys St hhost)
    ∧ halo_zs St2 hself
      = displaced_array
          (displaced_array (halo_zs St hself) (halo_zs St hhost))
          (halo_zs St hhost).
Proof.
  intros Hs Hh Hne Hwf Hdis.
  destruct (displace_returns St self host hself hhost Hs Hh Hwf Hdis)
    as [d1 Hrun1].
  set (P1 := positions_result St (h_view hself) (h_view hhost)) in *.
  set (St1 := set_halo P1 self (set_displaced hself d1)) in *.
  assert (Hwf1 : wf_columns St1) by (by apply wf_columns_positions_result).
  assert (Hs1 : hs St1 !! self = Some (set_displaced hself d1))
    by (simpl; by rewrite lookup_insert_eq).
  assert (Hh1 : hs St1 !! host = Some hhost)
    by (simpl; by rewrite lookup_insert_ne).
  assert (Hdis1 : disjoint_halos St1 (h_view (set_displaced hself d1))
                    (h_view hhost)).
  { apply (disjoint_views_same_length (xs St)); [|done].
    unfold St1, P1, positions_result. simpl.
    by rewrite length_write_view by apply length_displaced_array. }
  destruct (displace_returns St1 self host _ hhost Hs1 Hh1 Hwf1 Hdis1)
    as [d2 Hrun2].
  eexists St1, _. split; [done|]. split; [exact Hrun2|].
  destruct (halo_positions_result St1 (set_displaced hself d1) hhost)
    as (Hx2 & Hy2 & Hz2 & _).
  destruct (halo_positions_result St hself hhost) as (Hx1 & Hy1 & Hz1 & _).
  destruct (halo_views_positions_result St (h_view hself) (h_view hhost)
              hhost Hwf Hdis) as (_ & Hxh & Hyh & Hzh & _).
  fold P1 in Hx1, Hy1, Hz1, Hxh, Hyh, Hzh.
  change (halo_xs St1 (set_displaced hself d1)) with (halo_xs P1 hself) in Hx2.
  change (halo_ys St1 (set_displaced hself d1)) with (halo_ys P1 hself) in Hy2.
  change (halo_zs St1 (set_displaced hself d1)) with (halo_zs P1 hself) in Hz2.
  change (halo_xs St1 hhost) with (halo_xs P1 hhost) in Hx2.
  change (halo_ys St1 hhost) with (halo_ys P1 hhost) in Hy2.
  change (halo_zs St1 hhost) with (halo_zs P1 hhost) in Hz2.
  rewrite Hx1, Hxh in Hx2. rewrite Hy1, Hyh in Hy2. rewrite Hz1, Hzh in Hz2.
  split; [exact Hx2|]. split; [exact Hy2|exact Hz2].
Qed.

(** X3: when the subhalo and the host have histories of one length,
    [displace] leaves in the subhalo's [xs], [ys] and [zs] the trailing
    alignment of the specification: every sample against the host's sample
    of the same snapshot, wrapped. The index [-0] then denotes the same
    snapshot in both arrays. *)
Theorem displace_same_length_is_trailing_aligned St self host hself hhost :
  hs St !! self = Some hself → hs St !! host = Some hhost →
  wf_columns St → disjoint_halos St (h_view hself) (h_view hhost) →
  length (halo_xs St hself) = length (halo_xs St hhost) →
  ∃ St',
    displace vd St self host = Ok St'
    ∧ halo_xs St' hself
      = trailing_aligned (halo_xs St hself) (halo_xs St hhost)
    ∧ halo_ys St' hself
      = trailing_aligned (halo_ys St hself) (halo_ys St hhost)
    ∧ halo_zs St' hself
      = trailing_aligned (halo_zs St hself) (halo_zs St hhost).
Proof.
  intros Hs Hh Hwf Hdis Hlen.
  destruct (displace_returns St self host hself hhost Hs Hh Hwf Hdis)
    as [d Hrun].
  eexists. split; [exact Hrun|].
  destruct (halo_positions_result St hself hhost) as (Hx & Hy & Hz & _).
  destruct (length_halo_views St hself Hwf) as (Hys & Hzs & _).
  destruct (length_halo_views St hhost Hwf) as (Hyh & Hzh & _).
  change (halo_xs (set_halo ?S _ _) ?h) with (halo_xs S h).
  change (halo_ys (set_halo ?S _ _) ?h) with (halo_ys S h).
  change (halo_zs (set_halo ?S _ _) ?h) with (halo_zs S h).
  rewrite Hx, Hy, Hz.
  rewrite !displaced_array_aligned by congruence. done.
Qed.
End Twice.

Lemma displace_same_length_is_trailing_aligned_witness :
  ∃ St',
    displace vector_deriv_spec SamplePair.store 2 1 = Ok St'
    ∧ halo_xs St' SamplePair.sub
      = trailing_aligned (halo_xs SamplePair.store SamplePair.sub)
          (halo_xs SamplePair.store SamplePair.host)
    ∧ halo_ys St' SamplePair.sub
      = trailing_aligned (halo_ys SamplePair.store SamplePair.sub)
          (halo_ys SamplePair.store SamplePair.host)
    ∧ halo_zs St' SamplePair.sub
      = trailing_aligned (halo_zs SamplePair.store SamplePair.sub)
          (halo_zs SamplePair.store SamplePair.host).
Proof.
  apply (displace_same_length_is_trailing_aligned vector_deriv_spec
           length_vector_deriv_spec SamplePair.store 2 1 SamplePair.sub
           SamplePair.host).
  - reflexivity.
  - reflexivity.
  - by repeat split.
  - right. simpl. lia.
  - reflexivity.
Defined.

Lemma displace_twice_witness :
  ∃ St1 St2,
    displace vector_deriv_spec Sample.store 2 1 = Ok St1
    ∧ displace vector_deriv_spec St1 2 1 = Ok St2
    ∧ halo_xs St2 Sample.sub
      = displaced_array
          (displaced_array (halo_xs Sample.store Sample.sub)
             (halo_xs Sample.store Sample.host'))
          (halo_xs Sample.store Sample.host')
    ∧ halo_ys St2 Sample.sub
      = displaced_array
          (displaced_array (halo_ys Sample.store Sample.sub)
             (halo_ys Sample.store Sample.host'))
          (halo_ys Sample.store Sample.host')
    ∧ halo_zs St2 Sample.sub
      = displaced_array
          (displaced_array (halo_zs Sample.store Sample.sub)
             (halo_zs Sample.store Sample.host'))
          (halo_zs Sample.store Sample.host').
Proof.
  apply (displace_twice vector_deriv_spec length_vector_deriv_spec
           Sample.store 2 1 Sample.sub Sample.host').
  - apply SampleFacts.lookup_sub.
  - apply SampleFacts.lookup_host.
  - done.
  - apply SampleFacts.store_wf.
  - apply SampleFacts.views_disjoint.
Defined.

(** ** The mask of a host *)

Lemma getitem_last {A} (a : list A) x :
  getitem a (-1) = Ok x → last a = Some x.
Proof.
  intros [_ Hx]%(getitem_neg_inv a 1); [|lia].
  rewrite last_lookup. by replace (Nat.pred (length a)) with (length a - 1)
    by lia.
Qed.

(** What [displace] does to the objects: the subhalo gets its attributes,
    among them the alias of the host's radii; every other object stays. *)
Lemma displace_sets_host_rs vd St self host St' :
  displace vd St self host = Ok St' →
  ∃ hself hhost d,
    hs St !! self = Some hself ∧ hs St !! host = Some hhost
    ∧ host_rs d = h_view hhost
    ∧ hs St' !! self = Some (set_displaced hself d)
    ∧ ∀ k, k ≠ self → hs St' !! k = hs St !! k.
Proof.
  unfold displace, deref.
  intros (hself & Hs%of_option_Ok & H)%bind_Ok.
  apply bind_Ok in H as (hhost & Hh%of_option_Ok & H).
  apply bind_Ok in H as (St1 & (bx & by_ & bz & ->)%displace_positions_inv & H).
  apply bind_Ok in H as (d & Hd%displace_derived_host_rs & [= <-]).
  exists hself, hhost, d. do 3 (split; [done|]). simpl.
  split; [by rewrite lookup_insert_eq|].
  intros k Hk. by rewrite lookup_insert_ne.
Qed.

(** After the first loop of a round, every subhalo of the list aliases the
    radii of the host. *)
Lemma displace_subs_host_rs vd host hv l St St' prev :
  (∀ hhost, hs St !! host = Some hhost → h_view hhost = hv) →
  (∀ s, s ∈ prev → reads_radii_of St hv s) →
  for_each (λ sub St, displace vd St sub host) l St = Ok St' →
  ∀ s, s ∈ prev ++ l → reads_radii_of St' hv s.
Proof.
  revert St prev. induction l as [|sub l IH]; intros St prev Hv Hprev.
  - intros [= <-]. by rewrite app_nil_r.
  - cbn [for_each]. intros (St1 & H1 & Hrest)%bind_Ok.
    pose proof (displace_only_positions _ _ _ _ _ H1) as (_ & _ & _ & Hobj).
    apply displace_sets_host_rs in H1
      as (hself & hhost & d & Hs & Hh & Hd & Hs1 & Hframe).
    intros s Hs'.
    replace (prev ++ sub :: l) with ((prev ++ [sub]) ++ l) in Hs'
      by (by rewrite <- app_assoc).
    revert s Hs'. apply (IH St1 (prev ++ [sub])); [| |done].
    + intros hhost1 Hh1.
      destruct (same_objects_lookup_r _ _ _ _ Hobj Hh1)
        as (h0 & Hh0 & _ & Hview & _).
      rewrite Hview. by apply Hv.
    + intros s [Hs'|Hs'%list_elem_of_singleton]%elem_of_app.
      * destruct (decide (s = sub)) as [->|Hne].
        { exists (set_displaced hself d), d. split; [done|].
          split; [done|]. rewrite Hd. by apply Hv. }
        destruct (Hprev s Hs') as (hsub & d' & Hl & Hd' & Hrs).
        exists hsub, d'. by rewrite Hframe.
      * subst s. exists (set_displaced hself d), d. split; [done|].
        split; [done|]. rewrite Hd. by apply Hv.
Qed.

(** One round of the second loop, with what it reads. *)
Lemma gather_body_entry St sub g g' :
  gather_body St sub g = Ok g' →
  ∃ hsub d dp r xp phi th t d_now phi_now th_now,
    hs St !! sub = Some hsub ∧ displaced hsub = Some d
    ∧ perihelion St sub = Ok (dp, xp, phi, th, t)
    ∧ xp = (dp / r)%R ∧ r ∈ halo_host_rs St d
    ∧ last (ds d) = Some d_now
    ∧ g' = {| g_ds := g_ds g ++ [d_now]; g_dps := g_dps g ++ [dp];
              g_xps := g_xps g ++ [xp]; g_phis := g_phis g ++ [phi_now];
              g_ths := g_ths g ++ [th_now]; g_ts := g_ts g ++ [t] |}.
Proof.
  unfold gather_body.
  intros ([[[[dp xp] phi] th] t] & Hp & H)%bind_Ok.
  pose proof Hp as Hp'.
  apply perihelion_inv in Hp'
    as (hself & d & k & r & Hs & Hd & Hk & _ & Hr & Hxp & _).
  unfold deref in H. rewrite Hs in H. cbn [of_option mbind result_bind] in H.
  rewrite Hd in H. cbn [of_option mbind result_bind] in H.
  apply bind_Ok in H as (d_now & Hnow%getitem_last & H).
  apply bind_Ok in H as (phi_now & _ & H).
  apply bind_Ok in H as (th_now & _ & H).
  injection H as <-.
  exists hself, d, dp, r, xp, phi, th, t, d_now, phi_now, th_now.
  do 4 (split; [done|]). split; [by eapply list_elem_of_lookup_2|].
  done.
Qed.

(** Entry [i] of the gathered arrays is read from subhalo [i]. *)
Lemma gather_loop_entries St l g0 g :
  for_each (gather_body St) l g0 = Ok g →
  ∀ i sub, l !! i = Some sub →
    ∃ hsub d dp r xp phi th t d_now,
      hs St !! sub = Some hsub ∧ displaced hsub = Some d
      ∧ perihelion St sub = Ok (dp, xp, phi, th, t)
      ∧ xp = (dp / r)%R ∧ r ∈ halo_host_rs St d
      ∧ last (ds d) = Some d_now
      ∧ g_ds g !! (length (g_ds g0) + i) = Some d_now
      ∧ g_xps g !! (length (g_xps g0) + i) = Some xp.
Proof.
  revert g0. induction l as [|s l IH]; intros g0 Hrun i sub Hi; [done|].
  cbn [for_each] in Hrun. apply bind_Ok in Hrun as (g1 & Hb & Hrest).
  destruct i as [|i].
  - injection Hi as ->.
    apply gather_body_entry in Hb
      as (hsub & d & dp & r & xp & phi & th & t & d_now & phi_now & th_now
          & Hs & Hd & Hp & Hxp & Hr & Hnow & ->).
    apply gather_loop in Hrest as (a & b & c & p & q & u & -> & _).
    exists hsub, d, dp, r, xp, phi, th, t, d_now.
    do 6 (split; [done|]). cbn [g_ds g_xps].
    rewrite <- !app_assoc, !Nat.add_0_r.
    split; by apply list_lookup_middle.
  - destruct (IH g1 Hrest i sub Hi)
      as (hsub & d & dp & r & xp & phi & th & t & d_now
          & Hs & Hd & Hp & Hxp & Hr & Hnow & Hds & Hxps).
    apply gather_body_entry in Hb
      as (? & ? & ? & ? & ? & ? & ? & ? & ? & ? & ? & _ & _ & _ & _ & _ & _
          & ->).
    cbn [g_ds g_xps] in Hds, Hxps. rewrite length_app in Hds, Hxps.
    simpl in Hds, Hxps.
    exists hsub, d, dp, r, xp, phi, th, t, d_now.
    do 6 (split; [done|]).
    replace (length (g_ds g0) + S i) with (length (g_ds g0) + 1 + i) by lia.
    replace (length (g_xps g0) + S i) with (length (g_xps g0) + 1 + i)
      by lia.
    done.
Qed.

(** C4: in a round of the loop over hosts, for a host whose radii are not
    zero, the mask that selects the binned distances and gives the count has
    one entry per subhalo of the host, and the entry of a subhalo is true
    exactly when [xp < 1], [d_now > 0] and [|xp - d_now / r_now| >= 0.01],
    where [xp] is the normalised distance that [perihelion] returns for the
    subhalo (its perihelion distance over a radius of the host), [d_now]
    the last of its distances and [r_now] the last radius of the host. *)
Theorem mask_iff_interior_positive_distinct vd host hhost r_now St A St' A' :
  hs St !! host = Some hhost →
  Forall (λ r, r ≠ 0%R) (halo_rs St hhost) →
  last (halo_rs St hhost) = Some r_now →
  host_body vd host (St, A) = Ok (St', A') →
  ∃ ds_ mask hhost',
    hs St' !! host = Some hhost' ∧ subs hhost' = subs hhost
    ∧ last (halo_rs St' hhost') = Some r_now
    ∧ stack_host hhost' ds_ mask A = Ok A'
    ∧ length ds_ = length (subs hhost) ∧ length mask = length (subs hhost)
    ∧ ∀ i sub, subs hhost !! i = Some sub →
        ∃ hsub d dp r xp phi th t d_now,
          hs St' !! sub = Some hsub ∧ displaced hsub = Some d
          ∧ perihelion St' sub = Ok (dp, xp, phi, th, t)
          ∧ xp = (dp / r)%R ∧ r ≠ 0%R
          ∧ last (ds d) = Some d_now ∧ ds_ !! i = Some d_now
          ∧ (mask !! i = Some true
             ↔ (xp < 1 ∧ d_now > 0
                ∧ Rabs (xp - d_now / r_now) >= 0.01)%R).
Proof.
  intros Hh Hnz Hlast
    (hhost0 & hhost' & g & r1 & mask & Hh0 & Hrun & Hh' & Hg & Hr1 & Hmask
     & HA)%host_body_parts.
  assert (hhost0 = hhost) as -> by congruence.
  pose proof (displace_subs_only_positions _ _ _ _ _ Hrun)
    as (_ & Hrs & _ & Hobj).
  destruct (same_objects_lookup_l _ _ _ _ Hobj Hh)
    as (h1 & Hh1 & (_ & Hview & _ & Hsubs & _)).
  assert (h1 = hhost') as -> by congruence.
  assert (Hradii : halo_rs St' hhost' = halo_rs St hhost)
    by (unfold halo_rs; by rewrite Hrs, Hview).
  apply getitem_last in Hr1. rewrite Hradii in Hr1.
  assert (r1 = r_now) as -> by congruence.
  assert (Halias : ∀ s, s ∈ subs hhost →
            reads_radii_of St' (h_view hhost) s).
  { intros s Hs.
    apply (displace_subs_host_rs vd host (h_view hhost) (subs hhost) St St'
             []); [|by intros ? ?%elem_of_nil|done|done].
    intros h' Hh''. congruence. }
  pose proof (gather_loop _ _ _ _ Hg)
    as (a & b & c & p & q & u & Hgeq & Ha & Hc & _).
  assert (Hgds : length (g_ds g) = length (subs hhost))
    by (rewrite Hgeq; simpl; congruence).
  assert (Hgxps : length (g_xps g) = length (subs hhost))
    by (rewrite Hgeq; simpl; congruence).
  destruct (make_mask_spec (g_xps g) (g_ds g) r_now)
    as (mask' & Hmask' & Hml & Hiff); [congruence|].
  assert (mask' = mask) as -> by congruence.
  exists (g_ds g), mask, hhost'.
  split; [done|]. split; [done|]. split; [by rewrite Hradii|].
  split; [done|]. split; [done|]. split; [congruence|].
  intros i sub Hi. rewrite <- Hsubs in Hi.
  destruct (gather_loop_entries _ _ _ _ Hg i sub Hi)
    as (hsub & d & dp & r & xp & phi & th & t & d_now
        & Hs & Hd & Hp & Hxp & Hr & Hnow & Hds & Hxps).
  simpl in Hds, Hxps.
  exists hsub, d, dp, r, xp, phi, th, t, d_now.
  do 4 (split; [done|]). split.
  { destruct (Halias sub) as (hsub' & d' & Hs' & Hd' & Hhv).
    { rewrite <- Hsubs. by eapply list_elem_of_lookup_2. }
    assert (d' = d) as -> by congruence.
    unfold halo_host_rs in Hr. rewrite Hhv, Hrs in Hr.
    rewrite Forall_forall in Hnz. by apply Hnz. }
  split; [done|]. split; [done|]. by apply Hiff.
Qed.

Lemma mask_iff_interior_positive_distinct_witness :
  ∃ ds_ mask hhost',
    hs Sample.displaced_store !! 1%Z = Some hhost'
    ∧ subs hhost' = subs Sample.host'
    ∧ last (halo_rs Sample.displaced_store hhost') = Some 1%R
    ∧ stack_host hhost' ds_ mask no_stacks = Ok Sample.counted
    ∧ length ds_ = length (subs Sample.host')
    ∧ length mask = length (subs Sample.host')
    ∧ ∀ i sub, subs Sample.host' !! i = Some sub →
        ∃ hsub d dp r xp phi th t d_now,
          hs Sample.displaced_store !! sub = Some hsub
          ∧ displaced hsub = Some d
          ∧ perihelion Sample.displaced_store sub = Ok (dp, xp, phi, th, t)
          ∧ xp = (dp / r)%R ∧ r ≠ 0%R
          ∧ last (ds d) = Some d_now ∧ ds_ !! i = Some d_now
          ∧ (mask !! i = Some true
             ↔ (xp < 1 ∧ d_now > 0 ∧ Rabs (xp - d_now / 1) >= 0.01)%R).
Proof.
  apply (mask_iff_interior_positive_distinct vector_deriv_spec 1
           Sample.host' 1%R Sample.store no_stacks Sample.displaced_store
           Sample.counted).
  - reflexivity.
  - change (halo_rs Sample.store Sample.host') with [0.5; 0.8; 1]%R.
    repeat constructor; lra.
  - reflexivity.
  - apply SampleAggregate.host_body_eval.
Defined.

